(** * Banded LU solver and clamped cubic spline of [cubic_spline.hpp]

    A shallow embedding of [cubic_spline::BandedSystem] and
    [cubic_spline::CubicSpline] and the properties of the two classes.

    - [double] is read as an element of an ordered field [Scalar] with a
      decidable equality: the arithmetic is exact.  The rationals [Qc] are
      one such field and serve to run the code on concrete waypoints.
    - [int] is read as [Z]: for an entry of the band every value of the
      index computation lies between 0 and [N * (lowerBw + upperBw + 1)],
      the size that [create] has computed in an [int] ([offset_range]).
    - [for] loops are iterations over their index range, with the loop state
      passed explicitly. *)

From Stdlib Require Import ZArith List Lia Bool QArith Qcanon Field Ring.
Import ListNotations.
Local Open Scope Z_scope.

Set Implicit Arguments.

(** ** Scalars *)

Record Scalar : Type := {
  F :> Type;
  f0 : F;
  f1 : F;
  fadd : F -> F -> F;
  fmul : F -> F -> F;
  fsub : F -> F -> F;
  fopp : F -> F;
  fdiv : F -> F -> F;
  finv : F -> F;
  feqb : F -> F -> bool;
  fleb : F -> F -> bool;
  F_field : field_theory f0 f1 fadd fmul fsub fopp fdiv finv eq;
  feqb_eq : forall x y, feqb x y = true <-> x = y;
  fleb_refl : forall x, fleb x x = true;
  fleb_antisym : forall x y, fleb x y = true -> fleb y x = true -> x = y;
  fleb_trans : forall x y z, fleb x y = true -> fleb y z = true -> fleb x z = true;
  fleb_total : forall x y, fleb x y = true \/ fleb y x = true;
  fleb_add : forall x y z, fleb x y = true -> fleb (fadd x z) (fadd y z) = true;
  fleb_mul : forall x y, fleb f0 x = true -> fleb f0 y = true -> fleb f0 (fmul x y) = true
}.

Declare Scope scalar_scope.
Delimit Scope scalar_scope with K.
Notation "0" := (f0 _) : scalar_scope.
Notation "1" := (f1 _) : scalar_scope.
Notation "x + y" := (fadd _ x y) : scalar_scope.
Notation "x * y" := (fmul _ x y) : scalar_scope.
Notation "x - y" := (fsub _ x y) : scalar_scope.
Notation "- x" := (fopp _ x) : scalar_scope.
Notation "x / y" := (fdiv _ x y) : scalar_scope.
Notation "x <=? y" := (fleb _ x y) : scalar_scope.

(** The literals of the source. *)
Definition two (K : Scalar) : K := (1 + 1)%K.
Definition three (K : Scalar) : K := (1 + 1 + 1)%K.
Definition four (K : Scalar) : K := (two K * two K)%K.
Definition twelve (K : Scalar) : K := (three K * four K)%K.

(** [x != 0.0] *)
Definition nonzero (K : Scalar) (x : K) : bool := negb (feqb K x 0%K).

Definition fltb (K : Scalar) (x y : K) : bool := negb (fleb K y x).

Definition fabs (K : Scalar) (x : K) : K := if (0 <=? x)%K then x else (- x)%K.

Arguments nonzero {K} x.
Arguments fltb {K} x y.
Arguments fabs {K} x.

Definition fle (K : Scalar) (x y : K) : Prop := fleb K x y = true.
Definition flt (K : Scalar) (x y : K) : Prop := fltb x y = true.

Arguments fle {K} x y.
Arguments flt {K} x y.

Notation "x <= y" := (fle x y) : scalar_scope.
Notation "x < y" := (flt x y) : scalar_scope.

(** The rationals in lowest terms. *)
Definition QcScalar : Scalar.
Proof.
  refine {| F := Qc; f0 := 0%Qc; f1 := 1%Qc;
            fadd := Qcplus; fmul := Qcmult; fsub := Qcminus; fopp := Qcopp;
            fdiv := Qcdiv; finv := Qcinv;
            feqb := fun x y => Qeq_bool (this x) (this y);
            fleb := fun x y => Qle_bool (this x) (this y);
            F_field := Qcft |}.
  - abstract (intros x y; rewrite Qeq_bool_iff; split;
              [apply Qc_is_canon | intros ->; reflexivity]).
  - abstract (intros x; apply Qle_bool_iff; apply Qle_refl).
  - abstract (intros x y Hxy Hyx; apply Qle_bool_iff in Hxy, Hyx;
              now apply Qcle_antisym).
  - abstract (intros x y z Hxy Hyz; apply Qle_bool_iff in Hxy, Hyz;
              apply Qle_bool_iff; now apply Qle_trans with (this y)).
  - abstract (intros x y; destruct (Qclt_le_dec x y) as [Hlt | Hle];
              [left; apply Qle_bool_iff; now apply Qclt_le_weak
              | right; now apply Qle_bool_iff]).
  - abstract (intros x y z Hxy; apply Qle_bool_iff in Hxy; apply Qle_bool_iff;
              change (Qcle (x + z) (y + z));
              apply Qcplus_le_compat; [exact Hxy | apply Qcle_refl]).
  - abstract (intros x y Hx Hy; apply Qle_bool_iff in Hx, Hy; apply Qle_bool_iff;
              change (Qcle 0 (x * y)); replace 0%Qc with (0 * y)%Qc by ring;
              now apply Qcmult_le_compat_r).
Defined.

(** ** Arrays indexed by [int] *)

Fixpoint upd (T : Type) (n : nat) (v : T) (l : list T) : list T :=
  match l with
  | [] => []
  | x :: r => match n with
              | O => v :: r
              | S n' => x :: upd n' v r
              end
  end.

(** Reading the cell [i] of an array; the source never reads outside its
    arrays on the runs considered, the default stands for such a cell. *)
Definition zget (T : Type) (d : T) (l : list T) (i : Z) : T :=
  if i <? 0 then d else nth (Z.to_nat i) l d.

Definition zset (T : Type) (l : list T) (i : Z) (v : T) : list T :=
  if i <? 0 then l else upd (Z.to_nat i) v l.

(** ** Loops *)

Fixpoint iter_up (S : Type) (n : nat) (k : Z) (body : Z -> S -> S) (s : S) : S :=
  match n with
  | O => s
  | Datatypes.S n' => iter_up n' (k + 1) body (body k s)
  end.

Fixpoint iter_down (S : Type) (n : nat) (k : Z) (body : Z -> S -> S) (s : S) : S :=
  match n with
  | O => s
  | Datatypes.S n' => iter_down n' (k - 1) body (body k s)
  end.

(** [for (int k = lo; k <= hi; ++k) body] *)
Definition for_le (S : Type) (lo hi : Z) (body : Z -> S -> S) (s : S) : S :=
  iter_up (Z.to_nat (hi + 1 - lo)) lo body s.

(** [for (int k = lo; k < hi; ++k) body] *)
Definition for_lt (S : Type) (lo hi : Z) (body : Z -> S -> S) (s : S) : S :=
  iter_up (Z.to_nat (hi - lo)) lo body s.

(** [for (int k = hi; k >= lo; --k) body] *)
Definition for_ge (S : Type) (hi lo : Z) (body : Z -> S -> S) (s : S) : S :=
  iter_down (Z.to_nat (hi + 1 - lo)) hi body s.

(** ** Rows of a right-hand side

    [solve] and [solveAdj] are templates over the Eigen matrix type of the
    right-hand side and use two row operations, [row -= c * row] and
    [row /= c].  [RowOps] is that interface; [row_at] reads a column. *)

Class RowOps (K : Scalar) (R : Type) : Type := {
  row0 : R;
  row_sub : R -> R -> R;
  row_scale : K -> R -> R;
  row_div : R -> K -> R;
  row_width : nat;
  row_at : R -> nat -> K;
  row_at_sub : forall r s c, (c < row_width)%nat ->
      row_at (row_sub r s) c = (row_at r c - row_at s c)%K;
  row_at_scale : forall x r c, (c < row_width)%nat ->
      row_at (row_scale x r) c = (x * row_at r c)%K;
  row_at_div : forall r x c, (c < row_width)%nat ->
      row_at (row_div r x) c = (row_at r c / x)%K;
  row_ext : forall r s, (forall c, (c < row_width)%nat -> row_at r c = row_at s c) -> r = s
}.

(** [Eigen::Vector2d], also a row of [Eigen::MatrixX2d] and a column of
    [Eigen::Matrix2Xd]. *)
Definition Vector2d (K : Scalar) : Type := (K * K)%type.

Section Vector2dOps.
Variable K : Scalar.

Definition vzero : Vector2d K := (0%K, 0%K).
Definition vadd (u v : Vector2d K) : Vector2d K := ((fst u + fst v)%K, (snd u + snd v)%K).
Definition vsub (u v : Vector2d K) : Vector2d K := ((fst u - fst v)%K, (snd u - snd v)%K).
Definition vscale (x : K) (v : Vector2d K) : Vector2d K := ((x * fst v)%K, (x * snd v)%K).
Definition vdiv (v : Vector2d K) (x : K) : Vector2d K := ((fst v / x)%K, (snd v / x)%K).
Definition dot (u v : Vector2d K) : K := (fst u * fst v + snd u * snd v)%K.
Definition squaredNorm (v : Vector2d K) : K := dot v v.
Definition vcoord (v : Vector2d K) (c : nat) : K :=
  match c with
  | O => fst v
  | _ => snd v
  end.

End Vector2dOps.

#[export] Instance Vector2d_rows (K : Scalar) : RowOps K (Vector2d K).
Proof.
  refine {| row0 := vzero K; row_sub := @vsub K; row_scale := @vscale K;
            row_div := @vdiv K; row_width := 2; row_at := @vcoord K |}.
  - abstract (intros r s [| [| c]] Hc; try lia; reflexivity).
  - abstract (intros x r [| [| c]] Hc; try lia; reflexivity).
  - abstract (intros r x [| [| c]] Hc; try lia; reflexivity).
  - abstract (intros [r1 r2] [s1 s2] H;
              pose proof (H 0%nat ltac:(lia)) as H0;
              pose proof (H 1%nat ltac:(lia)) as H1;
              simpl in H0, H1; now subst).
Defined.

(** A one-column right-hand side: a row is a scalar. *)
#[export] Instance Scalar_rows (K : Scalar) : RowOps K K.
Proof.
  refine {| row0 := 0%K; row_sub := fsub K; row_scale := fmul K;
            row_div := fdiv K; row_width := 1; row_at := fun r _ => r |}.
  - abstract reflexivity.
  - abstract reflexivity.
  - abstract reflexivity.
  - abstract (intros r s H; exact (H 0%nat ltac:(lia))).
Defined.

(** A row of [m] columns, for a right-hand side of any width. *)
Fixpoint RowN (K : Scalar) (m : nat) : Type :=
  match m with
  | O => unit
  | S m' => (K * RowN K m')%type
  end.

Section RowNOps.
Variable K : Scalar.

Fixpoint rn_zero (m : nat) : RowN K m :=
  match m with
  | O => tt
  | S m' => (0%K, rn_zero m')
  end.

Fixpoint rn_map2 (f : K -> K -> K) (m : nat) : RowN K m -> RowN K m -> RowN K m :=
  match m with
  | O => fun _ _ => tt
  | S m' => fun r s => (f (fst r) (fst s), rn_map2 f m' (snd r) (snd s))
  end.

Fixpoint rn_map (f : K -> K) (m : nat) : RowN K m -> RowN K m :=
  match m with
  | O => fun _ => tt
  | S m' => fun r => (f (fst r), rn_map f m' (snd r))
  end.

Fixpoint rn_at (m : nat) : RowN K m -> nat -> K :=
  match m with
  | O => fun _ _ => 0%K
  | S m' => fun r c =>
      match c with
      | O => fst r
      | S c' => rn_at m' (snd r) c'
      end
  end.

End RowNOps.

#[export] Instance RowN_rows (K : Scalar) (m : nat) : RowOps K (RowN K m).
Proof.
  refine {| row0 := @rn_zero K m;
            row_sub := @rn_map2 K (fsub K) m;
            row_scale := fun x => @rn_map K (fmul K x) m;
            row_div := fun r x => @rn_map K (fun y => fdiv K y x) m r;
            row_width := m;
            row_at := @rn_at K m |}.
  - abstract (induction m as [| m IH]; intros r s c Hc; [lia |];
              destruct c as [| c]; [reflexivity |]; simpl; apply IH; lia).
  - abstract (intros x; induction m as [| m IH]; intros r c Hc; [lia |];
              destruct c as [| c]; [reflexivity |]; simpl; apply IH; lia).
  - abstract (intros r x; revert r; induction m as [| m IH]; intros r c Hc; [lia |];
              destruct c as [| c]; [reflexivity |]; simpl; apply IH; lia).
  - abstract (induction m as [| m IH]; intros r s H;
              [now destruct r, s
              | destruct r as [r1 r], s as [s1 s]; f_equal;
                [exact (H 0%nat ltac:(lia))
                | apply IH; intros c Hc; exact (H (S c) ltac:(lia))]]).
Defined.

(** ** The free store

    [new double[n]] and [delete[]] are accounted for by the number of live
    arrays and the number of [double] cells they hold.  An array is owned by
    one [BandedSystem] and never aliased, so its contents travel with the
    object. *)

Record Heap : Type := { blocks : Z; cells : Z }.

Definition heap_new (h : Heap) (size : Z) : Heap :=
  {| blocks := blocks h + 1; cells := cells h + size |}.

Definition heap_delete (h : Heap) (size : Z) : Heap :=
  {| blocks := blocks h - 1; cells := cells h - size |}.

(** ** [class BandedSystem] *)

Module BandedSystem.
Section WithScalar.
Variable K : Scalar.

(** [ptrData = None] is [nullptr]. *)
Record t : Type := {
  N : Z;
  lowerBw : Z;
  upperBw : Z;
  ptrData : option (list K)
}.

Definition buf (A : t) : list K :=
  match ptrData A with
  | Some d => d
  | None => []
  end.

Definition destroy (A : t) (h : Heap) : t * Heap :=
  match ptrData A with
  | Some d =>
      ({| N := N A; lowerBw := lowerBw A; upperBw := upperBw A; ptrData := None |},
       heap_delete h (Z.of_nat (length d)))
  | None => (A, h)
  end.

Definition create (A : t) (n p q : Z) (h : Heap) : t * Heap :=
  let (A0, h0) := destroy A h in
  let actualSize := n * (p + q + 1) in
  ({| N := n; lowerBw := p; upperBw := q;
      ptrData := Some (repeat 0%K (Z.to_nat actualSize)) |},
   heap_new h0 (Z.of_nat (Z.to_nat actualSize))).

Definition reset (A : t) : t :=
  {| N := N A; lowerBw := lowerBw A; upperBw := upperBw A;
     ptrData := option_map
       (fun _ => repeat 0%K (Z.to_nat (N A * (lowerBw A + upperBw A + 1)))) (ptrData A) |}.

(** The index of [operator()(i, j)] in [ptrData]. *)
Definition offset (A : t) (i j : Z) : Z := (i - j + upperBw A) * N A + j.

(** [operator()(i, j)] read. *)
Definition get (A : t) (i j : Z) : K := zget 0%K (buf A) (offset A i j).

(** [operator()(i, j) = v]. *)
Definition put (A : t) (i j : Z) (v : K) : t :=
  {| N := N A; lowerBw := lowerBw A; upperBw := upperBw A;
     ptrData := option_map (fun d => zset d (offset A i j) v) (ptrData A) |}.

Definition factorizeLU (A : t) : t :=
  for_le 0 (N A - 2) (fun k A =>
    let iM := Z.min (k + lowerBw A) (N A - 1) in
    let cVl := get A k k in
    let A := for_le (k + 1) iM (fun i A =>
               if nonzero (get A i k) then put A i k (get A i k / cVl)%K else A) A in
    let jM := Z.min (k + upperBw A) (N A - 1) in
    for_le (k + 1) jM (fun j A =>
      let cVl := get A k j in
      if nonzero cVl then
        for_le (k + 1) iM (fun i A =>
          if nonzero (get A i k)
          then put A i j (get A i j - get A i k * cVl)%K
          else A) A
      else A) A) A.

Section Solve.
Context {R : Type} {RO : RowOps K R}.

(** [b.row(i)] *)
Definition row (b : list R) (i : Z) : R := zget row0 b i.

(** [b.row(i) -= c * b.row(j)] *)
Definition row_axpy (c : K) (b : list R) (i j : Z) : list R :=
  zset b i (row_sub (row b i) (row_scale c (row b j))).

Definition solve (A : t) (b : list R) : list R :=
  let b := for_le 0 (N A - 1) (fun j b =>
             let iM := Z.min (j + lowerBw A) (N A - 1) in
             for_le (j + 1) iM (fun i b =>
               if nonzero (get A i j) then row_axpy (get A i j) b i j else b) b) b in
  for_ge (N A - 1) 0 (fun j b =>
    let b := zset b j (row_div (row b j) (get A j j)) in
    let iM := Z.max 0 (j - upperBw A) in
    for_le iM (j - 1) (fun i b =>
      if nonzero (get A i j) then row_axpy (get A i j) b i j else b) b) b.

Definition solveAdj (A : t) (b : list R) : list R :=
  let b := for_le 0 (N A - 1) (fun j b =>
             let b := zset b j (row_div (row b j) (get A j j)) in
             let iM := Z.min (j + upperBw A) (N A - 1) in
             for_le (j + 1) iM (fun i b =>
               if nonzero (get A j i) then row_axpy (get A j i) b i j else b) b) b in
  for_ge (N A - 1) 0 (fun j b =>
    let iM := Z.max 0 (j - lowerBw A) in
    for_le iM (j - 1) (fun i b =>
      if nonzero (get A j i) then row_axpy (get A j i) b i j else b) b) b.

End Solve.

(** *** The matrix a [BandedSystem] stands for *)

(** [(i, j)] is an entry of the band. *)
Definition in_band (A : t) (i j : Z) : bool :=
  (0 <=? i) && (i <? N A) && (0 <=? j) && (j <? N A)
  && (- upperBw A <=? i - j) && (i - j <=? lowerBw A).

(** The logical entry: the stored one inside the band, [0] outside. *)
Definition mat (A : t) (i j : Z) : K :=
  if in_band A i j then get A i j else 0%K.

(** [create] has run with a size and bandwidths it accepts. *)
Definition allocated (A : t) : Prop :=
  1 <= N A /\ 0 <= lowerBw A /\ 0 <= upperBw A /\
  exists d, ptrData A = Some d /\
            Z.of_nat (length d) = N A * (lowerBw A + upperBw A + 1).

End WithScalar.
End BandedSystem.

(** ** The curve container

    [cubic_curve.hpp] is not part of the sources at hand. *)

(** [Eigen::Matrix<double, 2, 4>], by columns. *)
Record Matrix24 (K : Scalar) : Type := {
  col0 : Vector2d K;
  col1 : Vector2d K;
  col2 : Vector2d K;
  col3 : Vector2d K
}.

(** Modelled from the spec: [CubicPolynomial] of [cubic_curve.hpp], a segment
    given by its duration and its 2-by-4 coefficient matrix, columns in the
    order [d, c, b, a]. *)
Record CubicPolynomial (K : Scalar) : Type := {
  duration : K;
  coeffMat : Matrix24 K
}.

(** Modelled from the spec: [CubicCurve] of [cubic_curve.hpp], the ordered
    sequence of segments, with [clear] and [emplace_back]. *)
Definition CubicCurve (K : Scalar) : Type := list (CubicPolynomial K).

Definition clear (K : Scalar) (curve : CubicCurve K) : CubicCurve K := [].

Definition emplace_back (K : Scalar) (curve : CubicCurve K) (p : CubicPolynomial K)
  : CubicCurve K := curve ++ [p].

(** Modelled from the spec: the position of a segment at [s], 
    [a + b*s + c*s^2 + d*s^3]. *)
Definition position (K : Scalar) (p : CubicPolynomial K) (s : K) : Vector2d K :=
  let m := coeffMat p in
  vadd (vadd (vadd (col3 m) (vscale s (col2 m)))
             (vscale (s * s)%K (col1 m)))
       (vscale (s * s * s)%K (col0 m)).

(** Modelled from the spec: the first derivative of a segment at [s],
    [b + 2*c*s + 3*d*s^2]. *)
Definition velocity (K : Scalar) (p : CubicPolynomial K) (s : K) : Vector2d K :=
  let m := coeffMat p in
  vadd (vadd (col2 m) (vscale (two K * s)%K (col1 m)))
       (vscale (three K * (s * s))%K (col0 m)).

(** ** [class CubicSpline] *)

Module CubicSpline.
Section WithScalar.
Variable K : Scalar.

Record t : Type := {
  N : Z;
  headP : Vector2d K;
  tailP : Vector2d K;
  A : BandedSystem.t K;
  b : list (Vector2d K)
}.

(** [m.resize(rows, 2)] and [m.resize(2, rows)]: Eigen keeps the matrix when
    its size does not change and otherwise hands out fresh cells that are not
    initialised; [junk] is what those cells hold. *)
Definition resize (junk : nat -> Vector2d K) (m : list (Vector2d K)) (rows : Z)
  : list (Vector2d K) :=
  if Z.of_nat (length m) =? rows then m else map junk (seq 0 (Z.to_nat rows)).

(** A negative [pieceNum - 1] reaches [resize] and [new double[...]], which
    do not return: no result. *)
Definition setConditions (cs : t) (headPos tailPos : Vector2d K) (pieceNum : Z)
    (junk : nat -> Vector2d K) (h : Heap) : option (t * Heap) :=
  if pieceNum - 1 <? 0 then None
  else
    let b1 := resize junk (b cs) (pieceNum - 1) in
    let (A1, h1) := BandedSystem.create (A cs) (pieceNum - 1) 1 1 h in
    Some ({| N := pieceNum; headP := headPos; tailP := tailPos; A := A1; b := b1 |}, h1).

(** [inPs.col(i)]: a column that [inPs] does not have is no value. *)
Definition col (inPs : list (Vector2d K)) (i : Z) : option (Vector2d K) :=
  if i <? 0 then None else nth_error inPs (Z.to_nat i).

(** The waypoints [X]: head, inner points, tail. *)
Definition waypoints (cs : t) (inPs : list (Vector2d K)) (junk : nat -> Vector2d K)
  : option (list (Vector2d K)) :=
  let X := resize junk [] (N cs + 1) in
  let X := zset X 0 (headP cs) in
  let X := zset X (N cs) (tailP cs) in
  for_lt 1 (N cs) (fun i oX =>
    match oX with
    | None => None
    | Some X =>
        match col inPs (i - 1) with
        | Some p => Some (zset X i p)
        | None => None
        end
    end) (Some X).

(** The tridiagonal system and its right-hand side. *)
Definition fillSystem (cs : t) (X : list (Vector2d K))
  : BandedSystem.t K * list (Vector2d K) :=
  for_lt 0 (N cs - 1) (fun i (Ab : BandedSystem.t K * list (Vector2d K)) =>
    let (A, b) := Ab in
    let A := BandedSystem.put A i i (four K) in
    let A :=
      if i =? 0 then BandedSystem.put A i (i + 1) 1%K
      else if i =? N cs - 2 then BandedSystem.put A i (i - 1) 1%K
      else BandedSystem.put (BandedSystem.put A i (i - 1) 1%K) i (i + 1) 1%K in
    let b := zset b i (vscale (three K)
                         (vsub (zget (vzero K) X (i + 2)) (zget (vzero K) X i))) in
    (A, b)) (A cs, b cs).

(** The tangents [D]: zero at both ends, the solution in between. *)
Definition tangents (cs : t) (b : list (Vector2d K)) : list (Vector2d K) :=
  for_lt 1 (N cs) (fun i D => zset D i (zget (vzero K) b (i - 1)))
         (repeat (vzero K) (Z.to_nat (N cs + 1))).

(** The coefficient matrix of the piece [i]. *)
Definition pieceCoeffs (X D : list (Vector2d K)) (i : Z) : Matrix24 K :=
  let x := zget (vzero K) X in
  let d := zget (vzero K) D in
  {| col3 := x i;
     col2 := d i;
     col1 := vsub (vsub (vscale (three K) (vsub (x (i + 1)) (x i)))
                        (vscale (two K) (d i)))
                  (d (i + 1));
     col0 := vadd (vadd (vscale (two K) (vsub (x i) (x (i + 1)))) (d i))
                  (d (i + 1)) |}.

(** [b.block(i * 4, 0, 4, 2) = m.transpose()] *)
Definition setBlock (b : list (Vector2d K)) (i : Z) (m : Matrix24 K)
  : list (Vector2d K) :=
  let b := zset b (i * 4) (col0 m) in
  let b := zset b (i * 4 + 1) (col1 m) in
  let b := zset b (i * 4 + 2) (col2 m) in
  zset b (i * 4 + 3) (col3 m).

(** [b.block(i * 4, 0, 4, 2).transpose()] *)
Definition block (b : list (Vector2d K)) (i : Z) : Matrix24 K :=
  {| col0 := zget (vzero K) b (i * 4);
     col1 := zget (vzero K) b (i * 4 + 1);
     col2 := zget (vzero K) b (i * 4 + 2);
     col3 := zget (vzero K) b (i * 4 + 3) |}.

Definition storeCoeffs (cs : t) (X D b : list (Vector2d K)) : list (Vector2d K) :=
  for_lt 0 (N cs) (fun i b => setBlock b i (pieceCoeffs X D i)) b.

Definition setInnerPoints (cs : t) (inPs : list (Vector2d K))
    (junkX junkb : nat -> Vector2d K) : option t :=
  match waypoints cs inPs junkX with
  | None => None
  | Some X =>
      let (A0, b0) := fillSystem cs X in
      let A1 := BandedSystem.factorizeLU A0 in
      let b1 := BandedSystem.solve A1 b0 in
      let D := tangents cs b1 in
      let b2 := resize junkb b1 (N cs * 4) in
      let b3 := storeCoeffs cs X D b2 in
      Some {| N := N cs; headP := headP cs; tailP := tailP cs; A := A1; b := b3 |}
  end.

Definition getCurve (cs : t) (curve : CubicCurve K) : CubicCurve K :=
  let curve := clear curve in
  for_lt 0 (N cs) (fun i curve =>
    emplace_back curve {| duration := 1%K; coeffMat := block (b cs) i |}) curve.

Definition getStretchEnergy (cs : t) : K :=
  for_lt 0 (N cs) (fun i energy =>
    let coeffMat := block (b cs) i in
    let d := col1 coeffMat in
    let c := col0 coeffMat in
    (energy + (four K * squaredNorm c + twelve K * squaredNorm d
               + twelve K * dot d c))%K) 0%K.

Definition getCoeffs (cs : t) : list (Vector2d K) := b cs.

End WithScalar.
End CubicSpline.

(** ** Statements of the specification *)

(** The sum of [f j] over [lo <= j < hi]. *)
Definition zsum (K : Scalar) (lo hi : Z) (f : Z -> K) : K :=
  for_lt lo hi (fun j acc => (acc + f j)%K) 0%K.

Module BandedSpec.
Section WithScalar.
Variable K : Scalar.
Import BandedSystem.
Implicit Types A : BandedSystem.t K.

(** The storage mapping is one-to-one from the entries of the band onto the
    whole block of [N * (lowerBw + upperBw + 1)] cells. *)
Definition offset_bijective A : Prop :=
  (forall i j, in_band A i j = true ->
     0 <= offset A i j < N A * (lowerBw A + upperBw A + 1)) /\
  (forall i j i' j', in_band A i j = true -> in_band A i' j' = true ->
     offset A i j = offset A i' j' -> i = i' /\ j = j') /\
  (forall o, 0 <= o < N A * (lowerBw A + upperBw A + 1) ->
     exists i j, in_band A i j = true /\ offset A i j = o).

(** Strict dominance of the diagonal entry of the row [i]. *)
Definition row_dominant A (i : Z) : bool :=
  fltb (zsum K 0 (N A) (fun j => if j =? i then 0%K else fabs (mat A i j)))
       (fabs (mat A i i)).

(** [A] is strictly diagonally dominant by rows. *)
Definition diag_dominant A : bool :=
  for_lt 0 (N A) (fun i ok => ok && row_dominant A i) true.

Section Rows.
Context {R : Type} {RO : RowOps K R}.

(** The entry [(i, c)] of the dense product [A * X]. *)
Definition product A (X : list R) (i : Z) (c : nat) : K :=
  zsum K 0 (N A) (fun j => (mat A i j * row_at (row X j) c)%K).

(** The entry [(i, c)] of the dense product [transpose(A) * X]. *)
Definition productT A (X : list R) (i : Z) (c : nat) : K :=
  zsum K 0 (N A) (fun j => (mat A j i * row_at (row X j) c)%K).

(** [X] has the rows of [B] and [A * X = B]. *)
Definition solution A (X B : list R) : Prop :=
  length X = length B /\
  forall i c, 0 <= i < N A -> (c < row_width)%nat ->
    product A X i c = row_at (row B i) c.

(** [X] has the rows of [B] and [transpose(A) * X = B]. *)
Definition solutionT A (X B : list R) : Prop :=
  length X = length B /\
  forall i c, 0 <= i < N A -> (c < row_width)%nat ->
    productT A X i c = row_at (row B i) c.

End Rows.

(** The explicit transpose of [A], as a banded system of its own: the
    bandwidths change places and the entry [(i, j)] is the entry [(j, i)]
    of [A]. *)
Definition transpose A : BandedSystem.t K :=
  let T0 := {| N := N A; lowerBw := upperBw A; upperBw := lowerBw A;
               ptrData := Some (repeat 0%K
                  (Z.to_nat (N A * (upperBw A + lowerBw A + 1)))) |} in
  for_lt 0 (N A) (fun i T =>
    for_le (Z.max 0 (i - upperBw A)) (Z.min (N A - 1) (i + lowerBw A))
           (fun j T => put T i j (get A j i)) T) T0.

End WithScalar.
End BandedSpec.

Module SplineSpec.
Section WithScalar.
Variable K : Scalar.

(** The stretch energy of the specification for the waypoints [X] and the
    tangents [D]: the sum over the pieces of
    [4 |c_i|^2 + 12 |d_i|^2 + 12 c_i . d_i], with [c_i] the quadratic and
    [d_i] the cubic coefficient of the piece [i]. *)
Definition stretchEnergy (n : Z) (X D : list (Vector2d K)) : K :=
  zsum K 0 n (fun i =>
    let c := col1 (CubicSpline.pieceCoeffs X D i) in
    let d := col0 (CubicSpline.pieceCoeffs X D i) in
    (four K * squaredNorm c + twelve K * squaredNorm d + twelve K * dot c d)%K).

End WithScalar.
End SplineSpec.

Module FitSpec.
Section WithScalar.
Variable K : Scalar.

(** [setConditions] followed by [setInnerPoints] on the same object. *)
Definition fit (cs : CubicSpline.t K) (headPos tailPos : Vector2d K) (pieceNum : Z)
    (inPs : list (Vector2d K)) (junk junkX junkb : nat -> Vector2d K) (h : Heap)
  : option (CubicSpline.t K) :=
  match CubicSpline.setConditions cs headPos tailPos pieceNum junk h with
  | Some (cs1, _) => CubicSpline.setInnerPoints cs1 inPs junkX junkb
  | None => None
  end.

(** The tangents that [setInnerPoints] solves for, from the waypoints [X]. *)
Definition fitTangents (cs : CubicSpline.t K) (X : list (Vector2d K))
  : list (Vector2d K) :=
  let (A0, b0) := CubicSpline.fillSystem cs X in
  CubicSpline.tangents cs (BandedSystem.solve (BandedSystem.factorizeLU A0) b0).

End WithScalar.
End FitSpec.

Module FillSpec.
Section WithScalar.
Variable K : Scalar.

(** The matrix part of [fillSystem]: the writes to [A] of its loop. *)
Definition fillMatrix (n : Z) (A : BandedSystem.t K) : BandedSystem.t K :=
  for_lt 0 (n - 1) (fun i A =>
    let A := BandedSystem.put A i i (four K) in
    if i =? 0 then BandedSystem.put A i (i + 1) 1%K
    else if i =? n - 2 then BandedSystem.put A i (i - 1) 1%K
    else BandedSystem.put (BandedSystem.put A i (i - 1) 1%K) i (i + 1) 1%K) A.

End WithScalar.
End FillSpec.

Module ConfSpec.
Section WithScalar.
Variable K : Scalar.

(** The object that [setConditions] leaves when the rows of the right-hand
    side are [b]: the matrix is a fresh zero tridiagonal system of size
    [pieceNum - 1]. *)
Definition configured (headPos tailPos : Vector2d K) (pieceNum : Z)
    (b : list (Vector2d K)) : CubicSpline.t K :=
  {| CubicSpline.N := pieceNum;
     CubicSpline.headP := headPos;
     CubicSpline.tailP := tailPos;
     CubicSpline.A :=
       {| BandedSystem.N := pieceNum - 1;
          BandedSystem.lowerBw := 1;
          BandedSystem.upperBw := 1;
          BandedSystem.ptrData :=
            Some (repeat 0%K (Z.to_nat ((pieceNum - 1) * (1 + 1 + 1)))) |};
     CubicSpline.b := b |}.

End WithScalar.
End ConfSpec.

Module ErrorSpec.
Section WithScalar.
Variable K : Scalar.

(** Every dimension mismatch is reported: a fit whose inner point count is
    not [pieceNum - 1], or whose [pieceNum] is below 2, gives no result. *)
Definition mismatch_reported : Prop :=
  forall (cs : CubicSpline.t K) (headPos tailPos : Vector2d K) (pieceNum : Z)
         (inPs : list (Vector2d K)) (junk junkX junkb : nat -> Vector2d K) (h : Heap),
    Z.of_nat (length inPs) <> pieceNum - 1 \/ pieceNum < 2 ->
    FitSpec.fit cs headPos tailPos pieceNum inPs junk junkX junkb h = None.

End WithScalar.
End ErrorSpec.

Module ColinearSpec.
Section WithScalar.
Variable K : Scalar.

(** The result [o] of a fit with [n] pieces is a straight line: every
    quadratic coefficient [c_i] and every cubic coefficient [d_i] is the zero
    vector, and [getStretchEnergy] returns 0. *)
Definition straight (o : option (CubicSpline.t K)) (n : Z) : Prop :=
  exists cs, o = Some cs /\
    (forall i, 0 <= i < n ->
       col1 (CubicSpline.block (CubicSpline.b cs) i) = vzero K /\
       col0 (CubicSpline.block (CubicSpline.b cs) i) = vzero K) /\
    CubicSpline.getStretchEnergy cs = 0%K.

End WithScalar.
End ColinearSpec.

(** ** Concrete runs over the rationals *)

Module Run.

Definition pt (x y : Z) : Vector2d QcScalar := (Q2Qc (inject_Z x), Q2Qc (inject_Z y)).

(** An object as the default constructor leaves it: no storage, no rows. *)
Definition fresh : CubicSpline.t QcScalar :=
  {| CubicSpline.N := 0;
     CubicSpline.headP := pt 0 0;
     CubicSpline.tailP := pt 0 0;
     CubicSpline.A :=
       {| BandedSystem.N := 0; BandedSystem.lowerBw := 0; BandedSystem.upperBw := 0;
          BandedSystem.ptrData := None |};
     CubicSpline.b := [] |}.

Definition junk0 : nat -> Vector2d QcScalar := fun _ => pt 0 0.

Definition heap0 : Heap := {| blocks := 0; cells := 0 |}.

Definition fit0 (headPos tailPos : Vector2d QcScalar) (pieceNum : Z)
    (inPs : list (Vector2d QcScalar)) : option (CubicSpline.t QcScalar) :=
  FitSpec.fit fresh headPos tailPos pieceNum inPs junk0 junk0 junk0 heap0.

(** A vector as a pair of fractions in lowest terms. *)
Definition view (v : Vector2d QcScalar) : Q * Q := (this (fst v), this (snd v)).

(** The quadratic coefficients [c_i] and the cubic coefficients [d_i] that a
    fit with [n] pieces has stored. *)
Definition quadratic (cs : CubicSpline.t QcScalar) (n : nat) : list (Q * Q) :=
  map (fun i => view (col1 (CubicSpline.block (CubicSpline.b cs) (Z.of_nat i))))
      (seq 0 n).

Definition cubic (cs : CubicSpline.t QcScalar) (n : nat) : list (Q * Q) :=
  map (fun i => view (col0 (CubicSpline.block (CubicSpline.b cs) (Z.of_nat i))))
      (seq 0 n).

(** The coefficients and the stretch energy that a fit has stored. *)
Definition summary (n : nat) (o : option (CubicSpline.t QcScalar))
  : option (list (Q * Q) * list (Q * Q) * Q) :=
  option_map (fun cs => (quadratic cs n, cubic cs n,
                         this (CubicSpline.getStretchEnergy cs))) o.

(** The colinear, evenly spaced waypoints of the two examples. *)
Definition line3 : option (CubicSpline.t QcScalar) :=
  fit0 (pt 0 0) (pt 3 0) 3 [pt 1 0; pt 2 0].

Definition line2 : option (CubicSpline.t QcScalar) :=
  fit0 (pt 0 0) (pt 2 0) 2 [pt 1 0].

(** The object after [setConditions] with 3 pieces, and its heap. *)
Definition conf3 : CubicSpline.t QcScalar :=
  ConfSpec.configured (pt 0 0) (pt 3 0) 3 (CubicSpline.resize junk0 [] 2).

Definition heap3 : Heap := {| blocks := 1; cells := 6 |}.

(** The same object configured again, with 2 pieces, and its heap. *)
Definition conf2 : CubicSpline.t QcScalar :=
  ConfSpec.configured (pt 0 0) (pt 2 0) 2
    (CubicSpline.resize junk0 (CubicSpline.b conf3) 1).

Definition heap2 : Heap := {| blocks := 1; cells := 3 |}.

(** The result of the 3-piece example. *)
Definition fitted3 : CubicSpline.t QcScalar :=
  match line3 with
  | Some cs => cs
  | None => fresh
  end.

(** The matrix of the 3-piece example, 4 on the diagonal and 1 beside it,
    and its right-hand side. *)
Definition tri2 : BandedSystem.t QcScalar :=
  FillSpec.fillMatrix 3 (CubicSpline.A conf3).

Definition rhs2 : list (Vector2d QcScalar) := [pt 6 0; pt 6 0].

(** A zero system of size 2 with both bandwidths 1, as [create] leaves it. *)
Definition band211 : BandedSystem.t QcScalar :=
  fst (BandedSystem.create (CubicSpline.A fresh) 2 1 1 heap0).

End Run.

(** ** The loops of the solver, one at a time *)

Module LUSpec.
Section WithScalar.
Variable K : Scalar.
Import BandedSystem.

(** The body of the outer loop of [factorizeLU], for the pivot [k]. *)
Definition factorStep (k : Z) (A : BandedSystem.t K) : BandedSystem.t K :=
  let iM := Z.min (k + lowerBw A) (N A - 1) in
  let cVl := get A k k in
  let A := for_le (k + 1) iM (fun i A =>
             if nonzero (get A i k) then put A i k (get A i k / cVl)%K else A) A in
  let jM := Z.min (k + upperBw A) (N A - 1) in
  for_le (k + 1) jM (fun j A =>
    let cVl := get A k j in
    if nonzero cVl then
      for_le (k + 1) iM (fun i A =>
        if nonzero (get A i k)
        then put A i j (get A i j - get A i k * cVl)%K
        else A) A
    else A) A.

(** What [factorStep] does to the matrix read as a function of [(i, j)]:
    below the pivot the column [k] is divided by the pivot, and the rows and
    columns after [k] lose the product of their multiplier and of the row
    of the pivot. *)
Definition elim (k : Z) (S : Z -> Z -> K) (i j : Z) : K :=
  if i <=? k then S i j
  else if j <? k then S i j
  else if j =? k then (S i k / S k k)%K
  else (S i j - S i k / S k k * S k j)%K.

(** [A'] has the size and the bandwidths of [A], and storage for them. *)
Definition same_shape (A A' : BandedSystem.t K) : Prop :=
  N A' = N A /\ lowerBw A' = lowerBw A /\ upperBw A' = upperBw A /\ allocated A'.

(** The unit lower factor and the upper factor that a factorized system
    holds. *)
Definition lower (S : Z -> Z -> K) (i m : Z) : K :=
  if m <? i then S i m else if m =? i then 1%K else 0%K.

Definition upper (S : Z -> Z -> K) (m j : Z) : K :=
  if m <=? j then S m j else 0%K.

Section Sweeps.
Context {R : Type} {RO : RowOps K R}.

(** The entry [(i, c)] of a right-hand side. *)
Definition cell (b : list R) (i : Z) (c : nat) : K := row_at (row b i) c.

(** [for (i = lo; i <= hi; ++i) if (coef(i) != 0.0) b.row(i) -= coef(i) * b.row(j)] *)
Definition column_op (coef : Z -> K) (j lo hi : Z) (b : list R) : list R :=
  for_le lo hi (fun i b =>
    if nonzero (coef i) then row_axpy (coef i) b i j else b) b.

(** [b.row(j) /= d(j)], when the sweep divides. *)
Definition divide_row (dg : option (Z -> K)) (j : Z) (b : list R) : list R :=
  match dg with
  | Some d => zset b j (row_div (row b j) (d j))
  | None => b
  end.

Definition diag_of (dg : option (Z -> K)) (j : Z) : K :=
  match dg with
  | Some d => d j
  | None => 1%K
  end.

(** The sweep over the columns [0 .. n - 1] that updates the rows below. *)
Definition up_sweep (n w : Z) (coef : Z -> Z -> K) (dg : option (Z -> K))
    (b : list R) : list R :=
  for_le 0 (n - 1) (fun j b =>
    let b := divide_row dg j b in
    let iM := Z.min (j + w) (n - 1) in
    column_op (fun i => coef i j) j (j + 1) iM b) b.

(** The sweep over the columns [n - 1 .. 0] that updates the rows above. *)
Definition down_sweep (n w : Z) (coef : Z -> Z -> K) (dg : option (Z -> K))
    (b : list R) : list R :=
  for_ge (n - 1) 0 (fun j b =>
    let b := divide_row dg j b in
    let iM := Z.max 0 (j - w) in
    column_op (fun i => coef i j) j iM (j - 1) b) b.

End Sweeps.

(** The diagonal entry of the row [i] dominates the other entries of the
    row from the column [k] on. *)
Definition dominant_from (n k : Z) (S : Z -> Z -> K) : Prop :=
  forall i, k <= i < n ->
    (zsum K k n (fun j => if j =? i then 0%K else fabs (S i j)) < fabs (S i i))%K.

(** The diagonal dominates by rows or by columns. *)
Definition dominated (n k : Z) (S : Z -> Z -> K) : Prop :=
  dominant_from n k S \/ dominant_from n k (fun i j => S j i).

(** After the pivots before [k], [S] holds the factors of [a] in the rows
    and the columns before [k], and what is left of [a] after them. *)
Definition lu_upto (n k : Z) (a S : Z -> Z -> K) : Prop :=
  forall i j, 0 <= i < n -> 0 <= j < n ->
    a i j = (zsum K 0 (Z.min (Z.min i j) k) (fun m => S i m * S m j)
             + (if (j <? k) && (j <? i) then S i j * S j j else S i j))%K.

End WithScalar.

Arguments diag_of {K} dg j.
Arguments dominated {K} n k S.
Arguments lu_upto {K} n k a S.
Arguments elim {K} k S i j.
Arguments lower {K} S i m.
Arguments upper {K} S m j.
Arguments dominant_from {K} n k S.

End LUSpec.

(** ** The destructor, and the terms of the further statements *)

Module SplineExtra.
Section WithScalar.
Variable K : Scalar.

(** [~CubicSpline() { A.destroy(); }], on the free store. *)
Definition destructor (cs : CubicSpline.t K) (h : Heap) : Heap :=
  snd (BandedSystem.destroy (CubicSpline.A cs) h).

(** The second derivative of a piece at [s], as the comment of
    [getStretchEnergy] has it: [p''(s) = 2 * ci + 6 * di * s]. *)
Definition acceleration (p : CubicPolynomial K) (s : K) : Vector2d K :=
  let m := coeffMat p in
  vadd (vscale (two K) (col1 m)) (vscale (two K * three K * s)%K (col0 m)).

(** The waypoint [i] of a fit, as the comment of [setInnerPoints] has it:
    [x(0) = headP], [x(N) = tailP], and the column [i - 1] of [inPs] in
    between. *)
Definition waypoint (headPos tailPos : Vector2d K) (n : Z)
    (inPs : list (Vector2d K)) (i : Z) : Vector2d K :=
  if i =? 0 then headPos
  else if i =? n then tailPos
  else zget (vzero K) inPs (i - 1).

(** The matrix of the tangent equations for [n] pieces, of size [n - 1]:
    4 on the diagonal and 1 beside it; for 2 pieces the single entry is 1.
    That the loop of [setInnerPoints] leaves this matrix is proved below
    ([fillMatrix_mat]). *)
Definition splineMatrix (n : Z) (i j : Z) : K :=
  if (0 <=? i) && (i <? n - 1) && (0 <=? j) && (j <? n - 1) then
    if i =? j then (if n =? 2 then 1%K else four K)
    else if (i - j =? 1) || (j - i =? 1) then 1%K
    else 0%K
  else 0%K.

End WithScalar.

Arguments splineMatrix K n i j : clear implicits.

End SplineExtra.

(** * Properties *)

Unset Implicit Arguments.

(** ** Arrays and loops *)

Section Arrays.
Variable T : Type.

Lemma upd_length (n : nat) (v : T) (l : list T) : length (upd n v l) = length l.
Proof.
  revert n; induction l as [| x r IH]; intros [| n]; simpl; auto.
Qed.

Lemma nth_upd_same (d : T) (n : nat) (v : T) (l : list T) :
  (n < length l)%nat -> nth n (upd n v l) d = v.
Proof.
  revert n; induction l as [| x r IH]; intros [| n] H; simpl in *; try lia; auto.
  apply IH; lia.
Qed.

Lemma nth_upd_other (d : T) (n m : nat) (v : T) (l : list T) :
  n <> m -> nth m (upd n v l) d = nth m l d.
Proof.
  revert n m; induction l as [| x r IH]; intros [| n] [| m] H; simpl; auto; try lia.
Qed.

Lemma zset_length (l : list T) (i : Z) (v : T) : length (zset l i v) = length l.
Proof.
  unfold zset. destruct (i <? 0); auto using upd_length.
Qed.

Lemma zget_zset_same (d : T) (l : list T) (i : Z) (v : T) :
  0 <= i < Z.of_nat (length l) -> zget d (zset l i v) i = v.
Proof.
  intros H. unfold zget, zset.
  destruct (Z.ltb_spec i 0); [lia |]. apply nth_upd_same. lia.
Qed.

Lemma zget_zset_other (d : T) (l : list T) (i j : Z) (v : T) :
  i <> j -> zget d (zset l i v) j = zget d l j.
Proof.
  intros H. unfold zget, zset.
  destruct (Z.ltb_spec j 0); auto.
  destruct (Z.ltb_spec i 0); auto.
  apply nth_upd_other. lia.
Qed.

Lemma zget_zset (d : T) (l : list T) (i j : Z) (v : T) :
  0 <= i < Z.of_nat (length l) ->
  zget d (zset l i v) j = if j =? i then v else zget d l j.
Proof.
  intros H. destruct (Z.eqb_spec j i) as [-> | Hne].
  - now apply zget_zset_same.
  - apply zget_zset_other; auto.
Qed.

Lemma zget_ext (d : T) (l l' : list T) :
  length l = length l' ->
  (forall i, 0 <= i < Z.of_nat (length l) -> zget d l i = zget d l' i) -> l = l'.
Proof.
  revert l'; induction l as [| x r IH]; intros [| y r'] Hlen H; simpl in *; try lia; auto.
  f_equal.
  - exact (H 0 ltac:(lia)).
  - apply IH; [lia |]. intros i Hi.
    specialize (H (i + 1) ltac:(lia)). unfold zget in *.
    destruct (Z.ltb_spec (i + 1) 0); [lia |]. destruct (Z.ltb_spec i 0); [lia |].
    replace (Z.to_nat (i + 1)) with (S (Z.to_nat i)) in H by lia. exact H.
Qed.

End Arrays.

Section Loops.
Variable S : Type.
Variable body : Z -> S -> S.

Lemma iter_up_last (n : nat) (k : Z) (s : S) :
  iter_up (Datatypes.S n) k body s = body (k + Z.of_nat n) (iter_up n k body s).
Proof.
  revert k s; induction n as [| n IH]; intros k s.
  - simpl. now rewrite Z.add_0_r.
  - change (iter_up (Datatypes.S (Datatypes.S n)) k body s)
      with (iter_up (Datatypes.S n) (k + 1) body (body k s)).
    rewrite IH. simpl. f_equal. lia.
Qed.

Lemma for_le_none (lo hi : Z) (s : S) : hi < lo -> for_le lo hi body s = s.
Proof.
  intros H. unfold for_le. now replace (Z.to_nat (hi + 1 - lo)) with 0%nat by lia.
Qed.

Lemma for_le_last (lo hi : Z) (s : S) :
  lo <= hi -> for_le lo hi body s = body hi (for_le lo (hi - 1) body s).
Proof.
  intros H. unfold for_le.
  replace (Z.to_nat (hi + 1 - lo)) with (Datatypes.S (Z.to_nat (hi - 1 + 1 - lo))) by lia.
  rewrite iter_up_last. f_equal. lia.
Qed.

(** The invariant rule: [P k s] is the invariant before the iteration [k]. *)
Lemma for_le_inv (P : Z -> S -> Prop) (lo hi : Z) (s : S) :
  lo <= hi + 1 ->
  P lo s ->
  (forall k s, lo <= k <= hi -> P k s -> P (k + 1) (body k s)) ->
  P (hi + 1) (for_le lo hi body s).
Proof.
  intros Hle H0 Hstep.
  assert (G : forall n : nat, lo + Z.of_nat n <= hi + 1 ->
              P (lo + Z.of_nat n) (for_le lo (lo + Z.of_nat n - 1) body s)).
  { induction n as [| n IH]; intros Hn.
    - rewrite for_le_none by lia. now rewrite Z.add_0_r.
    - rewrite for_le_last by lia.
      replace (lo + Z.of_nat (Datatypes.S n)) with (lo + Z.of_nat n + 1) by lia.
      replace (lo + Z.of_nat n + 1 - 1) with (lo + Z.of_nat n) by lia.
      apply Hstep; [lia |].
      replace (lo + Z.of_nat n - 1 + 1 - 1) with (lo + Z.of_nat n - 1) by lia.
      apply IH. lia. }
  specialize (G (Z.to_nat (hi + 1 - lo)) ltac:(lia)).
  replace (lo + Z.of_nat (Z.to_nat (hi + 1 - lo))) with (hi + 1) in G by lia.
  now replace (hi + 1 - 1) with hi in G by lia.
Qed.

Lemma for_lt_le (lo hi : Z) (s : S) : for_lt lo hi body s = for_le lo (hi - 1) body s.
Proof.
  unfold for_lt, for_le. f_equal. lia.
Qed.

Lemma for_lt_inv (P : Z -> S -> Prop) (lo hi : Z) (s : S) :
  lo <= hi ->
  P lo s ->
  (forall k s, lo <= k < hi -> P k s -> P (k + 1) (body k s)) ->
  P hi (for_lt lo hi body s).
Proof.
  intros Hle H0 Hstep. rewrite for_lt_le.
  replace hi with (hi - 1 + 1) at 1 by lia.
  apply for_le_inv; auto; try lia.
  intros k s' Hk. apply Hstep. lia.
Qed.

Lemma for_lt_none (lo hi : Z) (s : S) : hi <= lo -> for_lt lo hi body s = s.
Proof.
  intros H. rewrite for_lt_le. apply for_le_none. lia.
Qed.

Lemma for_lt_last (lo hi : Z) (s : S) :
  lo < hi -> for_lt lo hi body s = body (hi - 1) (for_lt lo (hi - 1) body s).
Proof.
  intros H. rewrite !for_lt_le. apply for_le_last. lia.
Qed.

Lemma for_ge_none (hi lo : Z) (s : S) : hi < lo -> for_ge hi lo body s = s.
Proof.
  intros H. unfold for_ge. now replace (Z.to_nat (hi + 1 - lo)) with 0%nat by lia.
Qed.

Lemma for_ge_first (hi lo : Z) (s : S) :
  lo <= hi -> for_ge hi lo body s = for_ge (hi - 1) lo body (body hi s).
Proof.
  intros H. unfold for_ge.
  replace (Z.to_nat (hi + 1 - lo)) with (Datatypes.S (Z.to_nat (hi - 1 + 1 - lo))) by lia.
  reflexivity.
Qed.

(** The invariant rule of the downward loop. *)
Lemma for_ge_inv (P : Z -> S -> Prop) (hi lo : Z) (s : S) :
  lo - 1 <= hi ->
  P hi s ->
  (forall k s, lo <= k <= hi -> P k s -> P (k - 1) (body k s)) ->
  P (lo - 1) (for_ge hi lo body s).
Proof.
  intros Hle H0 Hstep.
  assert (G : forall (n : nat) (h : Z) (s : S),
              Z.of_nat n = h + 1 - lo -> h <= hi -> P h s ->
              P (lo - 1) (for_ge h lo body s)).
  { induction n as [| n IH]; intros h s' Hn Hh Hp.
    - rewrite for_ge_none by lia. now replace (lo - 1) with h by lia.
    - rewrite for_ge_first by lia. apply IH; try lia.
      apply Hstep; [lia | exact Hp]. }
  apply (G (Z.to_nat (hi + 1 - lo)) hi s); auto; lia.
Qed.

End Loops.

(** ** Case analysis on the comparisons of indices *)

Ltac zbool :=
  repeat match goal with
         | |- context [?a <? ?b] => destruct (Z.ltb_spec a b)
         | |- context [?a <=? ?b] => destruct (Z.leb_spec a b)
         | |- context [?a =? ?b] => destruct (Z.eqb_spec a b)
         end;
  cbn [andb orb negb]; try lia; try reflexivity; try congruence; try (exfalso; lia).

(** ** The storage mapping of the band *)

Section Offsets.
Variable K : Scalar.
Implicit Types A : BandedSystem.t K.
Import BandedSystem.

Lemma in_band_spec A i j :
  in_band A i j = true <->
  0 <= i < N A /\ 0 <= j < N A /\ - upperBw A <= i - j <= lowerBw A.
Proof.
  unfold in_band. rewrite !andb_true_iff, !Z.leb_le, !Z.ltb_lt. lia.
Qed.

Lemma offset_div_mod A i j :
  0 <= j < N A -> offset A i j / N A = i - j + upperBw A /\ offset A i j mod N A = j.
Proof.
  intros Hj. unfold offset. split.
  - symmetry. apply Z.div_unique with j; lia.
  - symmetry. apply Z.mod_unique with (i - j + upperBw A); lia.
Qed.

Lemma offset_range A i j :
  in_band A i j = true ->
  0 <= offset A i j < N A * (lowerBw A + upperBw A + 1).
Proof.
  rewrite in_band_spec. unfold offset. intros H. nia.
Qed.

Lemma offset_inj A i j i' j' :
  0 <= j < N A -> 0 <= j' < N A ->
  offset A i j = offset A i' j' -> i = i' /\ j = j'.
Proof.
  intros Hj Hj' He.
  destruct (offset_div_mod A i j Hj) as [Hd Hm].
  destruct (offset_div_mod A i' j' Hj') as [Hd' Hm'].
  rewrite He in Hd, Hm. lia.
Qed.

(** C4 (amended): for a size [N >= 1] and bandwidths [p, q >= 0], the storage
    mapping [(i, j) |-> (i - j + upperBw) * N + j] sends every entry of the
    band to a cell of the block [0 .. N * (p + q + 1) - 1], sends two
    different entries of the band to two different cells, and reaches
    exactly the cells [o] whose row [o / N] and column [o mod N] of the
    block satisfy [0 <= o mod N + o / N - q < N]: the cells of the corners
    of the block belong to no entry. *)
Theorem storage_mapping_injective A :
  1 <= N A -> 0 <= lowerBw A -> 0 <= upperBw A ->
  (forall i j, in_band A i j = true ->
     0 <= offset A i j < N A * (lowerBw A + upperBw A + 1)) /\
  (forall i j i' j', in_band A i j = true -> in_band A i' j' = true ->
     offset A i j = offset A i' j' -> i = i' /\ j = j') /\
  (forall o, 0 <= o < N A * (lowerBw A + upperBw A + 1) ->
     ((exists i j, in_band A i j = true /\ offset A i j = o) <->
      0 <= o mod N A + o / N A - upperBw A < N A)).
Proof.
  intros HN Hp Hq. split; [| split].
  - intros i j. apply offset_range.
  - intros i j i' j' H H'. apply in_band_spec in H, H'. apply offset_inj; lia.
  - intros o Ho. split.
    + intros (i & j & Hb & <-). apply in_band_spec in Hb.
      destruct (offset_div_mod A i j) as [Hd Hm]; [lia |]. lia.
    + intros Hr. exists (o mod N A + o / N A - upperBw A), (o mod N A).
      pose proof (Z.mod_pos_bound o (N A) ltac:(lia)) as Hm.
      pose proof (Z.div_mod o (N A) ltac:(lia)) as Hdm.
      assert (Hd : 0 <= o / N A < lowerBw A + upperBw A + 1).
      { split; [apply Z.div_pos; lia |]. apply Z.div_lt_upper_bound; lia. }
      split.
      * apply in_band_spec. lia.
      * unfold offset. lia.
Qed.

End Offsets.

(** ** Loops that keep a property *)

Section LoopsKeep.
Variable S : Type.
Variable body : Z -> S -> S.
Variable P : S -> Prop.

Lemma for_le_keep (lo hi : Z) (s : S) :
  P s -> (forall k s, lo <= k <= hi -> P s -> P (body k s)) ->
  P (for_le lo hi body s).
Proof.
  intros H0 Hstep. destruct (Z_lt_le_dec hi lo) as [Hlt | Hle].
  - now rewrite for_le_none.
  - apply (for_le_inv _ body (fun _ s => P s)); auto; lia.
Qed.

Lemma for_ge_keep (hi lo : Z) (s : S) :
  P s -> (forall k s, lo <= k <= hi -> P s -> P (body k s)) ->
  P (for_ge hi lo body s).
Proof.
  intros H0 Hstep. destruct (Z_lt_le_dec hi lo) as [Hlt | Hle].
  - now rewrite for_ge_none.
  - apply (for_ge_inv _ body (fun _ s => P s)); auto; lia.
Qed.

End LoopsKeep.

(** ** The shape of what the solver touches *)

Section Shapes.
Variable K : Scalar.
Import BandedSystem.
Implicit Types A : BandedSystem.t K.

Lemma create_fst A n p q h :
  fst (create A n p q h) =
  {| N := n; lowerBw := p; upperBw := q;
     ptrData := Some (repeat 0%K (Z.to_nat (n * (p + q + 1)))) |}.
Proof.
  unfold create. destruct (destroy A h). reflexivity.
Qed.

Lemma create_snd A n p q h :
  snd (create A n p q h) =
  heap_new (snd (destroy A h)) (Z.of_nat (Z.to_nat (n * (p + q + 1)))).
Proof.
  unfold create. destruct (destroy A h). reflexivity.
Qed.

Context {R : Type} {RO : RowOps K R}.

Lemma row_axpy_length c (b : list R) i j : length (row_axpy c b i j) = length b.
Proof.
  unfold row_axpy. apply zset_length.
Qed.

Lemma column_sweep_length (coef : Z -> K) lo hi j (b : list R) :
  length (for_le lo hi (fun i b =>
            if nonzero (coef i) then row_axpy (coef i) b i j else b) b) = length b.
Proof.
  apply (for_le_keep _ _ (fun b' : list R => length b' = length b)); auto.
  intros k b' _ Hb. destruct (nonzero (coef k)); auto.
  now rewrite row_axpy_length.
Qed.

Lemma solve_length A (b : list R) : length (solve A b) = length b.
Proof.
  unfold solve.
  apply (for_ge_keep _ _ (fun b' : list R => length b' = length b)).
  - apply (for_le_keep _ _ (fun b' : list R => length b' = length b)); auto.
    intros j b' _ Hb. now rewrite column_sweep_length.
  - intros j b' _ Hb. now rewrite column_sweep_length, zset_length.
Qed.

Lemma solveAdj_length A (b : list R) : length (solveAdj A b) = length b.
Proof.
  unfold solveAdj.
  apply (for_ge_keep _ _ (fun b' : list R => length b' = length b)).
  - apply (for_le_keep _ _ (fun b' : list R => length b' = length b)); auto.
    intros j b' _ Hb. now rewrite column_sweep_length, zset_length.
  - intros j b' _ Hb. now rewrite column_sweep_length.
Qed.

End Shapes.

(** ** The pieces of a fit *)

Section SplineStages.
Variable K : Scalar.
Add Field Kfield_stages : (F_field K).
Import CubicSpline.
Implicit Types cs : CubicSpline.t K.
Implicit Types X D b inPs : list (Vector2d K).

Abbreviation vget := (zget (vzero K)).

Lemma resize_length junk b rows :
  0 <= rows -> Z.of_nat (length (resize junk b rows)) = rows.
Proof.
  intros H. unfold resize. destruct (Z.eqb_spec (Z.of_nat (length b)) rows); auto.
  rewrite length_map, length_seq. lia.
Qed.

Lemma col_some inPs i :
  0 <= i < Z.of_nat (length inPs) -> col inPs i = Some (vget inPs i).
Proof.
  intros H. unfold col, zget. destruct (Z.ltb_spec i 0); [lia |].
  apply nth_error_nth'. lia.
Qed.

Lemma col_none inPs i : Z.of_nat (length inPs) <= i -> col inPs i = None.
Proof.
  intros H. unfold col. destruct (Z.ltb_spec i 0); [lia |].
  apply nth_error_None. lia.
Qed.

(** The waypoints, when [inPs] has a column for every inner point. *)
Lemma waypoints_some cs inPs junk :
  1 <= N cs -> N cs - 1 <= Z.of_nat (length inPs) ->
  exists X, waypoints cs inPs junk = Some X /\
    Z.of_nat (length X) = N cs + 1 /\
    vget X 0 = headP cs /\ vget X (N cs) = tailP cs /\
    forall i, 1 <= i < N cs -> vget X i = vget inPs (i - 1).
Proof.
  intros HN Hlen. unfold waypoints.
  set (X0 := zset (zset (resize junk [] (N cs + 1)) 0 (headP cs)) (N cs) (tailP cs)).
  assert (L0 : Z.of_nat (length X0) = N cs + 1).
  { unfold X0. rewrite !zset_length. apply resize_length. lia. }
  apply (for_lt_inv _ _ (fun k oX => exists X, oX = Some X /\
           Z.of_nat (length X) = N cs + 1 /\
           vget X 0 = headP cs /\ vget X (N cs) = tailP cs /\
           forall i, 1 <= i < k -> vget X i = vget inPs (i - 1))); [lia | |].
  - exists X0. repeat split; auto; try lia.
    + unfold X0. rewrite zget_zset_other by lia. apply zget_zset_same.
      rewrite resize_length; lia.
    + unfold X0. apply zget_zset_same. rewrite zset_length, resize_length; lia.
  - intros k oX Hk (X & -> & HL & H0 & Hn & Hi).
    rewrite col_some by lia. eexists; split; [reflexivity |].
    rewrite zset_length. repeat split; auto.
    + rewrite zget_zset_other by lia. exact H0.
    + rewrite zget_zset_other by lia. exact Hn.
    + intros i Hik. rewrite zget_zset by lia.
      destruct (Z.eqb_spec i k) as [-> | Hne]; auto. apply Hi. lia.
Qed.

(** A missing column stops the loop of [waypoints]. *)
Lemma waypoints_none cs inPs junk :
  1 <= N cs -> Z.of_nat (length inPs) < N cs - 1 ->
  waypoints cs inPs junk = None.
Proof.
  intros HN Hlen. unfold waypoints.
  set (X0 := zset _ _ _). set (bd := fun (i : Z) (oX : option (list (Vector2d K))) => _).
  assert (G : forall k, Z.of_nat (length inPs) + 1 < k <= N cs ->
               for_lt 1 k bd (Some X0) = None).
  { intros k Hk.
    apply (for_lt_inv _ _ (fun j oX => Z.of_nat (length inPs) + 1 < j -> oX = None));
      try lia.
    intros j oX Hj _ Hlt. unfold bd. destruct oX as [X |]; auto.
    rewrite col_none by lia. reflexivity. }
  apply G. lia.
Qed.

(** Two runs of [waypoints] agree when the inner points they read agree. *)
Lemma waypoints_agree cs cs' inPs inPs' junk junk' X :
  1 <= N cs -> N cs = N cs' -> headP cs = headP cs' -> tailP cs = tailP cs' ->
  N cs - 1 <= Z.of_nat (length inPs) -> N cs - 1 <= Z.of_nat (length inPs') ->
  (forall i, 0 <= i < N cs - 1 -> vget inPs i = vget inPs' i) ->
  waypoints cs inPs junk = Some X -> waypoints cs' inPs' junk' = Some X.
Proof.
  intros HN EN Eh Et Hl Hl' Hagree HX.
  destruct (waypoints_some cs inPs junk HN Hl) as (X1 & E1 & L1 & H1 & T1 & I1).
  destruct (waypoints_some cs' inPs' junk' ltac:(lia) ltac:(lia))
    as (X2 & E2 & L2 & H2 & T2 & I2).
  rewrite E2. rewrite E1 in HX. injection HX as <-. f_equal.
  apply (zget_ext _ (vzero K)); [lia |].
  intros i Hi.
  destruct (Z.eq_dec i 0) as [-> | Hi0]; [congruence |].
  destruct (Z.eq_dec i (N cs)) as [-> | HiN]; [rewrite EN at 1; congruence |].
  rewrite I1, I2 by lia. symmetry. apply Hagree. lia.
Qed.

Lemma fillSystem_spec cs X :
  Z.of_nat (length (b cs)) = N cs - 1 ->
  exists b', fillSystem cs X = (FillSpec.fillMatrix (N cs) (A cs), b') /\
    length b' = length (b cs) /\
    forall i, 0 <= i < N cs - 1 ->
      vget b' i = vscale (three K) (vsub (vget X (i + 2)) (vget X i)).
Proof.
  intros HL. unfold fillSystem, FillSpec.fillMatrix.
  destruct (Z_lt_le_dec (N cs - 1) 0) as [Hneg | Hpos].
  { rewrite !for_lt_none by lia. exists (b cs). repeat split; auto. intros; lia. }
  set (bdA := fun (i : Z) (A : BandedSystem.t K) => _).
  apply (for_lt_inv _ _ (fun k s => exists b', s = (for_lt 0 k bdA (A cs), b') /\
           length b' = length (b cs) /\
           forall i, 0 <= i < k ->
             vget b' i = vscale (three K) (vsub (vget X (i + 2)) (vget X i))));
    [lia | |].
  - exists (b cs). rewrite for_lt_none by lia. repeat split; auto. intros; lia.
  - intros k s Hk (b' & -> & Hlen & Hi).
    exists (zset b' k (vscale (three K) (vsub (vget X (k + 2)) (vget X k)))).
    split; [| split].
    + rewrite (for_lt_last _ bdA 0 (k + 1)) by lia.
      replace (k + 1 - 1) with k by lia. unfold bdA. cbv beta iota zeta.
      destruct (Z.eqb_spec k 0); [reflexivity |].
      destruct (Z.eqb_spec k (N cs - 2)); reflexivity.
    + now rewrite zset_length.
    + intros i Hik. rewrite zget_zset by lia.
      destruct (Z.eqb_spec i k) as [-> | Hne]; auto. apply Hi. lia.
Qed.

Lemma tangents_spec cs b :
  0 <= N cs ->
  let D := tangents cs b in
  Z.of_nat (length D) = N cs + 1 /\
  vget D 0 = vzero K /\ vget D (N cs) = vzero K /\
  forall i, 1 <= i < N cs -> vget D i = vget b (i - 1).
Proof.
  intros HN D. unfold D, tangents.
  destruct (Z_lt_le_dec (N cs) 1) as [Hlt | Hge].
  { rewrite for_lt_none by lia. rewrite repeat_length.
    repeat split; try lia.
    - unfold zget; simpl. destruct (Z.to_nat (N cs + 1)); reflexivity.
    - unfold zget. destruct (N cs <? 0); auto. apply nth_repeat. }
  apply (for_lt_inv _ _ (fun k D => Z.of_nat (length D) = N cs + 1 /\
           vget D 0 = vzero K /\ vget D (N cs) = vzero K /\
           forall i, 1 <= i < k -> vget D i = vget b (i - 1))); [lia | |].
  - rewrite repeat_length. repeat split; try lia.
    + unfold zget; simpl. destruct (Z.to_nat (N cs + 1)); reflexivity.
    + unfold zget. destruct (N cs <? 0); auto. apply nth_repeat.
  - intros k D' Hk (HL & H0 & Hn & Hi). rewrite zset_length. repeat split; auto.
    + now rewrite zget_zset_other by lia.
    + now rewrite zget_zset_other by lia.
    + intros i Hik. rewrite zget_zset by lia.
      destruct (Z.eqb_spec i k) as [-> | Hne]; auto. apply Hi. lia.
Qed.

Lemma setBlock_length b i m : length (setBlock b i m) = length b.
Proof.
  unfold setBlock. now rewrite !zset_length.
Qed.

Lemma block_setBlock_same b i m :
  0 <= i -> i * 4 + 3 < Z.of_nat (length b) -> block (setBlock b i m) i = m.
Proof.
  intros Hi Hl. unfold block, setBlock. destruct m as [m0 m1 m2 m3]; simpl.
  f_equal.
  - rewrite !zget_zset_other by lia. apply zget_zset_same. lia.
  - rewrite !zget_zset_other by lia. apply zget_zset_same. rewrite zset_length. lia.
  - rewrite !zget_zset_other by lia. apply zget_zset_same. rewrite !zset_length. lia.
  - apply zget_zset_same. rewrite !zset_length. lia.
Qed.

Lemma block_setBlock_other b i j m : i <> j -> block (setBlock b i m) j = block b j.
Proof.
  intros Hne. unfold block, setBlock. f_equal; now rewrite !zget_zset_other by lia.
Qed.

Lemma storeCoeffs_spec cs X D b :
  Z.of_nat (length b) = N cs * 4 ->
  length (storeCoeffs cs X D b) = length b /\
  forall i, 0 <= i < N cs -> block (storeCoeffs cs X D b) i = pieceCoeffs X D i.
Proof.
  intros HL. unfold storeCoeffs.
  destruct (Z_lt_le_dec (N cs) 0) as [Hneg | Hpos].
  { rewrite for_lt_none by lia. split; auto. intros; lia. }
  apply (for_lt_inv _ _ (fun k b' => length b' = length b /\
           forall i, 0 <= i < k -> block b' i = pieceCoeffs X D i)); [lia | |].
  - split; auto. intros; lia.
  - intros k b' Hk (Hlen & Hi). rewrite setBlock_length. split; auto.
    intros i Hik. destruct (Z.eq_dec i k) as [-> | Hne].
    + apply block_setBlock_same; lia.
    + rewrite block_setBlock_other by lia. apply Hi. lia.
Qed.

(** Every row of [b] is one column of one block. *)
Lemma block_ext b b' n :
  Z.of_nat (length b) = n * 4 -> length b' = length b ->
  (forall i, 0 <= i < n -> block b i = block b' i) -> b = b'.
Proof.
  intros HL HL' Hb. apply (zget_ext _ (vzero K)); [now symmetry |].
  intros r Hr.
  pose proof (Z.div_mod r 4 ltac:(lia)) as Hdm.
  pose proof (Z.mod_pos_bound r 4 ltac:(lia)) as Hm.
  specialize (Hb (r / 4) ltac:(lia)). unfold block in Hb.
  injection Hb as H0 H1 H2 H3.
  assert (Hc : r = r / 4 * 4 \/ r = r / 4 * 4 + 1 \/ r = r / 4 * 4 + 2 \/
               r = r / 4 * 4 + 3) by lia.
  destruct Hc as [Hc | [Hc | [Hc | Hc]]]; rewrite Hc; assumption.
Qed.

(** What [storeCoeffs] leaves in [b] does not depend on what [b] held. *)
Lemma storeCoeffs_junk cs cs' X D b b' :
  N cs = N cs' ->
  Z.of_nat (length b) = N cs * 4 -> Z.of_nat (length b') = N cs * 4 ->
  storeCoeffs cs X D b = storeCoeffs cs' X D b'.
Proof.
  intros EN HL HL'.
  destruct (storeCoeffs_spec cs X D b HL) as [L1 B1].
  destruct (storeCoeffs_spec cs' X D b' ltac:(lia)) as [L2 B2].
  apply (block_ext _ _ (N cs)); [lia | lia |].
  intros i Hi. rewrite B1, B2 by lia. reflexivity.
Qed.

End SplineStages.

(** ** [setConditions] and [setInnerPoints] *)

Section Fit.
Variable K : Scalar.
Add Field Kfield_fit : (F_field K).
Import CubicSpline.
Implicit Types cs : CubicSpline.t K.
Implicit Types X D b inPs : list (Vector2d K).

Abbreviation vget := (zget (vzero K)).

Lemma setConditions_some cs headPos tailPos pieceNum junk h :
  1 <= pieceNum ->
  setConditions cs headPos tailPos pieceNum junk h =
  Some (ConfSpec.configured headPos tailPos pieceNum (resize junk (b cs) (pieceNum - 1)),
        snd (BandedSystem.create (A cs) (pieceNum - 1) 1 1 h)).
Proof.
  intros Hn. unfold setConditions, ConfSpec.configured.
  destruct (Z.ltb_spec (pieceNum - 1) 0); [lia |].
  rewrite <- (create_fst K (A cs) (pieceNum - 1) 1 1 h).
  destruct (BandedSystem.create (A cs) (pieceNum - 1) 1 1 h). reflexivity.
Qed.

Lemma setConditions_none cs headPos tailPos pieceNum junk h :
  pieceNum < 1 -> setConditions cs headPos tailPos pieceNum junk h = None.
Proof.
  intros Hn. unfold setConditions.
  destruct (Z.ltb_spec (pieceNum - 1) 0); [reflexivity | lia].
Qed.

(** The result of [setInnerPoints] on an object that [setConditions] has
    sized, when [inPs] has a column for every inner point. *)
Lemma setInnerPoints_some cs inPs junkX junkb :
  1 <= N cs -> Z.of_nat (length (b cs)) = N cs - 1 ->
  N cs - 1 <= Z.of_nat (length inPs) ->
  exists X cs',
    waypoints cs inPs junkX = Some X /\
    setInnerPoints cs inPs junkX junkb = Some cs' /\
    N cs' = N cs /\ headP cs' = headP cs /\ tailP cs' = tailP cs /\
    A cs' = BandedSystem.factorizeLU (FillSpec.fillMatrix (N cs) (A cs)) /\
    Z.of_nat (length (b cs')) = N cs * 4 /\
    forall i, 0 <= i < N cs ->
      block (b cs') i = pieceCoeffs X (FitSpec.fitTangents cs X) i.
Proof.
  intros HN HL Hin.
  destruct (waypoints_some K cs inPs junkX HN Hin) as (X & EX & _).
  destruct (fillSystem_spec K cs X HL) as (b0 & Efill & Lb0 & _).
  exists X. unfold setInnerPoints, FitSpec.fitTangents. rewrite EX, Efill.
  eexists; split; [reflexivity |]. split; [reflexivity |]. cbn [N headP tailP A b].
  do 4 (split; [reflexivity |]).
  set (D := tangents cs _). set (b2 := resize junkb _ _).
  assert (L2 : Z.of_nat (length b2) = N cs * 4) by (apply resize_length; lia).
  destruct (storeCoeffs_spec K cs X D b2 L2) as [L3 B3].
  split; [lia | exact B3].
Qed.

Lemma setInnerPoints_none cs inPs junkX junkb :
  1 <= N cs -> Z.of_nat (length inPs) < N cs - 1 ->
  setInnerPoints cs inPs junkX junkb = None.
Proof.
  intros HN Hin. unfold setInnerPoints. now rewrite waypoints_none.
Qed.

(** Two runs of [setInnerPoints] agree when the objects agree on what
    [setConditions] fixes and the inner points that are read agree: the cells
    that were not initialised are all written before they are read. *)
Lemma setInnerPoints_agree cs cs' inPs inPs' junkX junkb junkX' junkb' :
  1 <= N cs -> N cs = N cs' -> headP cs = headP cs' -> tailP cs = tailP cs' ->
  A cs = A cs' ->
  Z.of_nat (length (b cs)) = N cs - 1 -> Z.of_nat (length (b cs')) = N cs - 1 ->
  N cs - 1 <= Z.of_nat (length inPs) -> N cs - 1 <= Z.of_nat (length inPs') ->
  (forall i, 0 <= i < N cs - 1 -> vget inPs i = vget inPs' i) ->
  setInnerPoints cs inPs junkX junkb = setInnerPoints cs' inPs' junkX' junkb'.
Proof.
  intros HN EN Eh Et EA HL HL' Hin Hin' Hagree.
  destruct (waypoints_some K cs inPs junkX HN Hin) as (X & EX & _).
  pose proof (waypoints_agree K cs cs' inPs inPs' junkX junkX' X
                HN EN Eh Et Hin Hin' Hagree EX) as EX'.
  destruct (fillSystem_spec K cs X HL) as (b0 & Efill & Lb0 & Hb0).
  destruct (fillSystem_spec K cs' X ltac:(lia)) as (b0' & Efill' & Lb0' & Hb0').
  assert (Eb : b0 = b0').
  { apply (zget_ext _ (vzero K)); [lia |]. intros i Hi.
    rewrite Hb0, Hb0' by lia. reflexivity. }
  unfold setInnerPoints. rewrite EX, EX', Efill, Efill'.
  rewrite <- Eb, <- EN, <- EA, <- Eh, <- Et. f_equal. f_equal.
  assert (ED : tangents cs' (BandedSystem.solve
                 (BandedSystem.factorizeLU (FillSpec.fillMatrix (N cs) (A cs))) b0)
             = tangents cs (BandedSystem.solve
                 (BandedSystem.factorizeLU (FillSpec.fillMatrix (N cs) (A cs))) b0)).
  { unfold tangents. now rewrite EN. }
  rewrite ED. symmetry.
  apply storeCoeffs_junk; auto; rewrite resize_length by lia; lia.
Qed.

End Fit.

(** ** The fitted curve *)

Section FittedCurve.
Variable K : Scalar.
Add Field Kfield_curve : (F_field K).
Import CubicSpline.
Implicit Types cs : CubicSpline.t K.
Implicit Types X D b inPs : list (Vector2d K).

Abbreviation vget := (zget (vzero K)).

Ltac vec_ring :=
  unfold position, velocity, pieceCoeffs, vadd, vsub, vscale, vzero, two, three;
  cbn [coeffMat col0 col1 col2 col3 fst snd];
  repeat match goal with
         | |- context [@zget ?T ?d ?l ?i] =>
             let v := fresh "v" in
             let x := fresh "x" in
             let y := fresh "y" in
             generalize (@zget T d l i); intros v; destruct v as [x y]
         end;
  cbn [fst snd]; f_equal; ring.

Lemma piece_position_0 X D i :
  position {| duration := 1%K; coeffMat := pieceCoeffs X D i |} 0%K = vget X i.
Proof.
  vec_ring.
Qed.

Lemma piece_position_1 X D i :
  position {| duration := 1%K; coeffMat := pieceCoeffs X D i |} 1%K = vget X (i + 1).
Proof.
  vec_ring.
Qed.

Lemma piece_velocity_0 X D i :
  velocity {| duration := 1%K; coeffMat := pieceCoeffs X D i |} 0%K = vget D i.
Proof.
  vec_ring.
Qed.

Lemma piece_velocity_1 X D i :
  velocity {| duration := 1%K; coeffMat := pieceCoeffs X D i |} 1%K = vget D (i + 1).
Proof.
  vec_ring.
Qed.

Lemma getCurve_spec cs curve :
  0 <= N cs ->
  Z.of_nat (length (getCurve cs curve)) = N cs /\
  forall i, 0 <= i < N cs ->
    nth_error (getCurve cs curve) (Z.to_nat i)
    = Some {| duration := 1%K; coeffMat := block (b cs) i |}.
Proof.
  intros HN. unfold getCurve, clear.
  apply (for_lt_inv _ _ (fun k (c : CubicCurve K) => Z.of_nat (length c) = k /\
           forall i, 0 <= i < k ->
             nth_error c (Z.to_nat i)
             = Some {| duration := 1%K; coeffMat := block (b cs) i |})); [lia | |].
  - split; auto. intros; lia.
  - intros k c Hk (Hlen & Hi). unfold emplace_back. split.
    + rewrite length_app. simpl. lia.
    + intros i Hik. destruct (Z.eq_dec i k) as [-> | Hne].
      * rewrite nth_error_app2 by lia.
        replace (Z.to_nat k - length c)%nat with 0%nat by lia. reflexivity.
      * rewrite nth_error_app1 by lia. apply Hi. lia.
Qed.

(** A fit that is given enough inner points succeeds; its waypoints and its
    blocks of coefficients. *)
Lemma fit_some cs0 headPos tailPos n inPs junk junkX junkb h :
  1 <= n -> n - 1 <= Z.of_nat (length inPs) ->
  let cs1 := ConfSpec.configured headPos tailPos n (resize junk (b cs0) (n - 1)) in
  exists X cs,
    FitSpec.fit cs0 headPos tailPos n inPs junk junkX junkb h = Some cs /\
    waypoints cs1 inPs junkX = Some X /\
    N cs = n /\
    Z.of_nat (length X) = n + 1 /\
    vget X 0 = headPos /\ vget X n = tailPos /\
    (forall i, 1 <= i < n -> vget X i = vget inPs (i - 1)) /\
    Z.of_nat (length (b cs)) = n * 4 /\
    forall i, 0 <= i < n ->
      block (b cs) i = pieceCoeffs X (FitSpec.fitTangents cs1 X) i.
Proof.
  intros Hn Hin cs1. unfold FitSpec.fit.
  rewrite setConditions_some by lia. fold cs1.
  assert (HL : Z.of_nat (length (b cs1)) = N cs1 - 1).
  { unfold cs1, ConfSpec.configured. cbn [b N]. apply resize_length. lia. }
  destruct (setInnerPoints_some K cs1 inPs junkX junkb) as
    (X & cs & EX & Ecs & EN & _ & _ & _ & Lb & Hb); auto.
  destruct (waypoints_some K cs1 inPs junkX) as (X' & EX' & LX & H0 & Hn' & Hi); auto.
  rewrite EX in EX'. injection EX' as <-.
  exists X, cs. repeat split; auto.
Qed.

Lemma fit_none_short cs0 headPos tailPos n inPs junk junkX junkb h :
  1 <= n -> Z.of_nat (length inPs) < n - 1 ->
  FitSpec.fit cs0 headPos tailPos n inPs junk junkX junkb h = None.
Proof.
  intros Hn Hin. unfold FitSpec.fit. rewrite setConditions_some by lia.
  apply setInnerPoints_none; auto.
Qed.

Lemma fit_none_size cs0 headPos tailPos n inPs junk junkX junkb h :
  n < 1 -> FitSpec.fit cs0 headPos tailPos n inPs junk junkX junkb h = None.
Proof.
  intros Hn. unfold FitSpec.fit. now rewrite setConditions_none.
Qed.

(** The result of a fit depends on the head, the tail, the piece count and
    the first [n - 1] inner points, and on nothing else. *)
Lemma fit_agree cs0 cs0' headPos tailPos n inPs inPs' junk junkX junkb h
      junk' junkX' junkb' h' :
  n - 1 <= Z.of_nat (length inPs) -> n - 1 <= Z.of_nat (length inPs') ->
  (forall i, 0 <= i < n - 1 -> vget inPs i = vget inPs' i) ->
  FitSpec.fit cs0 headPos tailPos n inPs junk junkX junkb h
  = FitSpec.fit cs0' headPos tailPos n inPs' junk' junkX' junkb' h'.
Proof.
  intros Hin Hin' Hagree.
  destruct (Z_lt_le_dec n 1) as [Hlt | Hge].
  { now rewrite !fit_none_size. }
  unfold FitSpec.fit. rewrite !setConditions_some by lia.
  apply setInnerPoints_agree; auto; unfold ConfSpec.configured; cbn [N b];
    apply resize_length; lia.
Qed.

End FittedCurve.

(** ** Boundary, continuity, export and reconfiguration *)

Section FitClaims.
Variable K : Scalar.
Import CubicSpline.
Implicit Types cs : CubicSpline.t K.
Implicit Types X D b inPs : list (Vector2d K).

Abbreviation vget := (zget (vzero K)).

(** C7: for every head, every tail, every piece count [n >= 1] (so every
    [n >= 2]) and every sequence of at least [n - 1] inner points (so every
    sequence of exactly [n - 1]), the fit succeeds and, on the curve that
    [getCurve] exports, the position of the piece 0 at [s = 0] is the head
    and the position of the piece [n - 1] at [s = 1] is the tail. *)
Theorem boundary_fidelity cs0 headPos tailPos n inPs junk junkX junkb h curve :
  1 <= n -> n - 1 <= Z.of_nat (length inPs) ->
  exists cs p0 pL,
    FitSpec.fit cs0 headPos tailPos n inPs junk junkX junkb h = Some cs /\
    nth_error (getCurve cs curve) 0 = Some p0 /\
    nth_error (getCurve cs curve) (Z.to_nat (n - 1)) = Some pL /\
    position p0 0%K = headPos /\
    position pL 1%K = tailPos.
Proof.
  intros Hn Hin.
  destruct (fit_some K cs0 headPos tailPos n inPs junk junkX junkb h Hn Hin)
    as (X & cs & Efit & _ & EN & _ & H0 & HL & _ & _ & Hb).
  destruct (getCurve_spec K cs curve ltac:(lia)) as [_ Hc]. rewrite EN in Hc.
  exists cs. do 2 eexists. split; [exact Efit |].
  split; [exact (Hc 0 ltac:(lia)) |]. split; [exact (Hc (n - 1) ltac:(lia)) |].
  rewrite !Hb by lia. rewrite piece_position_0, piece_position_1.
  split; [exact H0 |]. now replace (n - 1 + 1) with n by lia.
Qed.

(** C8: for every fit, at every inner junction [i] in [1 .. n - 1] the first
    derivative of the piece [i - 1] at [s = 1] is the first derivative of
    the piece [i] at [s = 0]. *)
Theorem tangent_continuity cs0 headPos tailPos n inPs junk junkX junkb h curve :
  1 <= n -> n - 1 <= Z.of_nat (length inPs) ->
  exists cs,
    FitSpec.fit cs0 headPos tailPos n inPs junk junkX junkb h = Some cs /\
    forall i, 1 <= i <= n - 1 ->
      exists p q,
        nth_error (getCurve cs curve) (Z.to_nat (i - 1)) = Some p /\
        nth_error (getCurve cs curve) (Z.to_nat i) = Some q /\
        velocity p 1%K = velocity q 0%K.
Proof.
  intros Hn Hin.
  destruct (fit_some K cs0 headPos tailPos n inPs junk junkX junkb h Hn Hin)
    as (X & cs & Efit & _ & EN & _ & _ & _ & _ & _ & Hb).
  destruct (getCurve_spec K cs curve ltac:(lia)) as [_ Hc]. rewrite EN in Hc.
  exists cs. split; [exact Efit |]. intros i Hi.
  do 2 eexists. split; [exact (Hc (i - 1) ltac:(lia)) |].
  split; [exact (Hc i ltac:(lia)) |].
  rewrite !Hb by lia. rewrite piece_velocity_0, piece_velocity_1.
  now replace (i - 1 + 1) with i by lia.
Qed.

(** C10: for every fitted spline and whatever the container [curve] held,
    [getCurve] leaves in it exactly the [N] pieces of the fit, in path
    order, the piece [i] with the duration 1 and the coefficient matrix of
    columns [d_i, c_i, b_i, a_i] ([pieceCoeffs], with [X] the waypoints and
    [D] the tangents of the fit); the result is the one for the empty
    container. *)
Theorem getCurve_pieces cs0 headPos tailPos n inPs junk junkX junkb h cs curve :
  FitSpec.fit cs0 headPos tailPos n inPs junk junkX junkb h = Some cs ->
  let cs1 := ConfSpec.configured headPos tailPos n (resize junk (b cs0) (n - 1)) in
  exists X,
    waypoints cs1 inPs junkX = Some X /\
    N cs = n /\
    Z.of_nat (length (getCurve cs curve)) = n /\
    (forall i, 0 <= i < n ->
       nth_error (getCurve cs curve) (Z.to_nat i)
       = Some {| duration := 1%K;
                 coeffMat := pieceCoeffs X (FitSpec.fitTangents cs1 X) i |}) /\
    getCurve cs curve = getCurve cs [].
Proof.
  intros Efit cs1.
  destruct (Z_lt_le_dec n 1) as [Hlt | Hn].
  { rewrite fit_none_size in Efit by lia. discriminate. }
  destruct (Z_lt_le_dec (Z.of_nat (length inPs)) (n - 1)) as [Hshort | Hin].
  { rewrite fit_none_short in Efit by lia. discriminate. }
  destruct (fit_some K cs0 headPos tailPos n inPs junk junkX junkb h Hn Hin)
    as (X & cs' & Efit' & EX & EN & _ & _ & _ & _ & _ & Hb).
  rewrite Efit in Efit'. injection Efit' as <-.
  destruct (getCurve_spec K cs curve ltac:(lia)) as [Lc Hc]. rewrite EN in Lc, Hc.
  exists X. repeat split; auto.
  intros i Hi. rewrite Hc by lia. now rewrite Hb by lia.
Qed.

(** C9: [create] on a system that holds storage gives the old array back
    before it takes the new one, so the number of live arrays does not grow;
    after a second [setConditions] the storage has the size of the second
    piece count, and the fit that follows is the fit of any other object
    configured with the second head, tail and piece count, a fresh one
    included. *)
Theorem reconfigure_as_fresh cs0 head1 tail1 n1 junk1 h0 cs1 h1
        head2 tail2 n2 junk2 cs2 h2 :
  setConditions cs0 head1 tail1 n1 junk1 h0 = Some (cs1, h1) ->
  setConditions cs1 head2 tail2 n2 junk2 h1 = Some (cs2, h2) ->
  (forall (M : BandedSystem.t K) d n p q h,
     BandedSystem.ptrData M = Some d ->
     snd (BandedSystem.create M n p q h)
     = heap_new (heap_delete h (Z.of_nat (length d)))
                (Z.of_nat (Z.to_nat (n * (p + q + 1))))) /\
  blocks h2 = blocks h1 /\
  cells h2 = cells h1 - (n1 - 1) * 3 + (n2 - 1) * 3 /\
  BandedSystem.N (A cs2) = n2 - 1 /\
  Z.of_nat (length (BandedSystem.buf (A cs2))) = (n2 - 1) * 3 /\
  forall csF junkF hF csF' hF' inPs junkX junkb junkX' junkb',
    setConditions csF head2 tail2 n2 junkF hF = Some (csF', hF') ->
    setInnerPoints cs2 inPs junkX junkb = setInnerPoints csF' inPs junkX' junkb'.
Proof.
  intros E1 E2.
  destruct (Z_lt_le_dec n1 1) as [Hlt1 | Hn1];
    [rewrite setConditions_none in E1 by lia; discriminate |].
  destruct (Z_lt_le_dec n2 1) as [Hlt2 | Hn2];
    [rewrite setConditions_none in E2 by lia; discriminate |].
  rewrite setConditions_some in E1, E2 by lia.
  injection E1 as <- <-. injection E2 as <- <-.
  split; [| split; [| split; [| split; [| split]]]].
  - intros M d n p q h HM. rewrite create_snd. unfold BandedSystem.destroy.
    now rewrite HM.
  - unfold heap_new, heap_delete. cbn [blocks cells]. lia.
  - unfold heap_new, heap_delete. cbn [blocks cells]. rewrite repeat_length. lia.
  - reflexivity.
  - unfold ConfSpec.configured, BandedSystem.buf. cbn. rewrite repeat_length. lia.
  - intros csF junkF hF csF' hF' inPs junkX junkb junkX' junkb' EF.
    rewrite setConditions_some in EF by lia. injection EF as <- <-.
    destruct (Z_lt_le_dec (Z.of_nat (length inPs)) (n2 - 1)) as [Hshort | Hin].
    + rewrite !setInnerPoints_none; auto.
    + apply setInnerPoints_agree; auto; unfold ConfSpec.configured; cbn [N b];
        apply resize_length; lia.
Qed.

(** C3 (amended): the fitter checks no dimension.  [setConditions] accepts
    every piece count [n >= 1], the single piece included, and a fit with at
    least [n - 1] inner points succeeds, reads the first [n - 1] of them and
    ignores the others.  No result comes only from a piece count below 1
    and from fewer than [n - 1] inner points. *)
Theorem mismatch_not_checked cs0 headPos tailPos n inPs junk junkX junkb h :
  (1 <= n ->
   exists cs1 h1, setConditions cs0 headPos tailPos n junk h = Some (cs1, h1)) /\
  (1 <= n -> n - 1 <= Z.of_nat (length inPs) ->
   exists cs,
     FitSpec.fit cs0 headPos tailPos n inPs junk junkX junkb h = Some cs /\
     FitSpec.fit cs0 headPos tailPos n (firstn (Z.to_nat (n - 1)) inPs)
                 junk junkX junkb h = Some cs) /\
  (1 <= n -> Z.of_nat (length inPs) < n - 1 ->
   FitSpec.fit cs0 headPos tailPos n inPs junk junkX junkb h = None) /\
  (n < 1 -> FitSpec.fit cs0 headPos tailPos n inPs junk junkX junkb h = None).
Proof.
  split; [| split; [| split]].
  - intros Hn. rewrite setConditions_some by lia. eauto.
  - intros Hn Hin.
    destruct (fit_some K cs0 headPos tailPos n inPs junk junkX junkb h Hn Hin)
      as (X & cs & Efit & _).
    exists cs. split; [exact Efit |]. rewrite <- Efit. apply fit_agree.
    + rewrite length_firstn. lia.
    + exact Hin.
    + intros i Hi. unfold zget. destruct (Z.ltb_spec i 0); [lia |].
      rewrite nth_firstn.
      destruct (Nat.ltb_spec (Z.to_nat i) (Z.to_nat (n - 1))); [reflexivity | lia].
  - apply fit_none_short.
  - apply fit_none_size.
Qed.

End FitClaims.

(** ** The two colinear examples and the stretch energy *)

Section Examples.
Import CubicSpline Run.

(** What [getStretchEnergy] sums: 4 times the squared norm of the column 0
    of a block, the cubic coefficient, and 12 times that of the column 1,
    the quadratic one. *)
Lemma getStretchEnergy_sum (K : Scalar) (cs : CubicSpline.t K) :
  getStretchEnergy cs
  = zsum K 0 (N cs) (fun i =>
      let c := col1 (block (b cs) i) in
      let d := col0 (block (b cs) i) in
      (four K * squaredNorm d + twelve K * squaredNorm c + twelve K * dot c d)%K).
Proof.
  reflexivity.
Qed.

(** C1 (the code at the failing input): for the head (0,0), the tail (3,0),
    3 pieces and the inner points (1,0), (2,0) the fit stores
    [c = (9/5,0), (-3/5,0), (3/5,0)] and [d = (-4/5,0), (2/5,0), (-4/5,0)];
    the sum of [4 |c_i|^2 + 12 |d_i|^2 + 12 c_i . d_i] is 36/5 and
    [getStretchEnergy] returns 684/25, the sum with [c_i] and [d_i]
    exchanged. *)
Theorem stretch_energy_exchanges_c_d :
  let cs1 := ConfSpec.configured (pt 0 0) (pt 3 0) 3 (resize junk0 [] 2) in
  summary 3 line3
  = Some ([(9 # 5, 0); (-3 # 5, 0); (3 # 5, 0)],
          [(-4 # 5, 0); (2 # 5, 0); (-4 # 5, 0)], 684 # 25)%Q /\
  option_map (fun X => this (SplineSpec.stretchEnergy 3 X (FitSpec.fitTangents cs1 X)))
             (waypoints cs1 [pt 1 0; pt 2 0] junk0)
  = Some (36 # 5)%Q.
Proof.
  split; vm_compute; reflexivity.
Qed.

(** C2 (counterexample): the fit of the 3-piece example is not a straight
    line, its first quadratic coefficient is (9/5, 0). *)
Lemma colinear_not_straight :
  ~ (ColinearSpec.straight line3 3 /\ ColinearSpec.straight line2 2).
Proof.
  intros [(cs & Ecs & Hzero & _) _].
  assert (E : option_map (fun cs => view (col1 (block (b cs) 0))) line3
              = Some (view (vzero QcScalar))).
  { rewrite Ecs. simpl. f_equal. f_equal. apply (Hzero 0). lia. }
  vm_compute in E. discriminate E.
Qed.

(** C2 (amended): for the head (0,0), the tail (3,0), 3 pieces and the inner
    points (1,0), (2,0), whatever the object held before, the fit stores the
    quadratic coefficients (9/5,0), (-3/5,0), (3/5,0) and the cubic
    coefficients (-4/5,0), (2/5,0), (-4/5,0), and [getStretchEnergy] returns
    a value above 0; for the head (0,0), the tail (2,0), 2 pieces and the
    inner point (1,0), every quadratic and cubic coefficient has a zero
    second coordinate and [getStretchEnergy] returns a value above 0. *)
Theorem colinear_fit_on_axis cs0 junk junkX junkb h :
  (exists e,
     summary 3 (FitSpec.fit cs0 (pt 0 0) (pt 3 0) 3 [pt 1 0; pt 2 0]
                            junk junkX junkb h)
     = Some ([(9 # 5, 0); (-3 # 5, 0); (3 # 5, 0)],
             [(-4 # 5, 0); (2 # 5, 0); (-4 # 5, 0)], e)%Q /\
     (0 < e)%Q) /\
  (exists c d e,
     summary 2 (FitSpec.fit cs0 (pt 0 0) (pt 2 0) 2 [pt 1 0] junk junkX junkb h)
     = Some (c, d, e) /\
     map snd c = [0; 0]%Q /\ map snd d = [0; 0]%Q /\ (0 < e)%Q).
Proof.
  split.
  - rewrite (fit_agree QcScalar cs0 fresh (pt 0 0) (pt 3 0) 3 [pt 1 0; pt 2 0]
               [pt 1 0; pt 2 0] junk junkX junkb h junk0 junk0 junk0 heap0);
      [| simpl; lia | simpl; lia | reflexivity].
    exists (684 # 25)%Q. split; [vm_compute; reflexivity | reflexivity].
  - rewrite (fit_agree QcScalar cs0 fresh (pt 0 0) (pt 2 0) 2 [pt 1 0]
               [pt 1 0] junk junkX junkb h junk0 junk0 junk0 heap0);
      [| simpl; lia | simpl; lia | reflexivity].
    exists [(-3 # 1, 0); (-9 # 1, 0)]%Q, [(4 # 1, 0); (4 # 1, 0)]%Q, (632 # 1)%Q.
    split; [vm_compute; reflexivity |]. repeat split.
Qed.

(** C3 (counterexample): with 3 pieces and 3 inner points, one too many, the
    fit returns a result. *)
Lemma surplus_point_accepted : ~ ErrorSpec.mismatch_reported QcScalar.
Proof.
  intros H.
  specialize (H fresh (pt 0 0) (pt 3 0) 3 [pt 1 0; pt 2 0; pt 5 5]
                junk0 junk0 junk0 heap0).
  assert (E : Z.of_nat (length [pt 1 0; pt 2 0; pt 5 5]) <> 3 - 1 \/ 3 < 2).
  { left. simpl. lia. }
  specialize (H E).
  assert (E3 : summary 3 (FitSpec.fit fresh (pt 0 0) (pt 3 0) 3
                 [pt 1 0; pt 2 0; pt 5 5] junk0 junk0 junk0 heap0) = None)
    by now rewrite H.
  vm_compute in E3. discriminate E3.
Qed.

(** C4 (counterexample): for the size 2 and both bandwidths 1 the cell 0 of
    the block of 6 cells belongs to no entry of the band. *)
Lemma corner_cell_unused : ~ BandedSpec.offset_bijective band211.
Proof.
  intros (_ & _ & Honto).
  destruct (Honto 0) as (i & j & Hb & Ho).
  - vm_compute. split; [discriminate | reflexivity].
  - apply in_band_spec in Hb.
    unfold BandedSystem.offset in Ho.
    change (BandedSystem.N band211) with 2 in *.
    change (BandedSystem.upperBw band211) with 1 in *.
    change (BandedSystem.lowerBw band211) with 1 in *.
    lia.
Qed.

End Examples.

(** ** Scalars: order and absolute value *)

Section ScalarOrder.
Variable K : Scalar.
Add Field Kfield_order : (F_field K).
Implicit Types x y z w c : K.

Lemma nonzero_false x : nonzero x = false <-> x = 0%K.
Proof.
  unfold nonzero. rewrite negb_false_iff. apply (feqb_eq K).
Qed.

Lemma fdiv_0_l x : (0 / x = 0)%K.
Proof.
  rewrite (Fdiv_def (F_field K)). ring.
Qed.

Lemma fdiv_mul_cancel x y : y <> 0%K -> (x / y * y = x)%K.
Proof.
  intros H. field. exact H.
Qed.

Lemma fle_refl x : (x <= x)%K.
Proof. apply (fleb_refl K). Qed.

Lemma fle_trans x y z : (x <= y)%K -> (y <= z)%K -> (x <= z)%K.
Proof. apply (fleb_trans K). Qed.

Lemma fle_antisym x y : (x <= y)%K -> (y <= x)%K -> x = y.
Proof. apply (fleb_antisym K). Qed.

Lemma fle_total x y : (x <= y)%K \/ (y <= x)%K.
Proof. apply (fleb_total K). Qed.

Lemma flt_not_le x y : (x < y)%K <-> ~ (y <= x)%K.
Proof.
  unfold flt, fltb, fle. rewrite negb_true_iff. destruct (fleb K y x); split; auto;
    try discriminate. intros H. now elim H.
Qed.

Lemma flt_le x y : (x < y)%K -> (x <= y)%K.
Proof.
  rewrite flt_not_le. intros H. destruct (fle_total x y); [assumption | contradiction].
Qed.

Lemma flt_irrefl x : ~ (x < x)%K.
Proof.
  rewrite flt_not_le. intros H. apply H, fle_refl.
Qed.

Lemma fle_lt_trans x y z : (x <= y)%K -> (y < z)%K -> (x < z)%K.
Proof.
  rewrite !flt_not_le. intros Hxy Hyz Hzx. apply Hyz. now apply fle_trans with x.
Qed.

Lemma flt_le_trans x y z : (x < y)%K -> (y <= z)%K -> (x < z)%K.
Proof.
  rewrite !flt_not_le. intros Hxy Hyz Hzx. apply Hxy. now apply fle_trans with z.
Qed.

Lemma fle_add_r x y z : (x <= y)%K -> (x + z <= y + z)%K.
Proof. apply (fleb_add K). Qed.

Lemma fle_add x y z w : (x <= y)%K -> (z <= w)%K -> (x + z <= y + w)%K.
Proof.
  intros H1 H2. apply fle_trans with (y + z)%K.
  - now apply fle_add_r.
  - replace (y + z)%K with (z + y)%K by ring. replace (y + w)%K with (w + y)%K by ring.
    now apply fle_add_r.
Qed.

Lemma fle_add_cancel x y z : (x + z <= y + z)%K -> (x <= y)%K.
Proof.
  intros H. apply (fle_add_r _ _ (- z)%K) in H.
  replace (x + z + - z)%K with x in H by ring.
  now replace (y + z + - z)%K with y in H by ring.
Qed.

Lemma flt_add_r x y z : (x < y)%K -> (x + z < y + z)%K.
Proof.
  rewrite !flt_not_le. intros H H'. apply H. now apply fle_add_cancel with z.
Qed.

Lemma fle_0_sub x y : (x <= y)%K <-> (0 <= y - x)%K.
Proof.
  split; intros H.
  - apply (fle_add_r _ _ (- x)%K) in H.
    replace (x + - x)%K with (0 : K)%K in H by ring.
    now replace (y + - x)%K with (y - x)%K in H by ring.
  - apply (fle_add_r _ _ x) in H.
    replace (0 + x)%K with x in H by ring.
    now replace (y - x + x)%K with y in H by ring.
Qed.

Lemma fle_opp x y : (x <= y)%K -> (- y <= - x)%K.
Proof.
  intros H. apply <- fle_0_sub. replace (- x - - y)%K with (y - x)%K by ring.
  now apply -> fle_0_sub.
Qed.

Lemma fle_mul_l c x y : (0 <= c)%K -> (x <= y)%K -> (c * x <= c * y)%K.
Proof.
  intros Hc H. apply <- fle_0_sub.
  replace (c * y - c * x)%K with (c * (y - x))%K by ring.
  apply (fleb_mul K); [exact Hc |]. now apply -> fle_0_sub.
Qed.

(** *** Absolute value *)

Lemma fabs_nonneg x : (0 <= fabs x)%K.
Proof.
  unfold fabs. destruct (fleb K 0%K x) eqn:E; [exact E |].
  destruct (fle_total 0%K x) as [H | H]; [unfold fle in H; congruence |].
  apply fle_opp in H. now replace (- 0)%K with (0 : K)%K in H by ring.
Qed.

Lemma fabs_le x : (x <= fabs x)%K.
Proof.
  unfold fabs. destruct (fleb K 0%K x) eqn:E; [apply fle_refl |].
  destruct (fle_total 0%K x) as [H | H]; [unfold fle in H; congruence |].
  apply fle_trans with 0%K; [exact H |].
  apply fle_opp in H. now replace (- 0)%K with (0 : K)%K in H by ring.
Qed.

Lemma fabs_opp x : fabs (- x)%K = fabs x.
Proof.
  unfold fabs.
  destruct (fleb K 0%K x) eqn:E; destruct (fleb K 0%K (- x)%K) eqn:E'; try ring.
  - assert (x = 0%K).
    { apply fle_antisym; [| exact E]. apply fle_opp in E'.
      replace (- - x)%K with x in E' by ring.
      now replace (- 0)%K with (0 : K)%K in E' by ring. }
    subst x. ring.
  - destruct (fle_total 0%K x) as [H | H]; [unfold fle in H; congruence |].
    apply fle_opp in H. replace (- 0)%K with (0 : K)%K in H by ring.
    unfold fle in H. congruence.
Qed.

Lemma fabs_opp_le x : (- x <= fabs x)%K.
Proof.
  rewrite <- fabs_opp. apply fabs_le.
Qed.

Lemma fabs_bound x y : (x <= y)%K -> (- x <= y)%K -> (fabs x <= y)%K.
Proof.
  intros H1 H2. unfold fabs. destruct (fleb K 0%K x); assumption.
Qed.

Lemma fabs_triangle x y : (fabs (x + y) <= fabs x + fabs y)%K.
Proof.
  apply fabs_bound.
  - apply fle_add; apply fabs_le.
  - replace (- (x + y))%K with (- x + - y)%K by ring.
    apply fle_add; apply fabs_opp_le.
Qed.

Lemma fabs_triangle_sub x y : (fabs (x - y) <= fabs x + fabs y)%K.
Proof.
  replace (x - y)%K with (x + - y)%K by ring. rewrite <- (fabs_opp y).
  apply fabs_triangle.
Qed.

Lemma fabs_sub_lower x y : (fabs x - fabs y <= fabs (x - y))%K.
Proof.
  apply fle_add_cancel with (fabs y).
  replace (fabs x - fabs y + fabs y)%K with (fabs x) by ring.
  replace x with (x - y + y)%K at 1 by ring. apply fabs_triangle.
Qed.

Lemma fabs_mul x y : fabs (x * y)%K = (fabs x * fabs y)%K.
Proof.
  assert (P : forall a b : K, (0 <= a)%K -> (0 <= b)%K ->
                fabs (a * b)%K = (a * b)%K).
  { intros a b' Ha Hb. unfold fabs.
    pose proof (fleb_mul K a b' Ha Hb) as H. now rewrite H. }
  assert (Q' : forall a : K, (0 <= a)%K \/ (0 <= - a)%K).
  { intros a. destruct (fle_total 0%K a) as [H | H]; [now left | right].
    apply fle_opp in H. now replace (- 0)%K with (0 : K)%K in H by ring. }
  assert (A : forall a : K, (0 <= a)%K -> fabs a = a).
  { intros a Ha. unfold fabs. unfold fle in Ha. now rewrite Ha. }
  assert (B : forall a : K, (0 <= - a)%K -> fabs a = (- a)%K).
  { intros a Ha. rewrite <- fabs_opp. now apply A. }
  destruct (Q' x) as [Hx | Hx]; destruct (Q' y) as [Hy | Hy].
  - rewrite (P x y), (A x), (A y); auto.
  - rewrite (A x), (B y); auto.
    replace (x * y)%K with (- (x * - y))%K by ring. rewrite fabs_opp.
    rewrite P; auto.
  - rewrite (B x), (A y); auto.
    replace (x * y)%K with (- (- x * y))%K by ring. rewrite fabs_opp.
    rewrite P; auto.
  - rewrite (B x), (B y); auto.
    replace (x * y)%K with (- x * - y)%K by ring. rewrite P; auto.
Qed.

Lemma fabs_0 : fabs (0 : K)%K = 0%K.
Proof.
  unfold fabs. now rewrite (fleb_refl K).
Qed.

Lemma fabs_pos_nonzero x : (0 < fabs x)%K -> x <> 0%K.
Proof.
  intros H E. subst x. rewrite fabs_0 in H. now apply flt_irrefl in H.
Qed.

End ScalarOrder.

(** ** Finite sums *)

Section Sums.
Variable K : Scalar.
Add Field Kfield_sums : (F_field K).
Implicit Types f g : Z -> K.

Lemma zsum_none lo hi f : hi <= lo -> zsum K lo hi f = 0%K.
Proof.
  intros H. unfold zsum. now rewrite for_lt_none.
Qed.

Lemma zsum_last lo hi f :
  lo < hi -> zsum K lo hi f = (zsum K lo (hi - 1)%Z f + f (hi - 1)%Z)%K.
Proof.
  intros H. unfold zsum. now rewrite for_lt_last.
Qed.

(** Induction on the upper end of a range. *)
Lemma range_ind (P : Z -> Prop) (lo : Z) :
  P lo -> (forall hi, lo <= hi -> P hi -> P (hi + 1)) ->
  forall hi, lo <= hi -> P hi.
Proof.
  intros H0 Hs hi Hle.
  replace hi with (lo + Z.of_nat (Z.to_nat (hi - lo))) by lia.
  induction (Z.to_nat (hi - lo)) as [| n IH].
  - now rewrite Z.add_0_r.
  - replace (lo + Z.of_nat (S n)) with (lo + Z.of_nat n + 1) by lia.
    apply Hs; [lia | exact IH].
Qed.

Lemma zsum_ext lo hi f g :
  (forall j, lo <= j < hi -> f j = g j) -> zsum K lo hi f = zsum K lo hi g.
Proof.
  destruct (Z_lt_le_dec hi lo) as [Hlt | Hle].
  { intros _. now rewrite !zsum_none by lia. }
  revert hi Hle. apply (range_ind (fun hi =>
    (forall j, lo <= j < hi -> f j = g j) -> zsum K lo hi f = zsum K lo hi g)).
  - intros _. now rewrite !zsum_none by lia.
  - intros hi Hle IH H. rewrite !(zsum_last lo (hi + 1)) by lia.
    replace (hi + 1 - 1) with hi by lia. rewrite IH, H; auto; try lia.
    intros j Hj. apply H. lia.
Qed.

Lemma zsum_zero lo hi f :
  (forall j, lo <= j < hi -> f j = 0%K) -> zsum K lo hi f = 0%K.
Proof.
  destruct (Z_lt_le_dec hi lo) as [Hlt | Hle].
  { intros _. now rewrite zsum_none by lia. }
  revert hi Hle. apply (range_ind (fun hi =>
    (forall j, lo <= j < hi -> f j = 0%K) -> zsum K lo hi f = 0%K)).
  - intros _. now rewrite zsum_none by lia.
  - intros hi Hle IH H. rewrite (zsum_last lo (hi + 1)) by lia.
    replace (hi + 1 - 1) with hi by lia. rewrite IH, H; try lia; [ring |].
    intros j Hj. apply H. lia.
Qed.

Lemma zsum_add lo hi f g :
  zsum K lo hi (fun j => (f j + g j)%K) = (zsum K lo hi f + zsum K lo hi g)%K.
Proof.
  destruct (Z_lt_le_dec hi lo) as [Hlt | Hle].
  { rewrite !zsum_none by lia. ring. }
  revert hi Hle. apply range_ind.
  - rewrite !zsum_none by lia. ring.
  - intros hi Hle IH. rewrite !(zsum_last lo (hi + 1)) by lia.
    replace (hi + 1 - 1) with hi by lia. rewrite IH. ring.
Qed.

Lemma zsum_scale lo hi c f :
  zsum K lo hi (fun j => (c * f j)%K) = (c * zsum K lo hi f)%K.
Proof.
  destruct (Z_lt_le_dec hi lo) as [Hlt | Hle].
  { rewrite !zsum_none by lia. ring. }
  revert hi Hle. apply range_ind.
  - rewrite !zsum_none by lia. ring.
  - intros hi Hle IH. rewrite !(zsum_last lo (hi + 1)) by lia.
    replace (hi + 1 - 1) with hi by lia. rewrite IH. ring.
Qed.

Lemma zsum_split lo m hi f :
  lo <= m <= hi -> zsum K lo hi f = (zsum K lo m f + zsum K m hi f)%K.
Proof.
  intros [Hlo Hhi]. revert hi Hhi. apply range_ind.
  - rewrite (zsum_none m m) by lia. ring.
  - intros hi Hle IH. rewrite !(zsum_last _ (hi + 1)) by lia.
    replace (hi + 1 - 1) with hi by lia. rewrite IH. ring.
Qed.

Lemma zsum_one lo f : zsum K lo (lo + 1) f = f lo.
Proof.
  rewrite zsum_last by lia. replace (lo + 1 - 1) with lo by lia.
  rewrite zsum_none by lia. ring.
Qed.

Lemma zsum_first lo hi f :
  lo < hi -> zsum K lo hi f = (f lo + zsum K (lo + 1)%Z hi f)%K.
Proof.
  intros H. rewrite (zsum_split lo (lo + 1) hi) by lia. now rewrite zsum_one.
Qed.

(** Taking one term out of a sum. *)
Lemma zsum_remove lo hi m f :
  lo <= m < hi ->
  zsum K lo hi f = (f m + zsum K lo hi (fun j => if j =? m then 0%K else f j))%K.
Proof.
  intros Hm.
  rewrite (zsum_split lo m hi f), (zsum_first m hi f) by lia.
  rewrite (zsum_split lo m hi (fun j => if j =? m then 0%K else f j)) by lia.
  rewrite (zsum_first m hi (fun j => if j =? m then 0%K else f j)) by lia.
  rewrite Z.eqb_refl.
  rewrite (zsum_ext lo m (fun j => if j =? m then 0%K else f j) f).
  2:{ intros j Hj. destruct (Z.eqb_spec j m); [lia | reflexivity]. }
  rewrite (zsum_ext (m + 1) hi (fun j => if j =? m then 0%K else f j) f).
  2:{ intros j Hj. destruct (Z.eqb_spec j m); [lia | reflexivity]. }
  ring.
Qed.

Lemma zsum_exchange lo hi lo' hi' (F : Z -> Z -> K) :
  zsum K lo hi (fun i => zsum K lo' hi' (fun j => F i j))
  = zsum K lo' hi' (fun j => zsum K lo hi (fun i => F i j)).
Proof.
  destruct (Z_lt_le_dec hi lo) as [Hlt | Hle].
  { rewrite zsum_none by lia. symmetry. apply zsum_zero.
    intros j _. apply zsum_none. lia. }
  revert hi Hle. apply range_ind.
  - rewrite zsum_none by lia. symmetry. apply zsum_zero.
    intros j _. apply zsum_none. lia.
  - intros hi Hle IH. rewrite (zsum_last lo (hi + 1)) by lia.
    replace (hi + 1 - 1) with hi by lia. rewrite IH, <- zsum_add.
    apply zsum_ext. intros j _. rewrite (zsum_last lo (hi + 1)) by lia.
    now replace (hi + 1 - 1) with hi by lia.
Qed.

Lemma zsum_le lo hi f g :
  (forall j, lo <= j < hi -> (f j <= g j)%K) -> (zsum K lo hi f <= zsum K lo hi g)%K.
Proof.
  destruct (Z_lt_le_dec hi lo) as [Hlt | Hle].
  { intros _. rewrite !zsum_none by lia. apply fle_refl. }
  revert hi Hle. apply (range_ind (fun hi =>
    (forall j, lo <= j < hi -> (f j <= g j)%K) ->
    (zsum K lo hi f <= zsum K lo hi g)%K)).
  - intros _. rewrite !zsum_none by lia. apply fle_refl.
  - intros hi Hle IH H. rewrite !(zsum_last lo (hi + 1)) by lia.
    replace (hi + 1 - 1) with hi by lia. apply fle_add.
    + apply IH. intros j Hj. apply H. lia.
    + apply H. lia.
Qed.

Lemma zsum_nonneg lo hi f :
  (forall j, lo <= j < hi -> (0 <= f j)%K) -> (0 <= zsum K lo hi f)%K.
Proof.
  intros H. rewrite <- (zsum_zero lo hi (fun _ => 0%K)) by reflexivity.
  now apply zsum_le.
Qed.

End Sums.

(** ** Reading and writing the band *)

Section Band.
Variable K : Scalar.
Add Field Kfield_band : (F_field K).
Import BandedSystem LUSpec.
Implicit Types A : BandedSystem.t K.

Lemma same_shape_refl A : allocated A -> same_shape A A.
Proof.
  unfold same_shape. auto.
Qed.

Lemma same_shape_trans A A' A'' :
  same_shape A A' -> same_shape A' A'' -> same_shape A A''.
Proof.
  unfold same_shape. intros (? & ? & ? & ?) (? & ? & ? & ?).
  split; [congruence | split; [congruence | split; [congruence | assumption]]].
Qed.

Lemma in_band_shape A A' i j : same_shape A A' -> in_band A' i j = in_band A i j.
Proof.
  intros (HN & Hp & Hq & _). unfold in_band. now rewrite HN, Hp, Hq.
Qed.

Lemma put_allocated A i j v : allocated A -> same_shape A (put A i j v).
Proof.
  intros (HN & Hp & Hq & d & Hd & HL). unfold same_shape, allocated.
  cbn [put N lowerBw upperBw ptrData]. rewrite Hd. cbn [option_map].
  repeat split; auto. eexists; split; [reflexivity |]. now rewrite zset_length.
Qed.

Lemma mat_in_band A i j : in_band A i j = true -> mat A i j = get A i j.
Proof.
  intros H. unfold mat. now rewrite H.
Qed.

Lemma mat_out_band A i j : in_band A i j = false -> mat A i j = 0%K.
Proof.
  intros H. unfold mat. now rewrite H.
Qed.

Lemma get_put A i j v i' j' :
  allocated A -> in_band A i j = true -> in_band A i' j' = true ->
  get (put A i j v) i' j' = if (i' =? i) && (j' =? j) then v else get A i' j'.
Proof.
  intros (HN & Hp & Hq & d & Hd & HL) Hb Hb'.
  pose proof (offset_range K A i j Hb) as Hr.
  apply in_band_spec in Hb, Hb'.
  unfold get, buf. cbn [put ptrData]. rewrite Hd. cbn [option_map].
  change (offset (put A i j v) i' j') with (offset A i' j').
  destruct (Z.eqb_spec i' i) as [-> | Hi]; [destruct (Z.eqb_spec j' j) as [-> | Hj] |];
    cbn [andb].
  - apply zget_zset_same. lia.
  - apply zget_zset_other. intros E.
    destruct (offset_inj K A i j i j') as [_ ?]; auto; lia.
  - apply zget_zset_other. intros E.
    destruct (offset_inj K A i j i' j') as [? _]; auto; lia.
Qed.

Lemma mat_put A i j v i' j' :
  allocated A -> in_band A i j = true ->
  mat (put A i j v) i' j' = if (i' =? i) && (j' =? j) then v else mat A i' j'.
Proof.
  intros HA Hb. unfold mat.
  rewrite (in_band_shape A (put A i j v)) by now apply put_allocated.
  destruct (in_band A i' j') eqn:Hb'.
  - now apply get_put.
  - destruct (Z.eqb_spec i' i) as [-> | Hi]; [destruct (Z.eqb_spec j' j) as [-> | Hj] |];
      cbn [andb]; auto. congruence.
Qed.

Lemma mat_outside A i j :
  ~ (0 <= i < N A /\ 0 <= j < N A /\ - upperBw A <= i - j <= lowerBw A) ->
  mat A i j = 0%K.
Proof.
  intros H. apply mat_out_band. destruct (in_band A i j) eqn:E; auto.
  apply in_band_spec in E. contradiction.
Qed.

(** A guarded write: when the guard skips the write, the entry already holds
    the value. *)
Lemma guarded_put A (g : bool) i j v :
  allocated A -> in_band A i j = true ->
  (g = false -> mat A i j = v) ->
  let A' := if g then put A i j v else A in
  same_shape A A' /\
  forall i' j', mat A' i' j' = if (i' =? i) && (j' =? j) then v else mat A i' j'.
Proof.
  intros HA Hb Hg. destruct g; cbn zeta.
  - split; [now apply put_allocated |]. intros i' j'. now apply mat_put.
  - split; [now apply same_shape_refl |]. intros i' j'.
    destruct (Z.eqb_spec i' i) as [-> | Hi]; [destruct (Z.eqb_spec j' j) as [-> | Hj] |];
      cbn [andb]; auto.
Qed.

(** The first inner loop of [factorStep]: the column [k] below the pivot is
    divided by the pivot. *)
Lemma scale_column A k :
  allocated A -> 0 <= k <= N A - 2 ->
  let iM := Z.min (k + lowerBw A) (N A - 1) in
  let c := get A k k in
  let A1 := for_le (k + 1) iM (fun i A =>
              if nonzero (get A i k) then put A i k (get A i k / c)%K else A) A in
  same_shape A A1 /\
  forall i j, mat A1 i j = if (j =? k) && (k <? i) then (mat A i k / c)%K
                           else mat A i j.
Proof.
  intros HA Hk iM c A1.
  assert (Hp : 0 <= lowerBw A) by apply HA.
  assert (Hq : 0 <= upperBw A) by apply HA.
  assert (Inv : same_shape A A1 /\
                forall i j, mat A1 i j =
                   if (j =? k) && (k <? i) && (i <? iM + 1)
                   then (mat A i k / c)%K else mat A i j).
  { unfold A1.
    apply (for_le_inv _ _ (fun i0 A' => same_shape A A' /\
             forall i j, mat A' i j =
                if (j =? k) && (k <? i) && (i <? i0)
                then (mat A i k / c)%K else mat A i j)); [lia | |].
    - split; [now apply same_shape_refl |]. intros i j. zbool.
    - intros i A' Hi (HS & HM).
      assert (Hb : in_band A' i k = true).
      { rewrite (in_band_shape A A' i k HS). apply in_band_spec. lia. }
      assert (Eg : get A' i k = mat A i k).
      { rewrite <- (mat_in_band A' i k Hb), HM. zbool. }
      destruct (guarded_put A' (nonzero (get A' i k)) i k (get A' i k / c)%K)
        as [HS' HM']; [apply HS | exact Hb | |].
      + intros Hz. apply nonzero_false in Hz.
        rewrite (mat_in_band A' i k Hb), Hz. now rewrite fdiv_0_l.
      + split; [now apply same_shape_trans with A' |].
        intros i' j'. rewrite HM', HM, Eg. zbool. }
  destruct Inv as [HS HM]. split; [exact HS |].
  intros i j. rewrite HM. zbool.
  subst j. rewrite (mat_outside A i k) by lia. now rewrite fdiv_0_l.
Qed.

(** The innermost loop of [factorStep]: the column [j] after the pivot loses
    the multiples of the entry [cV] of the row of the pivot. *)
Lemma update_column A k j cV :
  allocated A -> 0 <= k <= N A - 2 ->
  k < j <= Z.min (k + upperBw A) (N A - 1) ->
  let iM := Z.min (k + lowerBw A) (N A - 1) in
  let A' := for_le (k + 1) iM (fun i A =>
              if nonzero (get A i k)
              then put A i j (get A i j - get A i k * cV)%K
              else A) A in
  same_shape A A' /\
  forall i' j', mat A' i' j' =
    if (j' =? j) && (k <? i') && (i' <=? iM)
    then (mat A i' j - mat A i' k * cV)%K else mat A i' j'.
Proof.
  intros HA Hk Hj iM A'.
  assert (Hp : 0 <= lowerBw A) by apply HA.
  assert (Hq : 0 <= upperBw A) by apply HA.
  assert (Inv : same_shape A A' /\
                forall i' j', mat A' i' j' =
                   if (j' =? j) && (k <? i') && (i' <? iM + 1)
                   then (mat A i' j - mat A i' k * cV)%K else mat A i' j').
  { unfold A'.
    apply (for_le_inv _ _ (fun i0 A' => same_shape A A' /\
             forall i' j', mat A' i' j' =
                if (j' =? j) && (k <? i') && (i' <? i0)
                then (mat A i' j - mat A i' k * cV)%K else mat A i' j')); [lia | |].
    - split; [now apply same_shape_refl |]. intros i' j'. zbool.
    - intros i A0 Hi (HS & HM).
      assert (Hbk : in_band A0 i k = true).
      { rewrite (in_band_shape A A0 i k HS). apply in_band_spec. lia. }
      assert (Hbj : in_band A0 i j = true).
      { rewrite (in_band_shape A A0 i j HS). apply in_band_spec. lia. }
      assert (Ek : get A0 i k = mat A i k).
      { rewrite <- (mat_in_band A0 i k Hbk), HM. zbool. }
      assert (Ej : get A0 i j = mat A i j).
      { rewrite <- (mat_in_band A0 i j Hbj), HM. zbool. }
      destruct (guarded_put A0 (nonzero (get A0 i k)) i j
                  (get A0 i j - get A0 i k * cV)%K)
        as [HS' HM']; [apply HS | exact Hbj | |].
      + intros Hz. apply nonzero_false in Hz.
        rewrite (mat_in_band A0 i j Hbj), Hz. ring.
      + split; [now apply same_shape_trans with A0 |].
        intros i' j'. rewrite HM', HM, Ek, Ej. zbool. }
  destruct Inv as [HS HM]. split; [exact HS |].
  intros i' j'. rewrite HM. zbool.
Qed.

(** The second loop of [factorStep]: the rows and columns after the pivot
    lose the product of their entry of the column [k] and of the row [k]. *)
Lemma update_trailing A k :
  allocated A -> 0 <= k <= N A - 2 ->
  let iM := Z.min (k + lowerBw A) (N A - 1) in
  let jM := Z.min (k + upperBw A) (N A - 1) in
  let A' := for_le (k + 1) jM (fun j A =>
              let cVl := get A k j in
              if nonzero cVl then
                for_le (k + 1) iM (fun i A =>
                  if nonzero (get A i k)
                  then put A i j (get A i j - get A i k * cVl)%K
                  else A) A
              else A) A in
  same_shape A A' /\
  forall i j, mat A' i j =
    if (k <? i) && (k <? j) then (mat A i j - mat A i k * mat A k j)%K
    else mat A i j.
Proof.
  intros HA Hk iM jM A'.
  assert (Hp : 0 <= lowerBw A) by apply HA.
  assert (Hq : 0 <= upperBw A) by apply HA.
  assert (Inv : same_shape A A' /\
                forall i j, mat A' i j =
                   if (k <? i) && (i <=? iM) && (k <? j) && (j <? jM + 1)
                   then (mat A i j - mat A i k * mat A k j)%K else mat A i j).
  { unfold A'.
    apply (for_le_inv _ _ (fun j0 A' => same_shape A A' /\
             forall i j, mat A' i j =
                if (k <? i) && (i <=? iM) && (k <? j) && (j <? j0)
                then (mat A i j - mat A i k * mat A k j)%K else mat A i j));
      [lia | |].
    - split; [now apply same_shape_refl |]. intros i j. zbool.
    - intros j A0 Hj (HS & HM).
      destruct HS as (EN & Ep & Eq & HA0).
      assert (Hbk : in_band A0 k j = true).
      { unfold in_band. rewrite EN, Ep, Eq. apply in_band_spec. lia. }
      assert (Ek : get A0 k j = mat A k j).
      { rewrite <- (mat_in_band A0 k j Hbk), HM. zbool. }
      cbn zeta. rewrite Ek.
      destruct (nonzero (mat A k j)) eqn:Hnz.
      + destruct (update_column A0 k j (mat A k j)) as [HS' HM'];
          [exact HA0 | lia | rewrite EN, Eq; lia |].
        rewrite EN, Ep in HS', HM'. fold iM in HS', HM'.
        split.
        * apply same_shape_trans with A0; [| exact HS']. unfold same_shape. auto.
        * intros i' j'. rewrite HM', !HM. zbool.
      + apply nonzero_false in Hnz. split; [unfold same_shape; auto |].
        intros i' j'. rewrite HM. zbool.
        replace j' with j by lia. rewrite Hnz. ring. }
  destruct Inv as [HS HM]. split; [exact HS |].
  intros i j. rewrite HM. zbool;
    solve [ rewrite (mat_outside A k j) by lia; ring
          | rewrite (mat_outside A i k) by lia; ring ].
Qed.

(** [factorStep] on the band is one step of the elimination. *)
Lemma factorStep_elim A k :
  allocated A -> 0 <= k <= N A - 2 ->
  same_shape A (factorStep k A) /\
  forall i j, mat (factorStep k A) i j = elim k (mat A) i j.
Proof.
  intros HA Hk. unfold factorStep.
  destruct (scale_column A k HA Hk) as [HS1 HM1]. cbn zeta in HS1, HM1.
  set (A1 := for_le (k + 1) (Z.min (k + lowerBw A) (N A - 1)) _ A) in *.
  destruct HS1 as (EN & Ep & Eq & HA1).
  destruct (update_trailing A1 k HA1 ltac:(lia)) as [HS2 HM2].
  cbn zeta in HS2, HM2. rewrite EN, Ep, Eq in HS2, HM2.
  cbn zeta. rewrite EN, Eq.
  split.
  - apply same_shape_trans with A1; [unfold same_shape; auto | exact HS2].
  - intros i j. rewrite HM2, !HM1. unfold elim.
    assert (Ec : get A k k = mat A k k).
    { symmetry. apply mat_in_band. apply in_band_spec.
      destruct HA as (? & ? & ? & _). lia. }
    rewrite Ec. zbool.
Qed.

End Band.

(** ** The elimination *)

Section Elimination.
Variable K : Scalar.
Add Field Kfield_elim : (F_field K).
Import LUSpec.
Implicit Types a S : Z -> Z -> K.

Lemma elim_before k S i m : m < k -> elim k S i m = S i m.
Proof.
  intros H. unfold elim. zbool.
Qed.

Lemma elim_above k S m j : m <= k -> elim k S m j = S m j.
Proof.
  intros H. unfold elim. zbool.
Qed.

Lemma elim_pivot_column k S i : k < i -> elim k S i k = (S i k / S k k)%K.
Proof.
  intros H. unfold elim. zbool.
Qed.

Lemma elim_trailing k S i j :
  k < i -> k < j -> elim k S i j = (S i j - S i k / S k k * S k j)%K.
Proof.
  intros Hi Hj. unfold elim. zbool.
Qed.

Lemma lu_init n a : lu_upto n 0 a a.
Proof.
  intros i j Hi Hj. rewrite zsum_none by lia.
  destruct (Z.ltb_spec j 0); [lia |]. cbn [andb]. ring.
Qed.

Lemma lu_step n k a S S' :
  0 <= k < n -> S k k <> 0%K ->
  (forall i j, S' i j = elim k S i j) ->
  lu_upto n k a S -> lu_upto n (k + 1) a S'.
Proof.
  intros Hk Hpiv HS' H i j Hi Hj. rewrite (H i j Hi Hj).
  destruct (Z_le_gt_dec (Z.min i j) k) as [Hmin | Hmin].
  - replace (Z.min (Z.min i j) (k + 1)) with (Z.min (Z.min i j) k) by lia.
    f_equal.
    + apply zsum_ext. intros m Hm. rewrite !HS'.
      rewrite elim_before, elim_above by lia. reflexivity.
    + rewrite !HS'.
      destruct (Z.ltb_spec j k); destruct (Z.ltb_spec j i);
        destruct (Z.ltb_spec j (k + 1)); cbn [andb]; try lia.
      * rewrite elim_before, elim_above by lia. reflexivity.
      * rewrite elim_before by lia. reflexivity.
      * replace j with k by lia. rewrite elim_pivot_column, elim_above by lia.
        now rewrite fdiv_mul_cancel.
      * rewrite elim_above by lia. reflexivity.
      * rewrite elim_above by lia. reflexivity.
  - replace (Z.min (Z.min i j) (k + 1)) with (k + 1) by lia.
    replace (Z.min (Z.min i j) k) with k by lia.
    rewrite (zsum_last K 0 (k + 1)) by lia. replace (k + 1 - 1) with k by lia.
    rewrite (zsum_ext K 0 k (fun m => (S' i m * S' m j)%K)
                      (fun m => (S i m * S m j)%K)).
    2:{ intros m Hm. rewrite !HS'. rewrite elim_before, elim_above by lia.
        reflexivity. }
    rewrite !HS'.
    destruct (Z.ltb_spec j k); destruct (Z.ltb_spec j (k + 1)); cbn [andb]; try lia.
    rewrite elim_pivot_column, elim_above, elim_trailing by lia. ring.
Qed.

(** Once every pivot is done the matrix is the product of its factors. *)
Lemma lu_product n k a S :
  n - 1 <= k -> lu_upto n k a S ->
  forall i j, 0 <= i < n -> 0 <= j < n ->
    a i j = zsum K 0 n (fun m => (lower S i m * upper S m j)%K).
Proof.
  intros Hk H i j Hi Hj. rewrite (H i j Hi Hj).
  replace (Z.min (Z.min i j) k) with (Z.min i j) by lia.
  rewrite (zsum_split K 0 (Z.min i j) n) by lia.
  rewrite (zsum_first K (Z.min i j) n) by lia.
  rewrite (zsum_zero K (Z.min i j + 1) n).
  2:{ intros m Hm. unfold lower, upper. zbool; ring. }
  rewrite (zsum_ext K 0 (Z.min i j) (fun m => (lower S i m * upper S m j)%K)
                    (fun m => (S i m * S m j)%K)).
  2:{ intros m Hm. unfold lower, upper. zbool. }
  unfold lower, upper.
  destruct (Z.ltb_spec j k); destruct (Z.ltb_spec j i); cbn [andb]; try lia.
  - replace (Z.min i j) with j by lia. zbool; ring.
  - replace (Z.min i j) with i by lia. zbool; ring.
  - replace (Z.min i j) with i by lia. zbool; ring.
Qed.

(** *** Dominance of the diagonal *)

Lemma dominant_pivot n k S : 0 <= k < n -> dominant_from n k S -> S k k <> 0%K.
Proof.
  intros Hk H. apply fabs_pos_nonzero.
  apply fle_lt_trans with
    (zsum K k n (fun j => if j =? k then 0%K else fabs (S k j))).
  - apply zsum_nonneg. intros j _. destruct (j =? k); [apply fle_refl |].
    apply fabs_nonneg.
  - apply H. lia.
Qed.

Lemma dominated_pivot n k S : 0 <= k < n -> dominated n k S -> S k k <> 0%K.
Proof.
  intros Hk [H | H].
  - now apply dominant_pivot with n.
  - now apply (dominant_pivot n k (fun i j => S j i)).
Qed.

(** One step of the elimination keeps the diagonal dominant on what is
    left. *)
Lemma dominant_step n k S S' :
  0 <= k < n -> dominant_from n k S ->
  (forall i j, k < i < n -> k < j < n ->
     S' i j = (S i j - S i k / S k k * S k j)%K) ->
  dominant_from n (k + 1) S'.
Proof.
  intros Hk H HS' i Hi.
  pose proof (dominant_pivot n k S Hk H) as Hpiv.
  set (m := (S i k / S k k)%K).
  assert (Em : (m * S k k)%K = S i k) by (unfold m; now apply fdiv_mul_cancel).
  set (g := fun j => if j =? i then 0%K else fabs (S i j)).
  set (gk := fun j => if j =? i then 0%K else fabs (S k j)).
  set (A1 := zsum K (k + 1) n g).
  set (B1 := zsum K (k + 1) n gk).
  (* the row [i] before the step *)
  assert (Hi0 : (fabs (S i k) + A1 < fabs (S i i))%K).
  { pose proof (H i ltac:(lia)) as Hr. fold g in Hr.
    rewrite (zsum_first K k n g) in Hr by lia. unfold g at 1 in Hr.
    destruct (Z.eqb_spec k i); [lia | exact Hr]. }
  (* the row of the pivot *)
  assert (Hk0 : (fabs (S k i) + B1 <= fabs (S k k))%K).
  { pose proof (H k ltac:(lia)) as Hr.
    rewrite (zsum_first K k n) in Hr by lia. rewrite Z.eqb_refl in Hr.
    rewrite (zsum_ext K (k + 1) n (fun j => if j =? k then 0%K else fabs (S k j))
                      (fun j => fabs (S k j))) in Hr.
    2:{ intros j Hj. destruct (Z.eqb_spec j k); [lia | reflexivity]. }
    rewrite (zsum_remove K (k + 1) n i (fun j => fabs (S k j))) in Hr by lia.
    fold gk in Hr. fold B1 in Hr. apply flt_le.
    now replace (0 + (fabs (S k i) + B1))%K with (fabs (S k i) + B1)%K in Hr by ring. }
  (* the row [i] after the step *)
  assert (HT : (zsum K (k + 1) n (fun j => if j =? i then 0%K else fabs (S' i j))
                <= A1 + fabs m * B1)%K).
  { unfold A1, B1. rewrite <- zsum_scale, <- zsum_add. apply zsum_le.
    intros j Hj. unfold g, gk. destruct (Z.eqb_spec j i) as [-> | Hne].
    - replace (0 + fabs m * 0)%K with (0 : K)%K by ring. apply fle_refl.
    - rewrite HS' by lia. fold m. rewrite <- fabs_mul. apply fabs_triangle_sub. }
  assert (HD : (fabs (S i i) - fabs m * fabs (S k i) <= fabs (S' i i))%K).
  { rewrite HS' by lia. fold m. rewrite <- fabs_mul. apply fabs_sub_lower. }
  assert (HM : (fabs m * (fabs (S k i) + B1) <= fabs (S i k))%K).
  { rewrite <- Em, fabs_mul. apply fle_mul_l; [apply fabs_nonneg | exact Hk0]. }
  apply fle_lt_trans with (A1 + fabs m * B1)%K; [exact HT |].
  apply flt_le_trans with (fabs (S i i) - fabs m * fabs (S k i))%K; [| exact HD].
  assert (HX : (A1 + fabs m * B1 + fabs m * fabs (S k i) < fabs (S i i))%K).
  { apply fle_lt_trans with (fabs (S i k) + A1)%K; [| exact Hi0].
    replace (A1 + fabs m * B1 + fabs m * fabs (S k i))%K
      with (fabs m * (fabs (S k i) + B1) + A1)%K by ring.
    now apply fle_add_r. }
  apply (flt_add_r K _ _ (- (fabs m * fabs (S k i)))%K) in HX.
  replace (A1 + fabs m * B1 + fabs m * fabs (S k i) + - (fabs m * fabs (S k i)))%K
    with (A1 + fabs m * B1)%K in HX by ring.
  now replace (fabs (S i i) + - (fabs m * fabs (S k i)))%K
    with (fabs (S i i) - fabs m * fabs (S k i))%K in HX by ring.
Qed.

Lemma dominated_step n k S S' :
  0 <= k < n -> dominated n k S ->
  (forall i j, S' i j = elim k S i j) ->
  dominated n (k + 1) S'.
Proof.
  intros Hk Hd HS'.
  pose proof (dominated_pivot n k S Hk Hd) as Hpiv.
  destruct Hd as [H | H]; [left | right].
  - apply (dominant_step n k S S' Hk H).
    intros i j Hi Hj. rewrite HS'. apply elim_trailing; lia.
  - apply (dominant_step n k (fun i j => S j i) (fun i j => S' j i) Hk H).
    intros i j Hi Hj. rewrite HS', elim_trailing by lia. field. exact Hpiv.
Qed.

(** *** [factorizeLU] *)

Import BandedSystem.
Implicit Types A : BandedSystem.t K.

Lemma factorizeLU_steps A : factorizeLU A = for_le 0 (N A - 2) (@factorStep K) A.
Proof.
  reflexivity.
Qed.

Lemma diag_dominant_rows A :
  BandedSpec.diag_dominant A = true -> dominant_from (N A) 0 (mat A).
Proof.
  intros H i Hi. unfold BandedSpec.diag_dominant in H.
  assert (G : forall k, 0 <= k <= N A ->
            for_lt 0 k (fun i ok => ok && BandedSpec.row_dominant A i) true = true ->
            forall i, 0 <= i < k -> BandedSpec.row_dominant A i = true).
  { intros k Hk.
    apply (for_lt_inv _ _ (fun k ok => ok = true ->
             forall i, 0 <= i < k -> BandedSpec.row_dominant A i = true)); [lia | |].
    - intros _ i0 Hi0. lia.
    - intros j ok Hj IH Hok i0 Hi0. apply andb_true_iff in Hok.
      destruct Hok as [Hok Hrow].
      destruct (Z.eq_dec i0 j) as [-> | Hne]; [exact Hrow |]. apply IH; [exact Hok | lia]. }
  exact (G (N A) ltac:(lia) H i Hi).
Qed.

(** After [factorizeLU] on a matrix with a dominant diagonal the band holds
    the two factors and no pivot is zero. *)
Lemma factorizeLU_factors A :
  allocated A -> dominated (N A) 0 (mat A) ->
  same_shape A (factorizeLU A) /\
  lu_upto (N A) (N A - 1) (mat A) (mat (factorizeLU A)) /\
  forall i, 0 <= i < N A -> mat (factorizeLU A) i i <> 0%K.
Proof.
  intros HA Hd. rewrite factorizeLU_steps.
  assert (HN : 1 <= N A) by apply HA.
  assert (Inv : same_shape A (for_le 0 (N A - 2) (@factorStep K) A) /\
                lu_upto (N A) (N A - 2 + 1) (mat A)
                        (mat (for_le 0 (N A - 2) (@factorStep K) A)) /\
                dominated (N A) (N A - 2 + 1) (mat (for_le 0 (N A - 2) (@factorStep K) A)) /\
                forall i, 0 <= i < N A - 2 + 1 ->
                  mat (for_le 0 (N A - 2) (@factorStep K) A) i i <> 0%K).
  { apply (for_le_inv _ _ (fun k A' => same_shape A A' /\
             lu_upto (N A) k (mat A) (mat A') /\
             dominated (N A) k (mat A') /\
             forall i, 0 <= i < k -> mat A' i i <> 0%K)); [lia | |].
    - split; [now apply same_shape_refl |]. split; [apply lu_init |].
      split; [exact Hd |]. intros i Hi. lia.
    - intros k A' Hk (HS & HLU & HD & Hdiag).
      destruct HS as (EN & Ep & Eq & HA').
      destruct (factorStep_elim K A' k HA' ltac:(lia)) as [HS' HM'].
      pose proof (dominated_pivot (N A) k (mat A') ltac:(lia) HD) as Hpiv.
      split; [| split; [| split]].
      + apply same_shape_trans with A'; [unfold same_shape; auto | exact HS'].
      + apply (lu_step (N A) k (mat A) (mat A')); auto. lia.
      + apply (dominated_step (N A) k (mat A')); auto. lia.
      + intros i Hi. rewrite HM', elim_above by lia.
        destruct (Z.eq_dec i k) as [-> | Hne]; [exact Hpiv |]. apply Hdiag. lia. }
  replace (N A - 2 + 1) with (N A - 1) in Inv by lia.
  destruct Inv as (HS & HLU & HD & Hdiag).
  split; [exact HS |]. split; [exact HLU |].
  intros i Hi. destruct (Z.eq_dec i (N A - 1)) as [-> | Hne].
  - apply (dominated_pivot (N A) (N A - 1)); [lia | exact HD].
  - apply Hdiag. lia.
Qed.

End Elimination.

(** ** The substitution sweeps *)

Section SweepProofs.
Variable K : Scalar.
Add Field Kfield_sweeps : (F_field K).
Import BandedSystem LUSpec.
Context {R : Type} {RO : RowOps K R}.
Implicit Types b : list R.
Implicit Types T : Z -> Z -> K.

Lemma cell_zset b i r i' c :
  0 <= i < Z.of_nat (length b) ->
  cell (zset b i r) i' c = if i' =? i then row_at r c else cell b i' c.
Proof.
  intros Hi. unfold cell, row. rewrite zget_zset by exact Hi.
  now destruct (i' =? i).
Qed.

Lemma cell_row_axpy x b i j i' c :
  0 <= i < Z.of_nat (length b) -> (c < row_width)%nat ->
  cell (row_axpy x b i j) i' c
  = if i' =? i then (cell b i c - x * cell b j c)%K else cell b i' c.
Proof.
  intros Hi Hc. unfold row_axpy. rewrite cell_zset by exact Hi.
  destruct (i' =? i); [| reflexivity].
  now rewrite row_at_sub, row_at_scale.
Qed.

Lemma column_op_spec (coef : Z -> K) j lo hi b :
  0 <= lo -> hi < Z.of_nat (length b) -> j < lo \/ hi < j ->
  length (column_op coef j lo hi b) = length b /\
  forall i c, (c < row_width)%nat ->
    cell (column_op coef j lo hi b) i c
    = if (lo <=? i) && (i <=? hi) then (cell b i c - coef i * cell b j c)%K
      else cell b i c.
Proof.
  intros Hlo Hhi Hj. unfold column_op.
  destruct (Z_lt_le_dec hi lo) as [Hnone | Hsome].
  { rewrite for_le_none by lia. split; [reflexivity |]. intros i c Hc. zbool. }
  assert (Inv : let b' := for_le lo hi (fun i b =>
                   if nonzero (coef i) then row_axpy (coef i) b i j else b) b in
                length b' = length b /\
                forall i c, (c < row_width)%nat ->
                  cell b' i c
                  = if (lo <=? i) && (i <? hi + 1)
                    then (cell b i c - coef i * cell b j c)%K else cell b i c).
  { apply (for_le_inv _ _ (fun i0 b' => length b' = length b /\
             forall i c, (c < row_width)%nat ->
               cell b' i c
               = if (lo <=? i) && (i <? i0)
                 then (cell b i c - coef i * cell b j c)%K else cell b i c)); [lia | |].
    - split; [reflexivity |]. intros i c Hc. zbool.
    - intros i b' Hi (HL & HC). destruct (nonzero (coef i)) eqn:Hnz.
      + split; [now rewrite row_axpy_length |]. intros i' c Hc.
        rewrite cell_row_axpy by (auto; lia). rewrite !HC by exact Hc. zbool.
      + apply nonzero_false in Hnz. split; [exact HL |]. intros i' c Hc.
        rewrite HC by exact Hc. zbool. replace i' with i by lia. rewrite Hnz. ring. }
  cbn zeta in Inv. destruct Inv as [HL HC]. split; [exact HL |].
  intros i c Hc. rewrite HC by exact Hc. zbool.
Qed.

Lemma divide_row_length dg j b : length (divide_row dg j b) = length b.
Proof.
  unfold divide_row. destruct dg; [apply zset_length | reflexivity].
Qed.

Lemma divide_row_other dg j b i c : i <> j -> cell (divide_row dg j b) i c = cell b i c.
Proof.
  intros H. unfold divide_row. destruct dg as [d |]; [| reflexivity].
  unfold cell, row. now rewrite zget_zset_other by auto.
Qed.

Lemma divide_row_same dg j b c :
  0 <= j < Z.of_nat (length b) -> (c < row_width)%nat -> diag_of dg j <> 0%K ->
  (diag_of dg j * cell (divide_row dg j b) j c)%K = cell b j c.
Proof.
  intros Hj Hc Hd. unfold divide_row, diag_of in *. destruct dg as [d |].
  - rewrite cell_zset by exact Hj. rewrite Z.eqb_refl, row_at_div by exact Hc.
    fold (cell b j c). field. exact Hd.
  - ring.
Qed.

(** The upward sweep solves the lower triangular system of the
    coefficients [T] and of the diagonal [diag_of dg]. *)
Lemma up_sweep_spec n w coef dg T b :
  Z.of_nat (length b) = n -> 0 <= w ->
  (forall i j, 0 <= j < i -> i < n -> i <= j + w -> coef i j = T i j) ->
  (forall i j, 0 <= j < i -> i < n -> j + w < i -> T i j = 0%K) ->
  (forall j, 0 <= j < n -> diag_of dg j <> 0%K) ->
  length (up_sweep n w coef dg b) = length b /\
  forall i c, 0 <= i < n -> (c < row_width)%nat ->
    cell b i c = (diag_of dg i * cell (up_sweep n w coef dg b) i c
                  + zsum K 0 i (fun m => T i m * cell (up_sweep n w coef dg b) m c))%K.
Proof.
  intros HL Hw HT1 HT0 Hdg. unfold up_sweep.
  assert (Inv : let y := for_le 0 (n - 1) (fun j b =>
                   let b := divide_row dg j b in
                   let iM := Z.min (j + w) (n - 1) in
                   column_op (fun i => coef i j) j (j + 1) iM b) b in
                length y = length b /\
                forall i c, 0 <= i < n -> (c < row_width)%nat ->
                  cell b i c
                  = ((if i <? n - 1 + 1 then diag_of dg i * cell y i c else cell y i c)
                     + zsum K 0 (Z.min i (n - 1 + 1)) (fun m => T i m * cell y m c))%K).
  { apply (for_le_inv _ _ (fun j b' => length b' = length b /\
             forall i c, 0 <= i < n -> (c < row_width)%nat ->
               cell b i c
               = ((if i <? j then diag_of dg i * cell b' i c else cell b' i c)
                  + zsum K 0 (Z.min i j) (fun m => T i m * cell b' m c))%K)); [lia | |].
    - split; [reflexivity |]. intros i c Hi Hc.
      destruct (Z.ltb_spec i 0); [lia |]. rewrite zsum_none by lia. ring.
    - intros j b' Hj (HL' & HC). cbn zeta.
      set (b1 := divide_row dg j b').
      assert (L1 : length b1 = length b') by apply divide_row_length.
      destruct (column_op_spec (fun i => coef i j) j (j + 1)
                  (Z.min (j + w) (n - 1)) b1) as [L2 C2]; [lia | lia | lia |].
      set (b2 := column_op _ _ _ _ b1) in *.
      split; [congruence |]. intros i c Hi Hc.
      assert (Eo : forall m, m <> j -> cell b1 m c = cell b' m c).
      { intros m Hm. unfold b1. now apply divide_row_other. }
      assert (E1 : forall m, m <> j -> cell b2 m c = cell b' m c \/
                    (j < m /\ cell b2 m c = (cell b' m c - T m j * cell b1 j c)%K)).
      { intros m Hm. rewrite C2 by exact Hc. rewrite (Eo m Hm).
        destruct (Z.leb_spec (j + 1) m); destruct (Z.leb_spec m (Z.min (j + w) (n - 1)));
          cbn [andb]; auto.
        right. split; [lia |]. rewrite HT1 by lia. reflexivity. }
      assert (Ej : cell b2 j c = cell b1 j c).
      { rewrite C2 by exact Hc. zbool. }
      assert (Elow : forall m, 0 <= m < j -> cell b2 m c = cell b' m c).
      { intros m Hm. destruct (E1 m ltac:(lia)) as [E | [Hlt _]]; [exact E | lia]. }
      assert (Ed : (diag_of dg j * cell b1 j c)%K = cell b' j c).
      { unfold b1. apply divide_row_same; [lia | exact Hc | apply Hdg; lia]. }
      rewrite (HC i c Hi Hc).
      destruct (Z.ltb_spec i j) as [Hij | Hij].
      + destruct (Z.ltb_spec i (j + 1)); [| lia].
        replace (Z.min i (j + 1)) with (Z.min i j) by lia.
        rewrite (Elow i) by lia. f_equal. apply zsum_ext. intros m Hm.
        rewrite (Elow m) by lia. reflexivity.
      + destruct (Z.eq_dec i j) as [-> | Hne].
        * destruct (Z.ltb_spec j (j + 1)); [| lia].
          replace (Z.min j (j + 1)) with (Z.min j j) by lia.
          rewrite Ej, Ed. f_equal. apply zsum_ext. intros m Hm.
          rewrite (Elow m) by lia. reflexivity.
        * destruct (Z.ltb_spec i (j + 1)); [lia |].
          replace (Z.min i (j + 1)) with (j + 1) by lia.
          replace (Z.min i j) with j by lia.
          rewrite (zsum_last K 0 (j + 1)) by lia. replace (j + 1 - 1) with j by lia.
          rewrite (zsum_ext K 0 j (fun m => (T i m * cell b2 m c)%K)
                            (fun m => (T i m * cell b' m c)%K)).
          2:{ intros m Hm. rewrite (Elow m) by lia. reflexivity. }
          rewrite Ej.
          assert (Ei : cell b2 i c = (cell b' i c - T i j * cell b1 j c)%K).
          { rewrite C2 by exact Hc. rewrite (Eo i Hne).
            destruct (Z.leb_spec (j + 1) i); [| lia].
            destruct (Z.leb_spec i (Z.min (j + w) (n - 1))); cbn [andb].
            - rewrite HT1 by lia. reflexivity.
            - rewrite (HT0 i j) by lia. ring. }
          rewrite Ei. ring. }
  cbn zeta in Inv. destruct Inv as [HL' HC]. split; [exact HL' |].
  intros i c Hi Hc. rewrite (HC i c Hi Hc).
  destruct (Z.ltb_spec i (n - 1 + 1)); [| lia].
  now replace (Z.min i (n - 1 + 1)) with i by lia.
Qed.

(** The downward sweep solves the upper triangular system of the
    coefficients [T] and of the diagonal [diag_of dg]. *)
Lemma down_sweep_spec n w coef dg T b :
  Z.of_nat (length b) = n -> 0 <= w ->
  (forall i j, 0 <= i < j -> j < n -> j - w <= i -> coef i j = T i j) ->
  (forall i j, 0 <= i < j -> j < n -> i < j - w -> T i j = 0%K) ->
  (forall j, 0 <= j < n -> diag_of dg j <> 0%K) ->
  length (down_sweep n w coef dg b) = length b /\
  forall i c, 0 <= i < n -> (c < row_width)%nat ->
    cell b i c = (diag_of dg i * cell (down_sweep n w coef dg b) i c
                  + zsum K (i + 1) n
                      (fun m => T i m * cell (down_sweep n w coef dg b) m c))%K.
Proof.
  intros HL Hw HT1 HT0 Hdg. unfold down_sweep.
  assert (Inv : let x := for_ge (n - 1) 0 (fun j b =>
                   let b := divide_row dg j b in
                   let iM := Z.max 0 (j - w) in
                   column_op (fun i => coef i j) j iM (j - 1) b) b in
                length x = length b /\
                forall i c, 0 <= i < n -> (c < row_width)%nat ->
                  cell b i c
                  = ((if 0 - 1 <? i then diag_of dg i * cell x i c else cell x i c)
                     + zsum K (Z.max (i + 1) (0 - 1 + 1)) n
                         (fun m => T i m * cell x m c))%K).
  { apply (for_ge_inv _ _ (fun j b' => length b' = length b /\
             forall i c, 0 <= i < n -> (c < row_width)%nat ->
               cell b i c
               = ((if j <? i then diag_of dg i * cell b' i c else cell b' i c)
                  + zsum K (Z.max (i + 1) (j + 1)) n
                      (fun m => T i m * cell b' m c))%K)); [lia | |].
    - split; [reflexivity |]. intros i c Hi Hc.
      destruct (Z.ltb_spec (n - 1) i); [lia |]. rewrite zsum_none by lia. ring.
    - intros j b' Hj (HL' & HC). cbn zeta.
      set (b1 := divide_row dg j b').
      assert (L1 : length b1 = length b') by apply divide_row_length.
      destruct (column_op_spec (fun i => coef i j) j (Z.max 0 (j - w)) (j - 1) b1)
        as [L2 C2]; [lia | lia | lia |].
      set (b2 := column_op _ _ _ _ b1) in *.
      split; [congruence |]. intros i c Hi Hc.
      assert (Eo : forall m, m <> j -> cell b1 m c = cell b' m c).
      { intros m Hm. unfold b1. now apply divide_row_other. }
      assert (Ej : cell b2 j c = cell b1 j c).
      { rewrite C2 by exact Hc. zbool. }
      assert (Ehigh : forall m, j < m -> cell b2 m c = cell b' m c).
      { intros m Hm. rewrite C2 by exact Hc. rewrite (Eo m) by lia. zbool. }
      assert (Ed : (diag_of dg j * cell b1 j c)%K = cell b' j c).
      { unfold b1. apply divide_row_same; [lia | exact Hc | apply Hdg; lia]. }
      rewrite (HC i c Hi Hc).
      destruct (Z.ltb_spec j i) as [Hji | Hji].
      + destruct (Z.ltb_spec (j - 1) i); [| lia].
        replace (Z.max (i + 1) (j - 1 + 1)) with (Z.max (i + 1) (j + 1)) by lia.
        rewrite (Ehigh i) by lia. f_equal. apply zsum_ext. intros m Hm.
        rewrite (Ehigh m) by lia. reflexivity.
      + destruct (Z.eq_dec i j) as [-> | Hne].
        * destruct (Z.ltb_spec (j - 1) j); [| lia].
          replace (Z.max (j + 1) (j - 1 + 1)) with (Z.max (j + 1) (j + 1)) by lia.
          rewrite Ej, Ed. f_equal. apply zsum_ext. intros m Hm.
          rewrite (Ehigh m) by lia. reflexivity.
        * destruct (Z.ltb_spec (j - 1) i); [lia |].
          replace (Z.max (i + 1) (j - 1 + 1)) with j by lia.
          replace (Z.max (i + 1) (j + 1)) with (j + 1) by lia.
          rewrite (zsum_first K j n) by lia.
          rewrite (zsum_ext K (j + 1) n (fun m => (T i m * cell b2 m c)%K)
                            (fun m => (T i m * cell b' m c)%K)).
          2:{ intros m Hm. rewrite (Ehigh m) by lia. reflexivity. }
          rewrite Ej.
          assert (Ei : cell b2 i c = (cell b' i c - T i j * cell b1 j c)%K).
          { rewrite C2 by exact Hc. rewrite (Eo i Hne).
            destruct (Z.leb_spec (Z.max 0 (j - w)) i);
              destruct (Z.leb_spec i (j - 1)); cbn [andb]; try lia.
            - rewrite HT1 by lia. reflexivity.
            - rewrite (HT0 i j) by lia. ring. }
          rewrite Ei. ring. }
  cbn zeta in Inv. destruct Inv as [HL' HC]. split; [exact HL' |].
  intros i c Hi Hc. rewrite (HC i c Hi Hc).
  destruct (Z.ltb_spec (0 - 1) i); [| lia].
  now replace (Z.max (i + 1) (0 - 1 + 1)) with (i + 1) by lia.
Qed.

End SweepProofs.

(** ** Triangular systems *)

Section Triangular.
Variable K : Scalar.
Add Field Kfield_tri : (F_field K).
Import LUSpec.
Implicit Types S T a : Z -> Z -> K.
Implicit Types u v d : Z -> K.

Lemma fmul_cancel_l (x y z : K) : x <> 0%K -> (x * y = x * z)%K -> y = z.
Proof.
  intros Hx H. replace y with (x * y / x)%K by (field; exact Hx).
  rewrite H. field. exact Hx.
Qed.

Lemma f1_nonzero : (1 : K)%K <> 0%K.
Proof.
  apply (F_1_neq_0 (F_field K)).
Qed.

(** The rows of the two factors, as sums. *)
Lemma lower_row_sum n S v i :
  0 <= i < n ->
  zsum K 0 n (fun m => (lower S i m * v m)%K)
  = (1 * v i + zsum K 0 i (fun m => S i m * v m))%K.
Proof.
  intros Hi. rewrite (zsum_split K 0 i n), (zsum_first K i n) by lia.
  rewrite (zsum_zero K (i + 1) n).
  2:{ intros m Hm. unfold lower. zbool. ring. }
  rewrite (zsum_ext K 0 i (fun m => (lower S i m * v m)%K) (fun m => (S i m * v m)%K)).
  2:{ intros m Hm. unfold lower. zbool. }
  unfold lower. zbool. ring.
Qed.

Lemma upper_row_sum n S v m :
  0 <= m < n ->
  zsum K 0 n (fun j => (upper S m j * v j)%K)
  = (S m m * v m + zsum K (m + 1) n (fun j => S m j * v j))%K.
Proof.
  intros Hm. rewrite (zsum_split K 0 m n), (zsum_first K m n) by lia.
  rewrite (zsum_zero K 0 m).
  2:{ intros j Hj. unfold upper. zbool. ring. }
  rewrite (zsum_ext K (m + 1) n (fun j => (upper S m j * v j)%K)
                    (fun j => (S m j * v j)%K)).
  2:{ intros j Hj. unfold upper. zbool. }
  unfold upper. zbool. ring.
Qed.

(** The columns of the two factors, as sums. *)
Lemma upper_col_sum n S v i :
  0 <= i < n ->
  zsum K 0 n (fun m => (upper S m i * v m)%K)
  = (S i i * v i + zsum K 0 i (fun m => S m i * v m))%K.
Proof.
  intros Hi. rewrite (zsum_split K 0 i n), (zsum_first K i n) by lia.
  rewrite (zsum_zero K (i + 1) n).
  2:{ intros m Hm. unfold upper. zbool. ring. }
  rewrite (zsum_ext K 0 i (fun m => (upper S m i * v m)%K) (fun m => (S m i * v m)%K)).
  2:{ intros m Hm. unfold upper. zbool. }
  unfold upper. zbool. ring.
Qed.

Lemma lower_col_sum n S v m :
  0 <= m < n ->
  zsum K 0 n (fun j => (lower S j m * v j)%K)
  = (1 * v m + zsum K (m + 1) n (fun j => S j m * v j))%K.
Proof.
  intros Hm. rewrite (zsum_split K 0 m n), (zsum_first K m n) by lia.
  rewrite (zsum_zero K 0 m).
  2:{ intros j Hj. unfold lower. zbool. ring. }
  rewrite (zsum_ext K (m + 1) n (fun j => (lower S j m * v j)%K)
                    (fun j => (S j m * v j)%K)).
  2:{ intros j Hj. unfold lower. zbool. }
  unfold lower. zbool. ring.
Qed.

(** A product of two factors applied to a vector, and its transpose. *)
Lemma product_factors n a L U v i :
  0 <= i < n ->
  (forall j, 0 <= j < n -> a i j = zsum K 0 n (fun m => (L i m * U m j)%K)) ->
  zsum K 0 n (fun j => (a i j * v j)%K)
  = zsum K 0 n (fun m => (L i m * zsum K 0 n (fun j => (U m j * v j)%K))%K).
Proof.
  intros Hi Ha.
  rewrite (zsum_ext K 0 n (fun j => (a i j * v j)%K)
             (fun j => zsum K 0 n (fun m => (L i m * (U m j * v j))%K))).
  2:{ intros j Hj. rewrite Ha by exact Hj.
      replace (zsum K 0 n (fun m => (L i m * U m j)%K) * v j)%K
        with (v j * zsum K 0 n (fun m => (L i m * U m j)%K))%K by ring.
      rewrite <- zsum_scale. apply zsum_ext. intros m _. ring. }
  rewrite zsum_exchange. apply zsum_ext. intros m _. now rewrite zsum_scale.
Qed.

Lemma product_factors_T n a L U v i :
  0 <= i < n ->
  (forall j, 0 <= j < n -> a j i = zsum K 0 n (fun m => (L j m * U m i)%K)) ->
  zsum K 0 n (fun j => (a j i * v j)%K)
  = zsum K 0 n (fun m => (U m i * zsum K 0 n (fun j => (L j m * v j)%K))%K).
Proof.
  intros Hi Ha.
  rewrite (zsum_ext K 0 n (fun j => (a j i * v j)%K)
             (fun j => zsum K 0 n (fun m => (U m i * (L j m * v j))%K))).
  2:{ intros j Hj. rewrite Ha by exact Hj.
      replace (zsum K 0 n (fun m => (L j m * U m i)%K) * v j)%K
        with (v j * zsum K 0 n (fun m => (L j m * U m i)%K))%K by ring.
      rewrite <- zsum_scale. apply zsum_ext. intros m _. ring. }
  rewrite zsum_exchange. apply zsum_ext. intros m _. now rewrite zsum_scale.
Qed.

(** A triangular system with a nonzero diagonal has at most one solution. *)
Lemma lower_unique n T d u v :
  (forall i, 0 <= i < n -> d i <> 0%K) ->
  (forall i, 0 <= i < n ->
     (d i * u i + zsum K 0 i (fun m => T i m * u m)
      = d i * v i + zsum K 0 i (fun m => T i m * v m))%K) ->
  forall i, 0 <= i < n -> u i = v i.
Proof.
  intros Hd H.
  assert (G : forall k, 0 <= k -> k <= n -> forall i, 0 <= i < k -> u i = v i).
  { apply (range_ind (fun k => k <= n -> forall i, 0 <= i < k -> u i = v i)).
    - intros _ i Hi. lia.
    - intros k Hk IH Hkn i Hi. destruct (Z.eq_dec i k) as [-> | Hne].
      + specialize (H k ltac:(lia)).
        rewrite (zsum_ext K 0 k (fun m => (T k m * u m)%K) (fun m => (T k m * v m)%K)) in H.
        2:{ intros m Hm. rewrite (IH ltac:(lia) m) by lia. reflexivity. }
        apply (fmul_cancel_l (d k)); [apply Hd; lia |].
        apply (f_equal (fun x => (x - zsum K 0 k (fun m => T k m * v m))%K)) in H.
        ring_simplify in H. exact H.
      + apply IH; lia. }
  intros i Hi. apply (G n); lia.
Qed.

Lemma upper_unique n T d u v :
  (forall i, 0 <= i < n -> d i <> 0%K) ->
  (forall i, 0 <= i < n ->
     (d i * u i + zsum K (i + 1) n (fun m => T i m * u m)
      = d i * v i + zsum K (i + 1) n (fun m => T i m * v m))%K) ->
  forall i, 0 <= i < n -> u i = v i.
Proof.
  intros Hd H.
  assert (G : forall k, 0 <= k -> k <= n -> forall i, n - k <= i < n -> 0 <= i -> u i = v i).
  { apply (range_ind (fun k => k <= n ->
             forall i, n - k <= i < n -> 0 <= i -> u i = v i)).
    - intros _ i Hi. lia.
    - intros k Hk IH Hkn i Hi Hi0. destruct (Z.eq_dec i (n - (k + 1))) as [E | Hne].
      + specialize (H i ltac:(lia)).
        rewrite (zsum_ext K (i + 1) n (fun m => (T i m * u m)%K)
                          (fun m => (T i m * v m)%K)) in H.
        2:{ intros m Hm. rewrite (IH ltac:(lia) m) by lia. reflexivity. }
        apply (fmul_cancel_l (d i)); [apply Hd; lia |].
        apply (f_equal (fun x => (x - zsum K (i + 1) n (fun m => T i m * v m))%K)) in H.
        ring_simplify in H. exact H.
      + apply IH; lia. }
  intros i Hi. apply (G n); lia.
Qed.

End Triangular.

(** ** [solve] and [solveAdj] on a factorized system *)

Section Solving.
Variable K : Scalar.
Add Field Kfield_solving : (F_field K).
Import BandedSystem LUSpec BandedSpec.
Context {R : Type} {RO : RowOps K R}.
Implicit Types A M : BandedSystem.t K.
Implicit Types B X Y : list R.

Lemma solve_sweeps M B :
  solve M B
  = down_sweep (N M) (upperBw M) (get M) (Some (fun j => get M j j))
      (up_sweep (N M) (lowerBw M) (get M) None B).
Proof.
  reflexivity.
Qed.

Lemma solveAdj_sweeps M B :
  solveAdj M B
  = down_sweep (N M) (lowerBw M) (fun i j => get M j i) None
      (up_sweep (N M) (upperBw M) (fun i j => get M j i)
                (Some (fun j => get M j j)) B).
Proof.
  reflexivity.
Qed.

Lemma rows_ext X Y :
  length X = length Y ->
  (forall i c, 0 <= i < Z.of_nat (length X) -> (c < row_width)%nat ->
     cell X i c = cell Y i c) ->
  X = Y.
Proof.
  intros HL H. apply (zget_ext _ row0); [exact HL |].
  intros i Hi. apply row_ext. intros c Hc. now apply H.
Qed.

Lemma get_mat M i j :
  0 <= i < N M -> 0 <= j < N M -> - upperBw M <= i - j <= lowerBw M ->
  get M i j = mat M i j.
Proof.
  intros Hi Hj Hb. symmetry. apply mat_in_band. apply in_band_spec. lia.
Qed.

(** [solve] runs the two substitutions of the factors that [M] holds. *)
Lemma factored_solve M B :
  allocated M -> Z.of_nat (length B) = N M ->
  (forall i, 0 <= i < N M -> mat M i i <> 0%K) ->
  length (solve M B) = length B /\
  forall i c, 0 <= i < N M -> (c < row_width)%nat ->
    cell B i c
    = zsum K 0 (N M) (fun m =>
        (lower (mat M) i m
         * zsum K 0 (N M) (fun j => (upper (mat M) m j * cell (solve M B) j c)%K))%K).
Proof.
  intros (HN & Hp & Hq & _) HL Hdiag. rewrite solve_sweeps.
  set (Y := up_sweep (N M) (lowerBw M) (get M) None B).
  destruct (up_sweep_spec K (N M) (lowerBw M) (get M) None (mat M) B) as [LY CY];
    auto.
  { intros i j Hj Hi Hw. apply get_mat; lia. }
  { intros i j Hj Hi Hw. apply mat_outside. lia. }
  { intros j _. apply f1_nonzero. }
  fold Y in LY, CY.
  set (X := down_sweep (N M) (upperBw M) (get M) (Some (fun j => get M j j)) Y).
  destruct (down_sweep_spec K (N M) (upperBw M) (get M) (Some (fun j => get M j j))
              (mat M) Y) as [LX CX]; auto.
  { lia. }
  { intros i j Hi Hj Hw. apply get_mat; lia. }
  { intros i j Hi Hj Hw. apply mat_outside. lia. }
  { intros j Hj. cbn [diag_of]. rewrite get_mat by lia. now apply Hdiag. }
  fold X in LX, CX.
  split; [congruence |]. intros i c Hi Hc.
  rewrite (zsum_ext K 0 (N M)
             (fun m => (lower (mat M) i m
                        * zsum K 0 (N M) (fun j => (upper (mat M) m j * cell X j c)%K))%K)
             (fun m => (lower (mat M) i m * cell Y m c)%K)).
  2:{ intros m Hm. f_equal.
      rewrite (upper_row_sum K (N M) (mat M) (fun j => cell X j c) m Hm).
      rewrite (CX m c Hm Hc). cbn [diag_of]. now rewrite get_mat by lia. }
  rewrite (lower_row_sum K (N M) (mat M) (fun m => cell Y m c) i Hi).
  now rewrite (CY i c Hi Hc).
Qed.

(** [solveAdj] runs the two substitutions of the transposed factors. *)
Lemma factored_solveAdj M B :
  allocated M -> Z.of_nat (length B) = N M ->
  (forall i, 0 <= i < N M -> mat M i i <> 0%K) ->
  length (solveAdj M B) = length B /\
  forall i c, 0 <= i < N M -> (c < row_width)%nat ->
    cell B i c
    = zsum K 0 (N M) (fun m =>
        (upper (mat M) m i
         * zsum K 0 (N M) (fun j => (lower (mat M) j m * cell (solveAdj M B) j c)%K))%K).
Proof.
  intros (HN & Hp & Hq & _) HL Hdiag. rewrite solveAdj_sweeps.
  set (Y := up_sweep (N M) (upperBw M) (fun i j => get M j i)
              (Some (fun j => get M j j)) B).
  destruct (up_sweep_spec K (N M) (upperBw M) (fun i j => get M j i)
              (Some (fun j => get M j j)) (fun i j => mat M j i) B) as [LY CY];
    auto.
  { intros i j Hj Hi Hw. apply get_mat; lia. }
  { intros i j Hj Hi Hw. apply mat_outside. lia. }
  { intros j Hj. cbn [diag_of]. rewrite get_mat by lia. now apply Hdiag. }
  fold Y in LY, CY.
  set (X := down_sweep (N M) (lowerBw M) (fun i j => get M j i) None Y).
  destruct (down_sweep_spec K (N M) (lowerBw M) (fun i j => get M j i) None
              (fun i j => mat M j i) Y) as [LX CX]; auto.
  { lia. }
  { intros i j Hi Hj Hw. apply get_mat; lia. }
  { intros i j Hi Hj Hw. apply mat_outside. lia. }
  { intros j _. apply f1_nonzero. }
  fold X in LX, CX.
  split; [congruence |]. intros i c Hi Hc.
  rewrite (zsum_ext K 0 (N M)
             (fun m => (upper (mat M) m i
                        * zsum K 0 (N M) (fun j => (lower (mat M) j m * cell X j c)%K))%K)
             (fun m => (upper (mat M) m i * cell Y m c)%K)).
  2:{ intros m Hm. f_equal.
      rewrite (lower_col_sum K (N M) (mat M) (fun j => cell X j c) m Hm).
      now rewrite (CX m c Hm Hc). }
  rewrite (upper_col_sum K (N M) (mat M) (fun m => cell Y m c) i Hi).
  rewrite (CY i c Hi Hc). cbn [diag_of]. now rewrite get_mat by lia.
Qed.

(** The two substitutions determine the rows. *)
Lemma factored_unique M X Y :
  Z.of_nat (length X) = N M -> length Y = length X ->
  (forall i, 0 <= i < N M -> mat M i i <> 0%K) ->
  (forall i c, 0 <= i < N M -> (c < row_width)%nat ->
     zsum K 0 (N M) (fun m =>
       (lower (mat M) i m
        * zsum K 0 (N M) (fun j => (upper (mat M) m j * cell X j c)%K))%K)
     = zsum K 0 (N M) (fun m =>
       (lower (mat M) i m
        * zsum K 0 (N M) (fun j => (upper (mat M) m j * cell Y j c)%K))%K)) ->
  X = Y.
Proof.
  intros HL HL' Hdiag H. apply rows_ext; [now symmetry |].
  intros i c Hi Hc. rewrite HL in Hi.
  apply (upper_unique K (N M) (mat M) (fun m => mat M m m)
           (fun j => cell X j c) (fun j => cell Y j c)); auto.
  intros m Hm. cbv beta.
  pose proof (upper_row_sum K (N M) (mat M) (fun j => cell X j c) m Hm) as EX.
  pose proof (upper_row_sum K (N M) (mat M) (fun j => cell Y j c) m Hm) as EY.
  cbv beta in EX, EY. rewrite <- EX, <- EY. clear EX EY. revert m Hm.
  apply (lower_unique K (N M) (mat M) (fun _ => 1%K)
           (fun m => zsum K 0 (N M) (fun j => (upper (mat M) m j * cell X j c)%K))
           (fun m => zsum K 0 (N M) (fun j => (upper (mat M) m j * cell Y j c)%K)));
    auto.
  - intros k _. apply f1_nonzero.
  - intros k Hk. cbv beta.
    pose proof (lower_row_sum K (N M) (mat M)
      (fun m => zsum K 0 (N M) (fun j => (upper (mat M) m j * cell X j c)%K)) k Hk) as EX.
    pose proof (lower_row_sum K (N M) (mat M)
      (fun m => zsum K 0 (N M) (fun j => (upper (mat M) m j * cell Y j c)%K)) k Hk) as EY.
    cbv beta in EX, EY. rewrite <- EX, <- EY. now apply H.
Qed.

Lemma factored_unique_T M X Y :
  Z.of_nat (length X) = N M -> length Y = length X ->
  (forall i, 0 <= i < N M -> mat M i i <> 0%K) ->
  (forall i c, 0 <= i < N M -> (c < row_width)%nat ->
     zsum K 0 (N M) (fun m =>
       (upper (mat M) m i
        * zsum K 0 (N M) (fun j => (lower (mat M) j m * cell X j c)%K))%K)
     = zsum K 0 (N M) (fun m =>
       (upper (mat M) m i
        * zsum K 0 (N M) (fun j => (lower (mat M) j m * cell Y j c)%K))%K)) ->
  X = Y.
Proof.
  intros HL HL' Hdiag H. apply rows_ext; [now symmetry |].
  intros i c Hi Hc. rewrite HL in Hi.
  apply (upper_unique K (N M) (fun m j => mat M j m) (fun _ => 1%K)
           (fun j => cell X j c) (fun j => cell Y j c)); auto.
  { intros k _. apply f1_nonzero. }
  intros m Hm. cbv beta.
  pose proof (lower_col_sum K (N M) (mat M) (fun j => cell X j c) m Hm) as EX.
  pose proof (lower_col_sum K (N M) (mat M) (fun j => cell Y j c) m Hm) as EY.
  cbv beta in EX, EY. rewrite <- EX, <- EY. clear EX EY. revert m Hm.
  apply (lower_unique K (N M) (fun i m => mat M m i) (fun m => mat M m m)
           (fun m => zsum K 0 (N M) (fun j => (lower (mat M) j m * cell X j c)%K))
           (fun m => zsum K 0 (N M) (fun j => (lower (mat M) j m * cell Y j c)%K)));
    auto.
  intros k Hk. cbv beta.
  pose proof (upper_col_sum K (N M) (mat M)
    (fun m => zsum K 0 (N M) (fun j => (lower (mat M) j m * cell X j c)%K)) k Hk) as EX.
  pose proof (upper_col_sum K (N M) (mat M)
    (fun m => zsum K 0 (N M) (fun j => (lower (mat M) j m * cell Y j c)%K)) k Hk) as EY.
  cbv beta in EX, EY. rewrite <- EX, <- EY. now apply H.
Qed.

End Solving.

(** ** The explicit transpose *)

Section Transpose.
Variable K : Scalar.
Add Field Kfield_transpose : (F_field K).
Import BandedSystem LUSpec BandedSpec.
Implicit Types A M : BandedSystem.t K.

Lemma zget_repeat_0 (n : nat) (i : Z) : zget (f0 K) (repeat (f0 K) n) i = f0 K.
Proof.
  unfold zget. destruct (i <? 0); [reflexivity | apply nth_repeat].
Qed.

Lemma transpose_spec A :
  allocated A ->
  allocated (transpose A) /\
  N (transpose A) = N A /\
  lowerBw (transpose A) = upperBw A /\
  upperBw (transpose A) = lowerBw A /\
  forall i j, mat (transpose A) i j = mat A j i.
Proof.
  intros HA. destruct HA as (HN & Hp & Hq & HdA).
  unfold transpose.
  set (T0 := {| N := N A; lowerBw := upperBw A; upperBw := lowerBw A;
                ptrData := Some (repeat 0%K
                   (Z.to_nat (N A * (upperBw A + lowerBw A + 1)))) |}).
  assert (HT0 : allocated T0).
  { unfold allocated, T0; cbn. repeat split; try lia.
    eexists; split; [reflexivity |]. rewrite repeat_length. nia. }
  assert (M0 : forall i j, mat T0 i j = 0%K).
  { intros i j. unfold mat. destruct (in_band T0 i j); [| reflexivity].
    unfold get, buf, T0. cbn [ptrData]. apply zget_repeat_0. }
  assert (Inv : let T := for_lt 0 (N A) (fun i T =>
                   for_le (Z.max 0 (i - upperBw A)) (Z.min (N A - 1) (i + lowerBw A))
                          (fun j T => put T i j (get A j i)) T) T0 in
                same_shape T0 T /\
                forall i j, mat T i j = if i <? N A then mat A j i else 0%K).
  { apply (for_lt_inv _ _ (fun i0 T => same_shape T0 T /\
             forall i j, mat T i j = if i <? i0 then mat A j i else 0%K)); [lia | |].
    - split; [now apply same_shape_refl |]. intros i j. rewrite M0.
      destruct (Z.ltb_spec i 0); [| reflexivity].
      symmetry. apply mat_outside. lia.
    - intros i T' Hi (HS & HM).
      set (jlo := Z.max 0 (i - upperBw A)). set (jhi := Z.min (N A - 1) (i + lowerBw A)).
      assert (Inner : let T2 := for_le jlo jhi (fun j T => put T i j (get A j i)) T' in
                      same_shape T0 T2 /\
                      forall i' j', mat T2 i' j' =
                        if (i' =? i) && (jlo <=? j') && (j' <? jhi + 1)
                        then get A j' i else mat T' i' j').
      { apply (for_le_inv _ _ (fun j0 T2 => same_shape T0 T2 /\
                 forall i' j', mat T2 i' j' =
                   if (i' =? i) && (jlo <=? j') && (j' <? j0)
                   then get A j' i else mat T' i' j')); [lia | |].
        - split; [exact HS |]. intros i' j'. zbool.
        - intros j T2 Hj (HS2 & HM2).
          assert (Hb : in_band T2 i j = true).
          { rewrite (in_band_shape K T0 T2 i j HS2). apply in_band_spec.
            unfold T0; cbn [N lowerBw upperBw]. lia. }
          split.
          + apply same_shape_trans with T2; [exact HS2 |].
            apply put_allocated. apply HS2.
          + intros i' j'. rewrite mat_put by (auto; apply HS2). rewrite HM2. zbool. }
      cbn zeta in Inner. destruct Inner as [HS2 HM2]. split; [exact HS2 |].
      intros i' j'. rewrite HM2, HM.
      destruct (Z.eqb_spec i' i) as [-> | Hne]; cbn [andb].
      + destruct (Z.ltb_spec i (i + 1)); [| lia].
        destruct (Z.ltb_spec i i); [lia |].
        destruct (Z.leb_spec jlo j'); destruct (Z.ltb_spec j' (jhi + 1)); cbn [andb].
        * apply get_mat; lia.
        * symmetry. apply mat_outside. lia.
        * symmetry. apply mat_outside. lia.
        * symmetry. apply mat_outside. lia.
      + zbool. }
  cbn zeta in Inv. destruct Inv as [(EN & Ep & Eq & HT) HM].
  split; [exact HT |]. split; [exact EN |]. split; [exact Ep |]. split; [exact Eq |].
  intros i j. rewrite HM. destruct (Z.ltb_spec i (N A)); [reflexivity |].
  symmetry. apply mat_outside. lia.
Qed.

End Transpose.

(** ** [factorizeLU] followed by [solve] or [solveAdj] *)

Section Correctness.
Variable K : Scalar.
Add Field Kfield_correct : (F_field K).
Import BandedSystem LUSpec BandedSpec.
Context {R : Type} {RO : RowOps K R}.
Implicit Types A M : BandedSystem.t K.
Implicit Types B X Y : list R.

Lemma dominant_from_ext n k (S S' : Z -> Z -> K) :
  (forall i j, S i j = S' i j) -> dominant_from n k S -> dominant_from n k S'.
Proof.
  intros E H i Hi. rewrite <- E.
  rewrite (zsum_ext K k n (fun j => if j =? i then 0%K else fabs (S' i j))
                    (fun j => if j =? i then 0%K else fabs (S i j))).
  - now apply H.
  - intros j _. now rewrite E.
Qed.

Lemma lu_upto_shape A M n k :
  lu_upto n k (mat A) (mat M) ->
  n - 1 <= k ->
  forall i j, 0 <= i < n -> 0 <= j < n ->
    mat A i j = zsum K 0 n (fun m => (lower (mat M) i m * upper (mat M) m j)%K).
Proof.
  intros H Hk. now apply lu_product with k.
Qed.

(** With a dominant diagonal, [solve] after [factorizeLU] returns the one
    solution of [A * X = B]. *)
Lemma solve_dominated A B :
  allocated A -> dominated (N A) 0 (mat A) -> Z.of_nat (length B) = N A ->
  solution A (solve (factorizeLU A) B) B /\
  forall Y, solution A Y B -> Y = solve (factorizeLU A) B.
Proof.
  intros HA Hd HL.
  destruct (factorizeLU_factors K A HA Hd) as ((EN & Ep & Eq & HM) & HLU & Hdiag).
  set (M := factorizeLU A) in *.
  pose proof (lu_upto_shape A M (N A) (N A - 1) HLU ltac:(lia)) as Hprod.
  rewrite <- EN in Hdiag.
  destruct (factored_solve K M B HM ltac:(lia) Hdiag) as [LX CX].
  rewrite EN in CX, Hdiag.
  assert (Fact : forall Y i c, 0 <= i < N A ->
            product A Y i c
            = zsum K 0 (N A) (fun m =>
                (lower (mat M) i m
                 * zsum K 0 (N A) (fun j => (upper (mat M) m j * cell Y j c)%K))%K)).
  { intros Y i c Hi. unfold product.
    apply (product_factors K (N A) (mat A) (lower (mat M)) (upper (mat M))
             (fun j => cell Y j c) i Hi).
    intros j Hj. now apply Hprod. }
  split.
  - split; [exact LX |]. intros i c Hi Hc.
    rewrite Fact by exact Hi. symmetry. now apply CX.
  - intros Y [LY CY]. apply (factored_unique K M).
    + lia.
    + congruence.
    + rewrite EN. exact Hdiag.
    + rewrite EN. intros i c Hi Hc. rewrite <- !Fact by exact Hi.
      rewrite (CY i c Hi Hc). fold (cell B i c). rewrite (CX i c Hi Hc).
      symmetry. now apply Fact.
Qed.

(** With a dominant diagonal, [solveAdj] after [factorizeLU] returns the
    one solution of [transpose(A) * X = B]. *)
Lemma solveAdj_dominated A B :
  allocated A -> dominated (N A) 0 (mat A) -> Z.of_nat (length B) = N A ->
  solutionT A (solveAdj (factorizeLU A) B) B /\
  forall Y, solutionT A Y B -> Y = solveAdj (factorizeLU A) B.
Proof.
  intros HA Hd HL.
  destruct (factorizeLU_factors K A HA Hd) as ((EN & Ep & Eq & HM) & HLU & Hdiag).
  set (M := factorizeLU A) in *.
  pose proof (lu_upto_shape A M (N A) (N A - 1) HLU ltac:(lia)) as Hprod.
  rewrite <- EN in Hdiag.
  destruct (factored_solveAdj K M B HM ltac:(lia) Hdiag) as [LX CX].
  rewrite EN in CX, Hdiag.
  assert (Fact : forall Y i c, 0 <= i < N A ->
            productT A Y i c
            = zsum K 0 (N A) (fun m =>
                (upper (mat M) m i
                 * zsum K 0 (N A) (fun j => (lower (mat M) j m * cell Y j c)%K))%K)).
  { intros Y i c Hi. unfold productT.
    apply (product_factors_T K (N A) (mat A) (lower (mat M)) (upper (mat M))
             (fun j => cell Y j c) i Hi).
    intros j Hj. now apply Hprod. }
  split.
  - split; [exact LX |]. intros i c Hi Hc.
    rewrite Fact by exact Hi. symmetry. now apply CX.
  - intros Y [LY CY]. apply (factored_unique_T K M).
    + lia.
    + congruence.
    + rewrite EN. exact Hdiag.
    + rewrite EN. intros i c Hi Hc. rewrite <- !Fact by exact Hi.
      rewrite (CY i c Hi Hc). fold (cell B i c). rewrite (CX i c Hi Hc).
      symmetry. now apply Fact.
Qed.

(** C5: for every banded matrix [A] with a strictly dominant diagonal (by
    rows) and every right-hand side [B] with [N] rows, of any row type,
    [factorizeLU] then [solve] turns [B] into a solution [X] of
    [A * X = B], the dense product, and every solution is [X]. *)
Theorem factorizeLU_solve_unique A B :
  allocated A -> diag_dominant A = true -> Z.of_nat (length B) = N A ->
  solution A (solve (factorizeLU A) B) B /\
  forall Y, solution A Y B -> Y = solve (factorizeLU A) B.
Proof.
  intros HA Hd HL. apply solve_dominated; auto.
  left. now apply diag_dominant_rows.
Qed.

(** C6: for every banded matrix [A] with a strictly dominant diagonal (by
    rows) and every right-hand side [B] with [N] rows, [factorizeLU] then
    [solveAdj] turns [B] into a solution [X] of [transpose(A) * X = B],
    every solution is [X], and [X] is what [factorizeLU] then [solve]
    return on the explicit transpose of [A] and the same [B]. *)
Theorem factorizeLU_solveAdj_transpose A B :
  allocated A -> diag_dominant A = true -> Z.of_nat (length B) = N A ->
  solutionT A (solveAdj (factorizeLU A) B) B /\
  (forall Y, solutionT A Y B -> Y = solveAdj (factorizeLU A) B) /\
  solveAdj (factorizeLU A) B = solve (factorizeLU (transpose A)) B.
Proof.
  intros HA Hd HL.
  pose proof (diag_dominant_rows K A Hd) as Hrows.
  destruct (solveAdj_dominated A B HA (or_introl Hrows) HL) as [Hsol Huniq].
  split; [exact Hsol |]. split; [exact Huniq |].
  destruct (transpose_spec K A HA) as (HT & EN & Ep & Eq & HM).
  destruct (solve_dominated (transpose A) B HT) as [[LX CX] _].
  - right. rewrite EN. apply (dominant_from_ext (N A) 0 (mat A)); [| exact Hrows].
    intros i j. now rewrite HM.
  - lia.
  - symmetry. apply Huniq. split; [exact LX |].
    intros i c Hi Hc. rewrite <- (CX i c) by (auto; lia).
    unfold productT, product. rewrite EN. apply zsum_ext.
    intros j _. now rewrite HM.
Qed.

End Correctness.

(** ** The theorems at concrete inputs *)

Section Witnesses.
Import BandedSystem CubicSpline Run.

(** The tridiagonal system of the 3-piece example holds its storage. *)
Lemma tri2_allocated : allocated tri2.
Proof.
  split; [vm_compute; discriminate |]. split; [vm_compute; discriminate |].
  split; [vm_compute; discriminate |].
  exists (buf tri2). split; vm_compute; reflexivity.
Defined.

(** The storage mapping for the size 2 and both bandwidths 1. *)
Lemma storage_mapping_injective_witness :
  1 <= BandedSystem.N band211 /\ 0 <= lowerBw band211 /\ 0 <= upperBw band211 /\
  ((forall i j, in_band band211 i j = true ->
      0 <= offset band211 i j
      < BandedSystem.N band211 * (lowerBw band211 + upperBw band211 + 1)) /\
   (forall i j i' j', in_band band211 i j = true -> in_band band211 i' j' = true ->
      offset band211 i j = offset band211 i' j' -> i = i' /\ j = j') /\
   (forall o, 0 <= o < BandedSystem.N band211 * (lowerBw band211 + upperBw band211 + 1) ->
      ((exists i j, in_band band211 i j = true /\ offset band211 i j = o) <->
       0 <= o mod BandedSystem.N band211 + o / BandedSystem.N band211
            - upperBw band211 < BandedSystem.N band211))).
Proof.
  assert (H1 : 1 <= BandedSystem.N band211) by (vm_compute; discriminate).
  assert (H2 : 0 <= lowerBw band211) by (vm_compute; discriminate).
  assert (H3 : 0 <= upperBw band211) by (vm_compute; discriminate).
  split; [exact H1 |]. split; [exact H2 |]. split; [exact H3 |].
  exact (storage_mapping_injective QcScalar band211 H1 H2 H3).
Defined.

(** [factorizeLU] and [solve] on the system of the 3-piece example. *)
Lemma factorizeLU_solve_unique_witness :
  allocated tri2 /\ BandedSpec.diag_dominant tri2 = true /\
  Z.of_nat (length rhs2) = BandedSystem.N tri2 /\
  (BandedSpec.solution tri2 (solve (factorizeLU tri2) rhs2) rhs2 /\
   forall Y, BandedSpec.solution tri2 Y rhs2 -> Y = solve (factorizeLU tri2) rhs2).
Proof.
  assert (H2 : BandedSpec.diag_dominant tri2 = true) by (vm_compute; reflexivity).
  assert (H3 : Z.of_nat (length rhs2) = BandedSystem.N tri2) by (vm_compute; reflexivity).
  split; [exact tri2_allocated |]. split; [exact H2 |]. split; [exact H3 |].
  exact (factorizeLU_solve_unique QcScalar tri2 rhs2 tri2_allocated H2 H3).
Defined.

(** [factorizeLU] and [solveAdj] on the system of the 3-piece example. *)
Lemma factorizeLU_solveAdj_transpose_witness :
  allocated tri2 /\ BandedSpec.diag_dominant tri2 = true /\
  Z.of_nat (length rhs2) = BandedSystem.N tri2 /\
  (BandedSpec.solutionT tri2 (solveAdj (factorizeLU tri2) rhs2) rhs2 /\
   (forall Y, BandedSpec.solutionT tri2 Y rhs2 -> Y = solveAdj (factorizeLU tri2) rhs2) /\
   solveAdj (factorizeLU tri2) rhs2
   = solve (factorizeLU (BandedSpec.transpose tri2)) rhs2).
Proof.
  assert (H2 : BandedSpec.diag_dominant tri2 = true) by (vm_compute; reflexivity).
  assert (H3 : Z.of_nat (length rhs2) = BandedSystem.N tri2) by (vm_compute; reflexivity).
  split; [exact tri2_allocated |]. split; [exact H2 |]. split; [exact H3 |].
  exact (factorizeLU_solveAdj_transpose QcScalar tri2 rhs2 tri2_allocated H2 H3).
Defined.

(** The ends of the curve of the 3-piece example. *)
Lemma boundary_fidelity_witness :
  1 <= 3 /\ 3 - 1 <= Z.of_nat (length [pt 1 0; pt 2 0]) /\
  exists cs p0 pL,
    FitSpec.fit fresh (pt 0 0) (pt 3 0) 3 [pt 1 0; pt 2 0] junk0 junk0 junk0 heap0
    = Some cs /\
    nth_error (getCurve cs []) 0 = Some p0 /\
    nth_error (getCurve cs []) (Z.to_nat (3 - 1)) = Some pL /\
    position p0 (f0 QcScalar) = pt 0 0 /\
    position pL (f1 QcScalar) = pt 3 0.
Proof.
  assert (H1 : 1 <= 3) by lia.
  assert (H2 : 3 - 1 <= Z.of_nat (length [pt 1 0; pt 2 0])) by (simpl; lia).
  split; [exact H1 |]. split; [exact H2 |].
  exact (boundary_fidelity QcScalar fresh (pt 0 0) (pt 3 0) 3 [pt 1 0; pt 2 0]
           junk0 junk0 junk0 heap0 [] H1 H2).
Defined.

(** The junctions of the curve of the 3-piece example. *)
Lemma tangent_continuity_witness :
  1 <= 3 /\ 3 - 1 <= Z.of_nat (length [pt 1 0; pt 2 0]) /\
  exists cs,
    FitSpec.fit fresh (pt 0 0) (pt 3 0) 3 [pt 1 0; pt 2 0] junk0 junk0 junk0 heap0
    = Some cs /\
    forall i, 1 <= i <= 3 - 1 ->
      exists p q,
        nth_error (getCurve cs []) (Z.to_nat (i - 1)) = Some p /\
        nth_error (getCurve cs []) (Z.to_nat i) = Some q /\
        velocity p (f1 QcScalar) = velocity q (f0 QcScalar).
Proof.
  assert (H1 : 1 <= 3) by lia.
  assert (H2 : 3 - 1 <= Z.of_nat (length [pt 1 0; pt 2 0])) by (simpl; lia).
  split; [exact H1 |]. split; [exact H2 |].
  exact (tangent_continuity QcScalar fresh (pt 0 0) (pt 3 0) 3 [pt 1 0; pt 2 0]
           junk0 junk0 junk0 heap0 [] H1 H2).
Defined.

(** The exported pieces of the 3-piece example. *)
Lemma getCurve_pieces_witness :
  FitSpec.fit fresh (pt 0 0) (pt 3 0) 3 [pt 1 0; pt 2 0] junk0 junk0 junk0 heap0
  = Some fitted3 /\
  exists X,
    waypoints conf3 [pt 1 0; pt 2 0] junk0 = Some X /\
    CubicSpline.N fitted3 = 3 /\
    Z.of_nat (length (getCurve fitted3 [])) = 3 /\
    (forall i, 0 <= i < 3 ->
       nth_error (getCurve fitted3 []) (Z.to_nat i)
       = Some {| duration := f1 QcScalar;
                 coeffMat := pieceCoeffs X (FitSpec.fitTangents conf3 X) i |}) /\
    getCurve fitted3 [] = getCurve fitted3 [].
Proof.
  assert (H : FitSpec.fit fresh (pt 0 0) (pt 3 0) 3 [pt 1 0; pt 2 0]
                junk0 junk0 junk0 heap0 = Some fitted3).
  { assert (S3 : summary 3 line3 <> None) by (vm_compute; discriminate).
    unfold fitted3. unfold line3, fit0 in *.
    destruct (FitSpec.fit fresh (pt 0 0) (pt 3 0) 3 [pt 1 0; pt 2 0]
                junk0 junk0 junk0 heap0); [reflexivity | now elim S3]. }
  split; [exact H |].
  exact (getCurve_pieces QcScalar fresh (pt 0 0) (pt 3 0) 3 [pt 1 0; pt 2 0]
           junk0 junk0 junk0 heap0 fitted3 [] H).
Defined.

(** An object configured with 3 pieces, then with 2. *)
Lemma reconfigure_as_fresh_witness :
  setConditions fresh (pt 0 0) (pt 3 0) 3 junk0 heap0 = Some (conf3, heap3) /\
  setConditions conf3 (pt 0 0) (pt 2 0) 2 junk0 heap3 = Some (conf2, heap2) /\
  blocks heap2 = blocks heap3 /\
  cells heap2 = cells heap3 - (3 - 1) * 3 + (2 - 1) * 3 /\
  BandedSystem.N (A conf2) = 2 - 1 /\
  Z.of_nat (length (buf (A conf2))) = (2 - 1) * 3.
Proof.
  assert (H1 : setConditions fresh (pt 0 0) (pt 3 0) 3 junk0 heap0 = Some (conf3, heap3))
    by reflexivity.
  assert (H2 : setConditions conf3 (pt 0 0) (pt 2 0) 2 junk0 heap3 = Some (conf2, heap2))
    by reflexivity.
  split; [exact H1 |]. split; [exact H2 |].
  destruct (reconfigure_as_fresh QcScalar fresh (pt 0 0) (pt 3 0) 3 junk0 heap0
              conf3 heap3 (pt 0 0) (pt 2 0) 2 junk0 conf2 heap2 H1 H2)
    as (_ & Hb & Hc & Hn & Hl & _).
  split; [exact Hb |]. split; [exact Hc |]. split; [exact Hn | exact Hl].
Defined.

(** The 3-piece example with a third inner point. *)
Lemma mismatch_not_checked_witness :
  1 <= 3 /\ 3 - 1 <= Z.of_nat (length [pt 1 0; pt 2 0; pt 5 5]) /\
  exists cs,
    FitSpec.fit fresh (pt 0 0) (pt 3 0) 3 [pt 1 0; pt 2 0; pt 5 5]
                junk0 junk0 junk0 heap0 = Some cs /\
    FitSpec.fit fresh (pt 0 0) (pt 3 0) 3
                (firstn (Z.to_nat (3 - 1)) [pt 1 0; pt 2 0; pt 5 5])
                junk0 junk0 junk0 heap0 = Some cs.
Proof.
  assert (H1 : 1 <= 3) by lia.
  assert (H2 : 3 - 1 <= Z.of_nat (length [pt 1 0; pt 2 0; pt 5 5])) by (simpl; lia).
  split; [exact H1 |]. split; [exact H2 |].
  exact (proj1 (proj2 (mismatch_not_checked QcScalar fresh (pt 0 0) (pt 3 0) 3
                         [pt 1 0; pt 2 0; pt 5 5] junk0 junk0 junk0 heap0)) H1 H2).
Defined.

End Witnesses.

(** ** More on the band: storage, [create], [reset], [destroy] *)

Section BandMembers.
Variable K : Scalar.
Add Field Kfield_members : (F_field K).
Import BandedSystem LUSpec.
Implicit Types A : BandedSystem.t K.

Lemma heap_new_delete h s : heap_delete (heap_new h s) s = h.
Proof.
  destruct h as [bl ce]. unfold heap_new, heap_delete. cbn [blocks cells].
  f_equal; lia.
Qed.

Lemma create_allocated A n p q h :
  1 <= n -> 0 <= p -> 0 <= q -> allocated (fst (create A n p q h)).
Proof.
  intros Hn Hp Hq. rewrite create_fst. unfold allocated. cbn [N lowerBw upperBw ptrData].
  repeat split; try lia. eexists; split; [reflexivity |]. rewrite repeat_length. nia.
Qed.

Lemma create_zero A n p q h i j : get (fst (create A n p q h)) i j = 0%K.
Proof.
  rewrite create_fst. unfold get, buf. cbn [ptrData]. apply zget_repeat_0.
Qed.

(** X1: on a system that holds its storage, writing the entry [(i, j)] of
    the band and reading an entry [(i', j')] of the band gives the written
    value when the two entries are the same and the old value of [(i', j')]
    otherwise; the write keeps the size, the bandwidths and the storage. *)
Theorem element_write_read A i j v i' j' :
  allocated A -> in_band A i j = true -> in_band A i' j' = true ->
  get (put A i j v) i' j' = (if (i' =? i) && (j' =? j) then v else get A i' j') /\
  same_shape A (put A i j v).
Proof.
  intros HA Hb Hb'. split.
  - now apply get_put.
  - now apply put_allocated.
Qed.


(** X3: on a system that holds its storage, [reset] gives the system that
    [create] gives for the same size and bandwidths: every entry reads 0
    and nothing else changes. *)
Theorem reset_as_created A h :
  allocated A ->
  reset A = fst (create A (N A) (lowerBw A) (upperBw A) h) /\
  same_shape A (reset A) /\
  forall i j, get (reset A) i j = 0%K.
Proof.
  intros HA.
  assert (E : reset A = fst (create A (N A) (lowerBw A) (upperBw A) h)).
  { rewrite create_fst. unfold reset. destruct HA as (_ & _ & _ & d & Hd & _).
    rewrite Hd. reflexivity. }
  destruct HA as (HN & Hp & Hq & Hd).
  split; [exact E |]. split.
  - rewrite E. unfold same_shape. rewrite create_fst. cbn [N lowerBw upperBw].
    do 3 (split; [reflexivity |]).
    rewrite <- (create_fst K A _ _ _ h). now apply create_allocated.
  - intros i j. rewrite E. apply create_zero.
Qed.

(** X4: [destroy] leaves the null pointer and gives an array back exactly
    when the object held one; a second [destroy] changes nothing; and, for
    a storage size that is not negative, [destroy] after [create] leaves
    the free store as [destroy] alone would. *)
Theorem destroy_once A n p q h h' :
  0 <= n * (p + q + 1) ->
  ptrData (fst (destroy A h)) = None /\
  blocks (snd (destroy A h))
    = (match ptrData A with Some _ => blocks h - 1 | None => blocks h end) /\
  destroy (fst (destroy A h)) h' = (fst (destroy A h), h') /\
  snd (destroy (fst (create A n p q h)) (snd (create A n p q h)))
    = snd (destroy A h).
Proof.
  intros Hs. split; [| split; [| split]].
  - unfold destroy. destruct (ptrData A) eqn:E; [reflexivity | exact E].
  - unfold destroy. destruct (ptrData A); reflexivity.
  - unfold destroy at 1. destruct (ptrData (fst (destroy A h))) eqn:E; [| reflexivity].
    unfold destroy in E. destruct (ptrData A) eqn:E'; cbn in E; congruence.
  - rewrite create_snd. unfold destroy at 1. rewrite create_fst. cbn [ptrData fst snd].
    rewrite repeat_length. apply heap_new_delete.
Qed.

End BandMembers.

(** ** More on [factorizeLU] and on the two solvers *)

Section LoopsPush.
Variables (S T : Type) (f : S -> T) (P : S -> Prop).
Variables (body : Z -> S -> S) (body' : Z -> T -> T).

(** A loop seen through [f]: when each iteration commutes with [f], so does
    the loop. *)
Lemma for_le_push (lo hi : Z) (s : S) :
  P s ->
  (forall k s, lo <= k <= hi -> P s ->
     P (body k s) /\ f (body k s) = body' k (f s)) ->
  P (for_le lo hi body s) /\ f (for_le lo hi body s) = for_le lo hi body' (f s).
Proof.
  intros H0.
  destruct (Z_lt_le_dec hi (lo - 1)) as [Hlt | Hle].
  { intros _. rewrite !for_le_none by lia. auto. }
  revert hi Hle.
  apply (range_ind (fun hi =>
    (forall k s, lo <= k <= hi -> P s -> P (body k s) /\ f (body k s) = body' k (f s)) ->
    P (for_le lo hi body s) /\ f (for_le lo hi body s) = for_le lo hi body' (f s))).
  - intros _. rewrite !for_le_none by lia. auto.
  - intros hi Hhi IH Hstep.
    rewrite (for_le_last _ body lo (hi + 1)), (for_le_last _ body' lo (hi + 1)) by lia.
    replace (hi + 1 - 1) with hi by lia.
    destruct IH as [IP IE]. { intros k s' Hk. apply Hstep. lia. }
    destruct (Hstep (hi + 1) (for_le lo hi body s) ltac:(lia) IP) as [SP SE].
    split; [exact SP |]. now rewrite SE, IE.
Qed.

Lemma for_ge_push (hi lo : Z) (s : S) :
  P s ->
  (forall k s, lo <= k <= hi -> P s ->
     P (body k s) /\ f (body k s) = body' k (f s)) ->
  P (for_ge hi lo body s) /\ f (for_ge hi lo body s) = for_ge hi lo body' (f s).
Proof.
  destruct (Z_lt_le_dec hi (lo - 1)) as [Hlt | Hle].
  { intros H0 _. rewrite !for_ge_none by lia. auto. }
  revert hi Hle s.
  apply (range_ind (fun hi => forall s, P s ->
    (forall k s, lo <= k <= hi -> P s -> P (body k s) /\ f (body k s) = body' k (f s)) ->
    P (for_ge hi lo body s) /\ f (for_ge hi lo body s) = for_ge hi lo body' (f s))).
  - intros s H0 _. rewrite !for_ge_none by lia. auto.
  - intros hi Hhi IH s H0 Hstep.
    rewrite (for_ge_first _ body (hi + 1) lo), (for_ge_first _ body' (hi + 1) lo) by lia.
    replace (hi + 1 - 1) with hi by lia.
    destruct (Hstep (hi + 1) s ltac:(lia) H0) as [SP SE].
    rewrite <- SE. apply IH; auto. intros k s' Hk. apply Hstep. lia.
Qed.

End LoopsPush.

Section Appended.
Variable T : Type.
Implicit Types l r : list T.

Lemma zget_app_l (d : T) l r i :
  i < Z.of_nat (length l) -> zget d (l ++ r) i = zget d l i.
Proof.
  intros H. unfold zget. destruct (i <? 0) eqn:E; [reflexivity |].
  apply app_nth1. apply Z.ltb_ge in E. lia.
Qed.

Lemma zget_app_r (d : T) l r i :
  Z.of_nat (length l) <= i -> zget d (l ++ r) i = zget d r (i - Z.of_nat (length l)).
Proof.
  intros H. unfold zget.
  destruct (Z.ltb_spec i 0); [lia |].
  destruct (Z.ltb_spec (i - Z.of_nat (length l)) 0); [lia |].
  rewrite app_nth2 by lia. f_equal. lia.
Qed.

Lemma upd_app_l (n : nat) (v : T) l r :
  (n < length l)%nat -> upd n v (l ++ r) = upd n v l ++ r.
Proof.
  revert n; induction l as [| x l IH]; intros n H; simpl in *; [lia |].
  destruct n; [reflexivity |]. simpl. f_equal. apply IH. lia.
Qed.

Lemma zset_app_l l r i (v : T) :
  i < Z.of_nat (length l) -> zset (l ++ r) i v = zset l i v ++ r.
Proof.
  intros H. unfold zset. destruct (Z.ltb_spec i 0); [reflexivity |].
  apply upd_app_l. lia.
Qed.

End Appended.

Section FactorsAndRows.
Variable K : Scalar.
Add Field Kfield_rows : (F_field K).
Import BandedSystem LUSpec BandedSpec.
Context {R : Type} {RO : RowOps K R}.
Implicit Types A M : BandedSystem.t K.
Implicit Types B X Y : list R.

Lemma factorizeLU_shape A : allocated A -> same_shape A (factorizeLU A).
Proof.
  intros HA. rewrite factorizeLU_steps.
  apply (for_le_keep _ (@factorStep K) (fun A' => same_shape A A')).
  - now apply same_shape_refl.
  - intros k A' Hk HS. apply same_shape_trans with A'; [exact HS |].
    destruct HS as (EN & _ & _ & HA').
    apply factorStep_elim; [exact HA' | lia].
Qed.

Lemma row_axpy_app c B B' i j :
  i < Z.of_nat (length B) -> j < Z.of_nat (length B) ->
  row_axpy c (B ++ B') i j = row_axpy c B i j ++ B'.
Proof.
  intros Hi Hj. unfold row_axpy, row.
  rewrite !zget_app_l by lia. now apply zset_app_l.
Qed.

Lemma column_op_app (coef : Z -> K) j lo hi n B B' :
  Z.of_nat (length B) = n -> j < n -> hi < n ->
  length (column_op coef j lo hi B) = length B /\
  column_op coef j lo hi B ++ B' = column_op coef j lo hi (B ++ B').
Proof.
  intros HL Hj Hhi. unfold column_op.
  apply (for_le_push _ _ (fun b : list R => b ++ B')
           (fun b : list R => length b = length B)); [reflexivity |].
  intros i b Hi Hb. destruct (nonzero (coef i)); [| auto]. split.
  - now rewrite row_axpy_length.
  - symmetry. apply row_axpy_app; lia.
Qed.

Lemma divide_row_app dg j n B B' :
  Z.of_nat (length B) = n -> j < n ->
  divide_row dg j B ++ B' = divide_row dg j (B ++ B').
Proof.
  intros HL Hj. destruct dg as [d |]; [| reflexivity]. cbn [divide_row].
  unfold row. rewrite zget_app_l by lia. symmetry. apply zset_app_l. lia.
Qed.

Lemma up_sweep_app n w coef dg B B' :
  Z.of_nat (length B) = n ->
  length (up_sweep n w coef dg B) = length B /\
  up_sweep n w coef dg B ++ B' = up_sweep n w coef dg (B ++ B').
Proof.
  intros HL. unfold up_sweep.
  apply (for_le_push _ _ (fun b : list R => b ++ B')
           (fun b : list R => length b = length B)); [reflexivity |].
  intros j b Hj Hb. cbv zeta.
  assert (HD : length (divide_row dg j b) = length b)
    by apply divide_row_length.
  destruct (column_op_app (fun i => coef i j) j (j + 1) (Z.min (j + w) (n - 1)) n
              (divide_row dg j b) B') as [CL CE]; [lia | lia | lia |].
  split; [congruence |].
  rewrite CE. f_equal. apply divide_row_app with n; lia.
Qed.

Lemma down_sweep_app n w coef dg B B' :
  Z.of_nat (length B) = n ->
  length (down_sweep n w coef dg B) = length B /\
  down_sweep n w coef dg B ++ B' = down_sweep n w coef dg (B ++ B').
Proof.
  intros HL. unfold down_sweep.
  apply (for_ge_push _ _ (fun b : list R => b ++ B')
           (fun b : list R => length b = length B)); [reflexivity |].
  intros j b Hj Hb. cbv zeta.
  assert (HD : length (divide_row dg j b) = length b)
    by apply divide_row_length.
  destruct (column_op_app (fun i => coef i j) j (Z.max 0 (j - w)) (j - 1) n
              (divide_row dg j b) B') as [CL CE]; [lia | lia | lia |].
  split; [congruence |].
  rewrite CE. f_equal. apply divide_row_app with n; lia.
Qed.

Lemma solve_app M B B' :
  Z.of_nat (length B) = N M -> solve M (B ++ B') = solve M B ++ B'.
Proof.
  intros HL. rewrite !solve_sweeps.
  destruct (up_sweep_app (N M) (lowerBw M) (get M) None B B' HL) as [UL UE].
  rewrite <- UE.
  symmetry. apply down_sweep_app. lia.
Qed.

Lemma solveAdj_app M B B' :
  Z.of_nat (length B) = N M -> solveAdj M (B ++ B') = solveAdj M B ++ B'.
Proof.
  intros HL. rewrite !solveAdj_sweeps.
  destruct (up_sweep_app (N M) (upperBw M) (fun i j => get M j i)
              (Some (fun j => get M j j)) B B' HL) as [UL UE].
  rewrite <- UE.
  symmetry. apply down_sweep_app. lia.
Qed.

(** X5: on a system that holds its storage, dominant or not,
    [factorizeLU] keeps the size, the bandwidths and the storage; a system
    of size 1 is left as it is. *)
Theorem factorizeLU_keeps_shape A :
  allocated A ->
  same_shape A (factorizeLU A) /\ (N A = 1 -> factorizeLU A = A).
Proof.
  intros HA. split; [now apply factorizeLU_shape |].
  intros H1. rewrite factorizeLU_steps. apply for_le_none. lia.
Qed.

(** X6: for a strictly diagonally dominant system, [factorizeLU] leaves in
    the band the factors of the matrix: every entry of the matrix is the
    entry of the product of the unit lower factor and of the upper factor
    that the band then holds, and no diagonal entry of the upper factor is
    0. *)
Theorem factorizeLU_product A :
  allocated A -> diag_dominant A = true ->
  (forall i j, 0 <= i < N A -> 0 <= j < N A ->
     mat A i j
     = zsum K 0 (N A) (fun m =>
         (lower (mat (factorizeLU A)) i m * upper (mat (factorizeLU A)) m j)%K)) /\
  forall i, 0 <= i < N A -> mat (factorizeLU A) i i <> 0%K.
Proof.
  intros HA Hd.
  destruct (factorizeLU_factors K A HA) as (_ & HLU & Hdiag).
  { left. now apply diag_dominant_rows. }
  split; [| exact Hdiag].
  apply lu_product with (N A - 1); [lia | exact HLU].
Qed.

(** X7: [solve] and [solveAdj] work on the first [N] rows of the right-hand
    side only: further rows are left as they are and do not change the
    result in the first [N] rows. *)
Theorem solvers_leave_further_rows M B B' :
  Z.of_nat (length B) = N M ->
  solve M (B ++ B') = solve M B ++ B' /\
  solveAdj M (B ++ B') = solveAdj M B ++ B'.
Proof.
  intros HL. split; [now apply solve_app | now apply solveAdj_app].
Qed.

End FactorsAndRows.

(** ** The matrix of the fit *)

Section SplineMatrix.
Variable K : Scalar.
Add Field Kfield_matrix : (F_field K).
Import BandedSystem LUSpec SplineExtra.
Implicit Types A : BandedSystem.t K.

Lemma fle_0_square (x : K) : (0 <= x * x)%K.
Proof.
  destruct (fle_total K 0%K x) as [H | H].
  - now apply (fleb_mul K).
  - replace (x * x)%K with ((- x) * (- x))%K by ring.
    assert (H' : (0 <= - x)%K).
    { replace (f0 K) with (- f0 K)%K by ring. now apply fle_opp. }
    now apply (fleb_mul K).
Qed.

Lemma fle_0_1 : (0 <= (1 : K))%K.
Proof.
  replace (f1 K) with (f1 K * f1 K)%K by ring. apply fle_0_square.
Qed.

Lemma flt_0_1 : (0 < (1 : K))%K.
Proof.
  apply flt_not_le. intros H. apply (f1_nonzero K).
  apply fle_antisym; [exact H | exact fle_0_1].
Qed.

Lemma fle_0_add (x y : K) : (0 <= x)%K -> (0 <= y)%K -> (0 <= x + y)%K.
Proof.
  intros Hx Hy. replace (f0 K) with (f0 K + f0 K)%K by ring. now apply fle_add.
Qed.

Lemma flt_two_four : (two K < four K)%K.
Proof.
  assert (H2 : (0 < two K)%K).
  { apply flt_le_trans with 1%K; [exact flt_0_1 |].
    replace (f1 K) with (f0 K + f1 K)%K at 1 by ring. unfold two.
    apply fle_add_r. exact fle_0_1. }
  replace (two K) with (f0 K + two K)%K at 1 by ring.
  replace (four K) with (two K + two K)%K by (unfold four, two; ring).
  now apply flt_add_r.
Qed.

Lemma fabs_of_nonneg (x : K) : (0 <= x)%K -> fabs x = x.
Proof.
  intros H. unfold fabs. unfold fle in H. now rewrite H.
Qed.

Lemma fabs_1 : fabs (1 : K)%K = 1%K.
Proof.
  apply fabs_of_nonneg. exact fle_0_1.
Qed.

Lemma fabs_four : fabs (four K) = four K.
Proof.
  apply fabs_of_nonneg. unfold four. apply fle_0_square.
Qed.

(** The sum of a function that is 0 away from [m]. *)
Lemma zsum_at lo hi m (g : Z -> K) :
  zsum K lo hi (fun j => if j =? m then g j else 0%K)
  = if (lo <=? m) && (m <? hi) then g m else 0%K.
Proof.
  destruct ((lo <=? m) && (m <? hi)) eqn:E.
  - apply andb_true_iff in E. destruct E as [E1 E2].
    apply Z.leb_le in E1. apply Z.ltb_lt in E2.
    rewrite (zsum_remove K lo hi m) by lia. rewrite Z.eqb_refl.
    rewrite zsum_zero; [ring |].
    intros j Hj. destruct (j =? m); reflexivity.
  - apply zsum_zero. intros j Hj. destruct (Z.eqb_spec j m) as [-> | ]; [| reflexivity].
    apply andb_false_iff in E. destruct E as [E | E];
      [apply Z.leb_gt in E | apply Z.ltb_ge in E]; lia.
Qed.

(** A row of the matrix of the fit against a vector. *)
Lemma splineMatrix_row n r (f : Z -> K) :
  3 <= n -> 0 <= r < n - 1 ->
  zsum K 0 (n - 1) (fun j => (splineMatrix K n r j * f j)%K)
  = ((if (0 <? r)%Z then f (r - 1)%Z else 0) + four K * f r
     + (if (r <? n - 2)%Z then f (r + 1)%Z else 0))%K.
Proof.
  intros Hn Hr.
  rewrite (zsum_ext K 0 (n - 1) _
    (fun j => ((if (j =? r - 1)%Z then f j else 0)
               + (if (j =? r)%Z then four K * f j else 0)
               + (if (j =? r + 1)%Z then f j else 0))%K)).
  2:{ intros j Hj. unfold splineMatrix. zbool; ring. }
  rewrite !zsum_add.
  rewrite (zsum_at 0 (n - 1) (r - 1) f).
  rewrite (zsum_at 0 (n - 1) r (fun j => (four K * f j)%K)).
  rewrite (zsum_at 0 (n - 1) (r + 1) f).
  zbool.
Qed.

(** The matrix of the fit is strictly diagonally dominant. *)
Lemma splineMatrix_dominant n : dominant_from (n - 1) 0 (splineMatrix K n).
Proof.
  intros i Hi.
  destruct (Z.eq_dec n 2) as [-> | Hn].
  - assert (i = 0) by lia. subst i.
    rewrite zsum_zero.
    + replace (splineMatrix K 2 0 0) with (f1 K) by reflexivity.
      rewrite fabs_1. exact flt_0_1.
    + intros j Hj. assert (j = 0) by lia. subst j. reflexivity.
  - replace (splineMatrix K n i i) with (four K)
      by (unfold splineMatrix; zbool).
    rewrite fabs_four.
    apply fle_lt_trans with (two K); [| exact flt_two_four].
    apply fle_trans with
      (zsum K 0 (n - 1) (fun j => ((if (j =? i - 1)%Z then 1 else 0)
                                   + (if (j =? i + 1)%Z then 1 else 0))%K)).
    + apply zsum_le. intros j Hj. unfold splineMatrix.
      zbool; rewrite ?fabs_1, ?fabs_0;
        repeat first [ apply fle_refl | apply fle_0_1 | apply fle_0_add ];
        try (replace (f1 K + f0 K)%K with (f1 K) by ring; apply fle_refl);
        try (replace (f0 K + f1 K)%K with (f1 K) by ring; apply fle_refl).
    + rewrite zsum_add.
      rewrite (zsum_at 0 (n - 1) (i - 1) (fun _ => 1%K)).
      rewrite (zsum_at 0 (n - 1) (i + 1) (fun _ => 1%K)).
      unfold two.
      apply fle_add;
        match goal with
        | |- ((if ?c then _ else _) <= _)%K => destruct c
        end;
        first [ apply fle_refl | exact fle_0_1 ].
Qed.

(** What the loop of [setInnerPoints] leaves in a band of the size and the
    bandwidths that [setConditions] gives, whatever the band held. *)
Lemma fillMatrix_shape n A : allocated A -> same_shape A (FillSpec.fillMatrix n A).
Proof.
  intros HA. unfold FillSpec.fillMatrix.
  destruct (Z_le_gt_dec (n - 1) 0) as [Hle | Hgt].
  { rewrite for_lt_none by lia. now apply same_shape_refl. }
  apply (for_lt_inv _ _ (fun _ A' => same_shape A A')); [lia | now apply same_shape_refl |].
  intros k A' Hk HS. cbv zeta.
  assert (P1 : forall B i j v, same_shape A B -> same_shape A (put B i j v)).
  { intros B i j v HB. apply same_shape_trans with B; [exact HB |].
    apply put_allocated. apply HB. }
  destruct (k =? 0); [auto |]. destruct (k =? n - 2); auto.
Qed.

Lemma fillMatrix_mat n A :
  2 <= n -> allocated A -> N A = n - 1 -> lowerBw A = 1 -> upperBw A = 1 ->
  forall i j, mat (FillSpec.fillMatrix n A) i j = splineMatrix K n i j.
Proof.
  intros Hn HA EN Ep Eq.
  destruct (Z.eq_dec n 2) as [-> | Hn3].
  - (* the write of A(0, 1) lands on the cell of A(0, 0) *)
    intros i j. unfold FillSpec.fillMatrix.
    replace (2 - 1) with (0 + 1) by lia.
    rewrite for_lt_last by lia. replace (0 + 1 - 1) with 0 by lia.
    rewrite for_lt_none by lia. cbv zeta. cbn [Z.eqb Z.add].
    unfold mat, splineMatrix.
    set (A2 := put (put A 0 0 (four K)) 0 1 1%K).
    assert (HS : same_shape A A2).
    { apply same_shape_trans with (put A 0 0 (four K)); apply put_allocated; auto.
      apply (put_allocated K A 0 0 (four K) HA). }
    rewrite (in_band_shape K A A2 i j HS).
    destruct (in_band A i j) eqn:Hb.
    + apply in_band_spec in Hb. rewrite EN in Hb.
      assert (i = 0) by lia. assert (j = 0) by lia. subst i j. cbn.
      destruct HA as (_ & _ & _ & d & Hd & HL).
      unfold A2, get, put, buf, offset. cbn [ptrData N lowerBw upperBw option_map].
      rewrite Hd. cbn [option_map]. rewrite EN, Eq.
      replace ((0 - 1 + 1) * (2 - 1) + 1) with 1 by lia.
      replace ((0 - 0 + 1) * (2 - 1) + 0) with 1 by lia.
      apply zget_zset_same. rewrite zset_length. lia.
    + zbool. exfalso.
      assert (Hb' : in_band A i j = true) by (apply in_band_spec; lia).
      congruence.
  - assert (G : same_shape A (FillSpec.fillMatrix n A) /\
                forall i j, mat (FillSpec.fillMatrix n A) i j
                  = if i <? n - 1 then splineMatrix K n i j else mat A i j).
    { unfold FillSpec.fillMatrix.
      apply (for_lt_inv _ _ (fun k A' => same_shape A A' /\
                forall i j, mat A' i j
                 = if i <? k then splineMatrix K n i j else mat A i j)); [lia | |].
      - split; [now apply same_shape_refl |].
        intros i j. destruct (Z.ltb_spec i 0); [| reflexivity].
        rewrite mat_outside by lia. unfold splineMatrix. zbool.
      - intros k A' Hk [HS HM]. cbv zeta.
        assert (HA' : allocated A') by apply HS.
        assert (EN' : N A' = n - 1) by (destruct HS as (? & _); lia).
        assert (Ep' : lowerBw A' = 1) by (destruct HS as (_ & ? & _); lia).
        assert (Eq' : upperBw A' = 1) by (destruct HS as (_ & _ & ? & _); lia).
        assert (PB : forall B j, same_shape A B -> k - 1 <= j <= k + 1 -> 0 <= j < n - 1 ->
                       in_band B k j = true).
        { intros B j (E1 & E2 & E3 & _) Hj Hj'. apply in_band_spec. lia. }
        assert (PS : forall B i j v, same_shape A B -> same_shape A (put B i j v)).
        { intros B i j v HB. apply same_shape_trans with B; [exact HB |].
          apply put_allocated. apply HB. }
        set (A1 := put A' k k (four K)).
        assert (HS1 : same_shape A A1) by now apply PS.
        assert (HM1 : forall i j, mat A1 i j
                  = if (i =? k) && (j =? k) then four K else mat A' i j).
        { intros i j. apply mat_put; [exact HA' |]. apply PB; [exact HS | lia | lia]. }
        destruct (Z.eqb_spec k 0) as [K0 | K0];
          [| destruct (Z.eqb_spec k (n - 2)) as [KL | KL]].
        + split; [now apply PS |].
          intros i j. rewrite mat_put; [| apply HS1 | apply PB; [exact HS1 | lia | lia]].
          rewrite HM1, HM. unfold splineMatrix. subst k.
          zbool; rewrite mat_outside; try reflexivity; lia.
        + split; [now apply PS |].
          intros i j. rewrite mat_put; [| apply HS1 | apply PB; [exact HS1 | lia | lia]].
          rewrite HM1, HM. unfold splineMatrix.
          zbool; rewrite mat_outside; try reflexivity; lia.
        + set (A2 := put A1 k (k - 1) 1%K).
          assert (HS2 : same_shape A A2) by now apply PS.
          split; [now apply PS |].
          intros i j. rewrite mat_put; [| apply HS2 | apply PB; [exact HS2 | lia | lia]].
          unfold A2. rewrite mat_put; [| apply HS1 | apply PB; [exact HS1 | lia | lia]].
          rewrite HM1, HM. unfold splineMatrix.
          zbool; rewrite mat_outside; try reflexivity; lia. }
    destruct G as [HS HM]. intros i j. rewrite HM.
    destruct (Z.ltb_spec i (n - 1)); [reflexivity |].
    rewrite mat_outside by lia. unfold splineMatrix. zbool.
Qed.

Lemma dominant_from_same n (S S' : Z -> Z -> K) :
  (forall i j, S i j = S' i j) -> dominant_from n 0 S' -> dominant_from n 0 S.
Proof.
  intros E H i Hi. rewrite E.
  rewrite (zsum_ext K 0 n _ (fun j => if j =? i then 0%K else fabs (S' i j))).
  - now apply H.
  - intros j _. now rewrite E.
Qed.

Lemma fillMatrix_dominated n A :
  2 <= n -> allocated A -> N A = n - 1 -> lowerBw A = 1 -> upperBw A = 1 ->
  dominated (N (FillSpec.fillMatrix n A)) 0 (mat (FillSpec.fillMatrix n A)).
Proof.
  intros Hn HA EN Ep Eq. left.
  destruct (fillMatrix_shape n A HA) as (EN' & _).
  rewrite EN', EN.
  apply dominant_from_same with (splineMatrix K n).
  - now apply fillMatrix_mat.
  - apply splineMatrix_dominant.
Qed.

End SplineMatrix.

(** ** The fitted spline: waypoints, tangents, second derivatives *)

Section FittedSpline.
Variable K : Scalar.
Add Field Kfield_spline : (F_field K).
Import BandedSystem CubicSpline LUSpec BandedSpec SplineExtra.
Implicit Types cs : CubicSpline.t K.
Implicit Types X D b inPs : list (Vector2d K).
Abbreviation vget := (zget (vzero K)).

Ltac vec_cells :=
  repeat match goal with
         | |- context [@zget ?T ?d ?l ?i] =>
             let v := fresh "v" in
             let x := fresh "x" in
             let y := fresh "y" in
             generalize (@zget T d l i); intros v; destruct v as [x y]
         end.

Lemma vcoord_ext (u v : Vector2d K) :
  vcoord u 0 = vcoord v 0 -> vcoord u 1 = vcoord v 1 -> u = v.
Proof.
  destruct u, v. cbn. now intros -> ->.
Qed.

Lemma configured_band headPos tailPos n b :
  2 <= n ->
  let M := A (ConfSpec.configured headPos tailPos n b) in
  allocated M /\ BandedSystem.N M = n - 1 /\ lowerBw M = 1 /\ upperBw M = 1.
Proof.
  intros Hn M. unfold M, ConfSpec.configured, allocated.
  cbn [A BandedSystem.N lowerBw upperBw ptrData].
  repeat split; try lia. eexists; split; [reflexivity |].
  rewrite repeat_length. lia.
Qed.

(** The tangents that a system of the size and the bandwidths of
    [setConditions] gives: they solve the system of the fit. *)
Lemma fitTangents_system cs X :
  2 <= N cs -> Z.of_nat (length (b cs)) = N cs - 1 ->
  allocated (A cs) -> BandedSystem.N (A cs) = N cs - 1 ->
  lowerBw (A cs) = 1 -> upperBw (A cs) = 1 ->
  forall r c, 0 <= r < N cs - 1 -> (c < 2)%nat ->
    zsum K 0 (N cs - 1) (fun j =>
      (splineMatrix K (N cs) r j * vcoord (vget (FitSpec.fitTangents cs X) (j + 1)) c)%K)
    = vcoord (vscale (three K) (vsub (vget X (r + 2)) (vget X r))) c.
Proof.
  intros Hn HL HA EN Ep Eq r c Hr Hc.
  destruct (fillSystem_spec K cs X HL) as (b0 & Efill & Lb0 & Hb0).
  unfold FitSpec.fitTangents. rewrite Efill.
  set (M := FillSpec.fillMatrix (N cs) (A cs)).
  destruct (fillMatrix_shape K (N cs) (A cs) HA) as (EN' & Ep' & Eq' & HM).
  fold M in EN', Ep', Eq', HM.
  destruct (@solve_dominated K _ _ M b0) as [[SL SE] _]; [exact HM | | lia |].
  { apply fillMatrix_dominated; auto; lia. }
  specialize (SE r c ltac:(lia) Hc). unfold product in SE.
  rewrite EN', EN in SE. rewrite <- Hb0 by lia.
  etransitivity; [| exact SE].
  apply zsum_ext. intros j Hj.
  destruct (tangents_spec K cs (solve (factorizeLU M) b0) ltac:(lia))
    as (_ & _ & _ & HD).
  rewrite HD by lia. replace (j + 1 - 1) with j by lia.
  unfold M. rewrite fillMatrix_mat by (auto; lia). reflexivity.
Qed.

(** A fit: its waypoints, its blocks of coefficients and its tangents. *)
Lemma fit_tangents cs0 headPos tailPos n inPs junk junkX junkb h :
  1 <= n -> n - 1 <= Z.of_nat (length inPs) ->
  exists cs X D,
    FitSpec.fit cs0 headPos tailPos n inPs junk junkX junkb h = Some cs /\
    N cs = n /\
    (forall i, 0 <= i <= n -> vget X i = waypoint headPos tailPos n inPs i) /\
    (forall i, 0 <= i < n -> block (b cs) i = pieceCoeffs X D i) /\
    vget D 0 = vzero K /\ vget D n = vzero K /\
    (2 <= n -> forall r c, 0 <= r < n - 1 -> (c < 2)%nat ->
       zsum K 0 (n - 1) (fun j =>
         (splineMatrix K n r j * vcoord (vget D (j + 1)) c)%K)
       = vcoord (vscale (three K) (vsub (vget X (r + 2)) (vget X r))) c).
Proof.
  intros Hn Hin.
  destruct (fit_some K cs0 headPos tailPos n inPs junk junkX junkb h Hn Hin)
    as (X & cs & Efit & _ & EN & _ & X0 & Xn & Xi & _ & Hb).
  set (cs1 := ConfSpec.configured headPos tailPos n (resize junk (b cs0) (n - 1))) in *.
  exists cs, X, (FitSpec.fitTangents cs1 X).
  split; [exact Efit |]. split; [exact EN |]. split; [| split; [exact Hb |]].
  { intros i Hi. unfold waypoint.
    destruct (Z.eqb_spec i 0) as [-> | H0]; [exact X0 |].
    destruct (Z.eqb_spec i n) as [-> | H1]; [exact Xn |].
    apply Xi. lia. }
  assert (ED : forall b1, vget (tangents cs1 b1) 0 = vzero K /\
                          vget (tangents cs1 b1) n = vzero K).
  { intros b1. destruct (tangents_spec K cs1 b1) as (_ & D0 & Dn & _).
    - unfold cs1, ConfSpec.configured. cbn [N]. lia.
    - split; [exact D0 | exact Dn]. }
  split; [| split].
  - unfold FitSpec.fitTangents. destruct (fillSystem cs1 X) as [A0 b0]. apply ED.
  - unfold FitSpec.fitTangents. destruct (fillSystem cs1 X) as [A0 b0]. apply ED.
  - intros Hn2 r c Hr Hc.
    destruct (configured_band headPos tailPos n (resize junk (b cs0) (n - 1)) Hn2)
      as (HA & EA & Ep & Eq).
    apply (fitTangents_system cs1 X); auto.
    unfold cs1, ConfSpec.configured. cbn [b N]. apply resize_length. lia.
Qed.

(** X8: for every piece count [n >= 1] and at least [n - 1] inner points,
    the piece [i] of the exported curve starts at the waypoint [i] and ends
    at the waypoint [i + 1], for every [i] in [0 .. n - 1]: the curve passes
    through the head, every inner point that is read and the tail, and its
    position is continuous at the junctions. *)
Theorem curve_through_waypoints cs0 headPos tailPos n inPs junk junkX junkb h curve :
  1 <= n -> n - 1 <= Z.of_nat (length inPs) ->
  exists cs,
    FitSpec.fit cs0 headPos tailPos n inPs junk junkX junkb h = Some cs /\
    forall i, 0 <= i < n ->
      exists p,
        nth_error (getCurve cs curve) (Z.to_nat i) = Some p /\
        position p 0%K = waypoint headPos tailPos n inPs i /\
        position p 1%K = waypoint headPos tailPos n inPs (i + 1).
Proof.
  intros Hn Hin.
  destruct (fit_tangents cs0 headPos tailPos n inPs junk junkX junkb h Hn Hin)
    as (cs & X & D & Efit & EN & HX & Hb & _).
  destruct (getCurve_spec K cs curve ltac:(lia)) as [_ Hc]. rewrite EN in Hc.
  exists cs. split; [exact Efit |]. intros i Hi.
  eexists. split; [exact (Hc i Hi) |].
  rewrite Hb by lia. rewrite piece_position_0, piece_position_1.
  split; apply HX; lia.
Qed.

(** X9: the ends of a fit are clamped: on the exported curve the first
    derivative of the piece 0 at [s = 0] and the first derivative of the
    piece [n - 1] at [s = 1] are zero, whatever the waypoints. *)
Theorem clamped_ends cs0 headPos tailPos n inPs junk junkX junkb h curve :
  1 <= n -> n - 1 <= Z.of_nat (length inPs) ->
  exists cs p0 pL,
    FitSpec.fit cs0 headPos tailPos n inPs junk junkX junkb h = Some cs /\
    nth_error (getCurve cs curve) 0 = Some p0 /\
    nth_error (getCurve cs curve) (Z.to_nat (n - 1)) = Some pL /\
    velocity p0 0%K = vzero K /\
    velocity pL 1%K = vzero K.
Proof.
  intros Hn Hin.
  destruct (fit_tangents cs0 headPos tailPos n inPs junk junkX junkb h Hn Hin)
    as (cs & X & D & Efit & EN & _ & Hb & D0 & Dn & _).
  destruct (getCurve_spec K cs curve ltac:(lia)) as [_ Hc]. rewrite EN in Hc.
  exists cs. do 2 eexists. split; [exact Efit |].
  split; [exact (Hc 0 ltac:(lia)) |]. split; [exact (Hc (n - 1) ltac:(lia)) |].
  rewrite !Hb by lia. rewrite piece_velocity_0, piece_velocity_1.
  replace (n - 1 + 1) with n by lia. now split.
Qed.

(** X10: a fit with a single piece reads no inner point and solves no
    system: the piece has [a = head], [b = 0], [c = 3 (tail - head)] and
    [d = 2 (head - tail)]. *)
Theorem single_piece cs0 headPos tailPos inPs junk junkX junkb h :
  exists cs,
    FitSpec.fit cs0 headPos tailPos 1 inPs junk junkX junkb h = Some cs /\
    N cs = 1 /\
    block (getCoeffs cs) 0
    = {| col0 := vscale (two K) (vsub headPos tailPos);
         col1 := vscale (three K) (vsub tailPos headPos);
         col2 := vzero K;
         col3 := headPos |}.
Proof.
  destruct (fit_tangents cs0 headPos tailPos 1 inPs junk junkX junkb h)
    as (cs & X & D & Efit & EN & HX & Hb & D0 & Dn & _); [lia | lia |].
  exists cs. split; [exact Efit |]. split; [exact EN |].
  unfold getCoeffs. rewrite Hb by lia. unfold pieceCoeffs.
  replace (0 + 1) with 1 by lia.
  rewrite D0, Dn, (HX 0), (HX 1) by lia. unfold waypoint. cbn [Z.eqb Pos.eqb].
  destruct headPos as [hx hy], tailPos as [tx ty].
  unfold vadd, vsub, vscale, vzero, two, three. cbn [fst snd].
  f_equal; f_equal; ring.
Qed.

(** X11: for [n >= 2] pieces the loop of [setInnerPoints] leaves in a band
    of the size and the bandwidths of [setConditions], whatever the band
    held, the matrix [splineMatrix]: for [n >= 3] it has 4 on the diagonal
    and 1 beside it, for [n = 2] its single entry is 1, not 4; the matrix is
    strictly diagonally dominant by rows. *)
Theorem fill_matrix_entries cs X :
  2 <= N cs -> allocated (A cs) -> BandedSystem.N (A cs) = N cs - 1 ->
  lowerBw (A cs) = 1 -> upperBw (A cs) = 1 ->
  Z.of_nat (length (b cs)) = N cs - 1 ->
  (forall i j, mat (fst (fillSystem cs X)) i j = splineMatrix K (N cs) i j) /\
  dominant_from (N cs - 1) 0 (mat (fst (fillSystem cs X))).
Proof.
  intros Hn HA EN Ep Eq HL.
  destruct (fillSystem_spec K cs X HL) as (b0 & Efill & _).
  rewrite Efill. cbn [fst].
  assert (HM : forall i j, mat (FillSpec.fillMatrix (N cs) (A cs)) i j
                 = splineMatrix K (N cs) i j)
    by (apply fillMatrix_mat; auto).
  split; [exact HM |].
  apply dominant_from_same with (splineMatrix K (N cs)); [exact HM |].
  apply splineMatrix_dominant.
Qed.

(** The tangent equations, for three pieces and more. *)
Lemma tangent_rows n X D :
  3 <= n -> vget D 0 = vzero K -> vget D n = vzero K ->
  (forall r c, 0 <= r < n - 1 -> (c < 2)%nat ->
     zsum K 0 (n - 1) (fun j =>
       (splineMatrix K n r j * vcoord (vget D (j + 1)) c)%K)
     = vcoord (vscale (three K) (vsub (vget X (r + 2)) (vget X r))) c) ->
  forall i, 1 <= i <= n - 1 ->
    vadd (vadd (vget D (i - 1)) (vscale (four K) (vget D i))) (vget D (i + 1))
    = vscale (three K) (vsub (vget X (i + 1)) (vget X (i - 1))).
Proof.
  intros Hn D0 Dn HS i Hi.
  assert (G : forall c, (c < 2)%nat ->
            vcoord (vadd (vadd (vget D (i - 1)) (vscale (four K) (vget D i)))
                         (vget D (i + 1))) c
            = vcoord (vscale (three K) (vsub (vget X (i + 1)) (vget X (i - 1)))) c).
  { intros c Hc. specialize (HS (i - 1) c ltac:(lia) Hc).
    replace (i - 1 + 2) with (i + 1) in HS by lia.
    rewrite <- HS.
    rewrite (splineMatrix_row K n (i - 1)
               (fun j => vcoord (vget D (j + 1)) c)) by lia.
    replace (i - 1 + 1) with i by lia. replace (i - 1 - 1 + 1) with (i - 1) by lia.
    destruct (Z.ltb_spec 0 (i - 1)) as [L | L];
      destruct (Z.ltb_spec (i - 1) (n - 2)) as [U | U].
    - destruct c as [| [| c]]; [| | lia]; vec_cells; cbn; ring.
    - replace (i + 1) with n by lia. rewrite Dn.
      destruct c as [| [| c]]; [| | lia]; vec_cells; cbn; ring.
    - replace (i - 1) with 0 by lia. rewrite D0.
      destruct c as [| [| c]]; [| | lia]; vec_cells; cbn; ring.
    - lia. }
  apply vcoord_ext; apply G; lia.
Qed.

(** X12: for [n >= 3] pieces the first derivatives at the waypoints solve
    the tangent equations: at every inner junction [i], with [p] the piece
    [i - 1] and [q] the piece [i], [p'(0) + 4 q'(0) + q'(1)] is
    [3 (x(i + 1) - x(i - 1))]. *)
Theorem tangent_equations cs0 headPos tailPos n inPs junk junkX junkb h curve :
  3 <= n -> n - 1 <= Z.of_nat (length inPs) ->
  exists cs,
    FitSpec.fit cs0 headPos tailPos n inPs junk junkX junkb h = Some cs /\
    forall i, 1 <= i <= n - 1 ->
      exists p q,
        nth_error (getCurve cs curve) (Z.to_nat (i - 1)) = Some p /\
        nth_error (getCurve cs curve) (Z.to_nat i) = Some q /\
        vadd (vadd (velocity p 0%K) (vscale (four K) (velocity q 0%K)))
             (velocity q 1%K)
        = vscale (three K) (vsub (waypoint headPos tailPos n inPs (i + 1))
                                 (waypoint headPos tailPos n inPs (i - 1))).
Proof.
  intros Hn Hin.
  destruct (fit_tangents cs0 headPos tailPos n inPs junk junkX junkb h
              ltac:(lia) Hin)
    as (cs & X & D & Efit & EN & HX & Hb & D0 & Dn & HS).
  destruct (getCurve_spec K cs curve ltac:(lia)) as [_ Hc]. rewrite EN in Hc.
  exists cs. split; [exact Efit |]. intros i Hi.
  do 2 eexists. split; [exact (Hc (i - 1) ltac:(lia)) |].
  split; [exact (Hc i ltac:(lia)) |].
  rewrite !Hb by lia. rewrite !piece_velocity_0, piece_velocity_1.
  rewrite <- !HX by lia.
  apply tangent_rows with n; auto. apply HS. lia.
Qed.

(** The second derivatives of two pieces at their junction, from the tangent
    equation of the junction. *)
Lemma junction_acceleration (xa xb xc da db dc : Vector2d K) (t : K) :
  vadd (vadd da (vscale (four K) db)) dc
  = vadd (vscale (three K) (vsub xc xa)) (vscale t (vsub xc xa)) ->
  vsub
    (vadd (vscale (two K)
             (vsub (vsub (vscale (three K) (vsub xb xa)) (vscale (two K) da)) db))
          (vscale (two K * three K * 1)%K
             (vadd (vadd (vscale (two K) (vsub xa xb)) da) db)))
    (vadd (vscale (two K)
             (vsub (vsub (vscale (three K) (vsub xc xb)) (vscale (two K) db)) dc))
          (vscale (two K * three K * 0)%K
             (vadd (vadd (vscale (two K) (vsub xb xc)) db) dc)))
  = vscale (two K * t)%K (vsub xc xa).
Proof.
  destruct xa as [xa1 xa2], xb as [xb1 xb2], xc as [xc1 xc2].
  destruct da as [da1 da2], db as [db1 db2], dc as [dc1 dc2].
  unfold vadd, vsub, vscale, four, two, three. cbn [fst snd].
  intros E. injection E as E1 E2.
  f_equal.
  - transitivity ((1 + 1) * (da1 + (1 + 1) * (1 + 1) * db1 + dc1)
                  - (1 + 1) * (1 + 1 + 1) * (xc1 - xa1))%K; [ring |].
    rewrite E1. ring.
  - transitivity ((1 + 1) * (da2 + (1 + 1) * (1 + 1) * db2 + dc2)
                  - (1 + 1) * (1 + 1 + 1) * (xc2 - xa2))%K; [ring |].
    rewrite E2. ring.
Qed.

Lemma vsub_zero (u v : Vector2d K) : vsub u v = vzero K -> u = v.
Proof.
  destruct u as [u1 u2], v as [v1 v2]. unfold vsub, vzero. cbn [fst snd].
  intros E. injection E as E1 E2. f_equal.
  - replace u1 with (u1 - v1 + v1)%K by ring. rewrite E1. ring.
  - replace u2 with (u2 - v2 + v2)%K by ring. rewrite E2. ring.
Qed.

(** X13: for [n >= 3] pieces the second derivative is continuous at every
    inner junction [i]: the second derivative of the piece [i - 1] at
    [s = 1] is the second derivative of the piece [i] at [s = 0]. *)
Theorem acceleration_continuity cs0 headPos tailPos n inPs junk junkX junkb h curve :
  3 <= n -> n - 1 <= Z.of_nat (length inPs) ->
  exists cs,
    FitSpec.fit cs0 headPos tailPos n inPs junk junkX junkb h = Some cs /\
    forall i, 1 <= i <= n - 1 ->
      exists p q,
        nth_error (getCurve cs curve) (Z.to_nat (i - 1)) = Some p /\
        nth_error (getCurve cs curve) (Z.to_nat i) = Some q /\
        acceleration p 1%K = acceleration q 0%K.
Proof.
  intros Hn Hin.
  destruct (fit_tangents cs0 headPos tailPos n inPs junk junkX junkb h
              ltac:(lia) Hin)
    as (cs & X & D & Efit & EN & HX & Hb & D0 & Dn & HS).
  destruct (getCurve_spec K cs curve ltac:(lia)) as [_ Hc]. rewrite EN in Hc.
  exists cs. split; [exact Efit |]. intros i Hi.
  do 2 eexists. split; [exact (Hc (i - 1) ltac:(lia)) |].
  split; [exact (Hc i ltac:(lia)) |].
  rewrite !Hb by lia.
  pose proof (tangent_rows n X D Hn D0 Dn (HS ltac:(lia)) i Hi) as E.
  unfold acceleration, pieceCoeffs. cbn [coeffMat col0 col1].
  replace (i - 1 + 1) with i by lia.
  apply vsub_zero.
  rewrite (junction_acceleration _ _ _ _ _ _ 0%K).
  - destruct (vsub (vget X (i + 1)) (vget X (i - 1))) as [u1 u2].
    unfold vscale, vzero. cbn [fst snd]. f_equal; ring.
  - rewrite E.
    destruct (vsub (vget X (i + 1)) (vget X (i - 1))) as [u1 u2].
    unfold vadd, vscale. cbn [fst snd]. f_equal; ring.
Qed.

(** X14: for [n = 2] pieces the write of [A(0, 1)] lands on the cell of
    [A(0, 0)], the system solved is [1 * D = 3 (tail - head)]: on the
    exported curve the first derivative at the inner point is
    [3 (tail - head)] whatever the inner point, and the second derivative
    jumps there by [18 (tail - head)]. *)
Theorem two_pieces_tangent cs0 headPos tailPos inPs junk junkX junkb h curve :
  1 <= Z.of_nat (length inPs) ->
  exists cs p q,
    FitSpec.fit cs0 headPos tailPos 2 inPs junk junkX junkb h = Some cs /\
    nth_error (getCurve cs curve) 0 = Some p /\
    nth_error (getCurve cs curve) 1 = Some q /\
    velocity q 0%K = vscale (three K) (vsub tailPos headPos) /\
    vsub (acceleration p 1%K) (acceleration q 0%K)
    = vscale (two K * (three K * three K))%K (vsub tailPos headPos).
Proof.
  intros Hin.
  destruct (fit_tangents cs0 headPos tailPos 2 inPs junk junkX junkb h
              ltac:(lia) ltac:(lia))
    as (cs & X & D & Efit & EN & HX & Hb & D0 & Dn & HS).
  destruct (getCurve_spec K cs curve ltac:(lia)) as [_ Hc]. rewrite EN in Hc.
  exists cs. do 2 eexists. split; [exact Efit |].
  split; [exact (Hc 0 ltac:(lia)) |]. split; [exact (Hc 1 ltac:(lia)) |].
  rewrite !Hb by lia.
  assert (E1 : vget D 1 = vscale (three K) (vsub (vget X 2) (vget X 0))).
  { assert (G : forall c, (c < 2)%nat ->
              vcoord (vget D 1) c
              = vcoord (vscale (three K) (vsub (vget X 2) (vget X 0))) c).
    { intros c Hc2. pose proof (HS ltac:(lia) 0 c ltac:(lia) Hc2) as H.
      replace (2 - 1) with (0 + 1) in H by lia. rewrite zsum_one in H.
      change (0 + 2) with 2 in H. change (0 + 1) with 1 in H.
      rewrite <- H.
      replace (splineMatrix K 2 0 0) with (f1 K) by reflexivity. ring. }
    apply vcoord_ext; apply G; lia. }
  assert (X0 : vget X 0 = headPos) by (rewrite HX by lia; reflexivity).
  assert (X2 : vget X 2 = tailPos) by (rewrite HX by lia; reflexivity).
  split.
  - rewrite piece_velocity_0, E1, X0, X2. reflexivity.
  - unfold acceleration, pieceCoeffs. cbn [coeffMat col0 col1].
    replace (0 + 1) with 1 by lia. replace (1 + 1) with 2 by lia.
    rewrite (junction_acceleration _ _ _ _ _ _ (three K * three K)%K).
    + now rewrite X0, X2.
    + rewrite D0, Dn, E1.
      destruct (vsub (vget X 2) (vget X 0)) as [u1 u2].
      unfold vadd, vscale, vzero, four, three, two. cbn [fst snd]. f_equal; ring.
Qed.

End FittedSpline.

(** ** The stretch energy, a second fit, the destructor *)

Section Energy.
Variable K : Scalar.
Add Field Kfield_energy : (F_field K).
Import CubicSpline.
Implicit Types cs : CubicSpline.t K.

Lemma fle_sum_zero (x y : K) : (0 <= x)%K -> (0 <= y)%K -> (x + y)%K = 0%K -> x = 0%K.
Proof.
  intros Hx Hy E. apply fle_antisym; [| exact Hx].
  replace x with (- y)%K by (replace x with (x + y - y)%K by ring; rewrite E; ring).
  replace (f0 K) with (- f0 K)%K by ring. now apply fle_opp.
Qed.

Lemma square_zero (x : K) : (x * x)%K = 0%K -> x = 0%K.
Proof.
  intros E. destruct (feqb K x 0%K) eqn:Ex; [now apply (feqb_eq K) |].
  assert (Hx : x <> 0%K) by (intros H; apply (feqb_eq K) in H; congruence).
  apply (fmul_cancel_l K x); [exact Hx |]. rewrite E. ring.
Qed.

Lemma three_nonzero : three K <> 0%K.
Proof.
  intros E.
  assert (H : (0 < three K)%K).
  { apply flt_le_trans with 1%K; [apply flt_0_1 |].
    replace (f1 K) with (f0 K + f1 K)%K at 1 by ring. unfold three.
    apply fle_add_r. apply fle_0_add; apply fle_0_1. }
  rewrite E in H. exact (flt_irrefl K _ H).
Qed.

Lemma two_nonzero : two K <> 0%K.
Proof.
  intros E.
  assert (H : (0 < two K)%K).
  { apply flt_le_trans with 1%K; [apply flt_0_1 |].
    replace (f1 K) with (f0 K + f1 K)%K at 1 by ring. unfold two.
    apply fle_add_r. apply fle_0_1. }
  rewrite E in H. exact (flt_irrefl K _ H).
Qed.

(** The term of one coordinate: [4 x^2 + 12 y^2 + 12 y x]. *)
Lemma energy_term_square (x y : K) :
  (four K * (x * x) + twelve K * (y * y) + twelve K * (y * x))%K
  = ((two K * x + three K * y) * (two K * x + three K * y)
     + three K * (y * y))%K.
Proof.
  unfold twelve, four, three, two. ring.
Qed.

Lemma energy_term_nonneg (x y : K) :
  (0 <= (two K * x + three K * y) * (two K * x + three K * y)
        + three K * (y * y))%K.
Proof.
  apply fle_0_add; [apply fle_0_square |].
  apply (fleb_mul K); [| apply fle_0_square].
  unfold three. apply fle_0_add; [apply fle_0_add |]; apply fle_0_1.
Qed.

Lemma energy_term_zero (x y : K) :
  ((two K * x + three K * y) * (two K * x + three K * y)
   + three K * (y * y))%K = 0%K -> x = 0%K /\ y = 0%K.
Proof.
  intros E.
  assert (H3 : (0 <= three K * (y * y))%K).
  { apply (fleb_mul K); [| apply fle_0_square].
    unfold three. apply fle_0_add; [apply fle_0_add |]; apply fle_0_1. }
  assert (E1 := fle_sum_zero _ _ (fle_0_square K _) H3 E).
  assert (E2 : (three K * (y * y))%K = 0%K).
  { rewrite E1 in E. rewrite <- E. ring. }
  assert (Ey : y = 0%K).
  { apply square_zero. apply (fmul_cancel_l K (three K)); [apply three_nonzero |].
    rewrite E2. ring. }
  split; [| exact Ey].
  apply square_zero in E1. subst y.
  apply (fmul_cancel_l K (two K)); [apply two_nonzero |].
  replace (two K * x)%K with (two K * x + three K * 0)%K by ring.
  rewrite E1. ring.
Qed.

Lemma zsum_zero_parts lo hi (f : Z -> K) :
  (forall j, lo <= j < hi -> (0 <= f j)%K) -> zsum K lo hi f = 0%K ->
  forall j, lo <= j < hi -> f j = 0%K.
Proof.
  intros Hf E j Hj. rewrite (zsum_remove K lo hi j) in E by lia.
  refine (fle_sum_zero _ _ _ _ E); [now apply Hf |].
  apply zsum_nonneg. intros m Hm. destruct (m =? j); [apply fle_refl | now apply Hf].
Qed.

(** X15: whatever the object holds, the stretch energy that
    [getStretchEnergy] returns is not negative, and it is 0 exactly when
    the coefficients [c_i] and [d_i] of every piece are zero. *)
Theorem stretch_energy_nonneg cs :
  (0 <= getStretchEnergy cs)%K /\
  (getStretchEnergy cs = 0%K <->
   forall i, 0 <= i < N cs ->
     col0 (block (b cs) i) = vzero K /\ col1 (block (b cs) i) = vzero K).
Proof.
  rewrite getStretchEnergy_sum. cbv zeta.
  set (f := fun i : Z => _).
  assert (Ef : forall i, f i
            = (let x := col0 (block (b cs) i) in
               let y := col1 (block (b cs) i) in
               ((two K * fst x + three K * fst y) * (two K * fst x + three K * fst y)
                + three K * (fst y * fst y))
               + ((two K * snd x + three K * snd y) * (two K * snd x + three K * snd y)
                  + three K * (snd y * snd y)))%K).
  { intros i. unfold f. cbv zeta. rewrite <- !energy_term_square.
    unfold squaredNorm, dot. ring. }
  assert (Hf : forall i, (0 <= f i)%K).
  { intros i. rewrite Ef. cbv zeta. apply fle_0_add; apply energy_term_nonneg. }
  split; [apply zsum_nonneg; auto |].
  split.
  - intros E i Hi.
    pose proof (zsum_zero_parts 0 (N cs) f (fun j _ => Hf j) E i Hi) as Ei.
    rewrite Ef in Ei. cbv zeta in Ei.
    pose proof (fle_sum_zero _ _ (energy_term_nonneg _ _) (energy_term_nonneg _ _) Ei) as E1.
    assert (E2 : ((two K * snd (col0 (block (b cs) i)) + three K * snd (col1 (block (b cs) i)))
                  * (two K * snd (col0 (block (b cs) i)) + three K * snd (col1 (block (b cs) i)))
                  + three K * (snd (col1 (block (b cs) i)) * snd (col1 (block (b cs) i))))%K
                 = 0%K).
    { rewrite E1 in Ei. rewrite <- Ei. ring. }
    apply energy_term_zero in E1. apply energy_term_zero in E2.
    destruct E1 as [A1 B1], E2 as [A2 B2].
    destruct (col0 (block (b cs) i)) as [x1 x2], (col1 (block (b cs) i)) as [y1 y2].
    cbn [fst snd] in *. unfold vzero. split; congruence.
  - intros H. apply zsum_zero. intros i Hi. destruct (H i Hi) as [E0 E1].
    unfold f. rewrite E0, E1. unfold squaredNorm, dot, vzero. cbn [fst snd]. ring.
Qed.

End Energy.

Section SecondFit.
Variable K : Scalar.
Add Field Kfield_second : (F_field K).
Import BandedSystem CubicSpline LUSpec BandedSpec SplineExtra.
Implicit Types cs : CubicSpline.t K.
Implicit Types X D b inPs : list (Vector2d K).
Abbreviation vget := (zget (vzero K)).

Lemma zget_firstn (T : Type) (d : T) (l : list T) (m : nat) (i : Z) :
  i < Z.of_nat m -> zget d (firstn m l) i = zget d l i.
Proof.
  intros H. unfold zget. destruct (Z.ltb_spec i 0); [reflexivity |].
  rewrite nth_firstn.
  destruct (Nat.ltb_spec (Z.to_nat i) m); [reflexivity | lia].
Qed.

(** [fillSystem] on a right-hand side that has more rows than the system:
    the further rows are left as they are. *)
Lemma fillSystem_rows cs X :
  N cs - 1 <= Z.of_nat (length (b cs)) ->
  exists b', fillSystem cs X = (FillSpec.fillMatrix (N cs) (A cs), b') /\
    length b' = length (b cs) /\
    forall i, 0 <= i < N cs - 1 ->
      vget b' i = vscale (three K) (vsub (vget X (i + 2)) (vget X i)).
Proof.
  intros HL. unfold fillSystem, FillSpec.fillMatrix.
  destruct (Z_lt_le_dec (N cs - 1) 0) as [Hneg | Hpos].
  { rewrite !for_lt_none by lia. exists (b cs). repeat split; auto. intros; lia. }
  set (bdA := fun (i : Z) (A : BandedSystem.t K) => _).
  apply (for_lt_inv _ _ (fun k s => exists b', s = (for_lt 0 k bdA (A cs), b') /\
           length b' = length (b cs) /\
           forall i, 0 <= i < k ->
             vget b' i = vscale (three K) (vsub (vget X (i + 2)) (vget X i))));
    [lia | |].
  - exists (b cs). rewrite for_lt_none by lia. repeat split; auto. intros; lia.
  - intros k s Hk (b' & -> & Hlen & Hi).
    exists (zset b' k (vscale (three K) (vsub (vget X (k + 2)) (vget X k)))).
    split; [| split].
    + rewrite (for_lt_last _ bdA 0 (k + 1)) by lia.
      replace (k + 1 - 1) with k by lia. unfold bdA. cbv beta iota zeta.
      destruct (Z.eqb_spec k 0); [reflexivity |].
      destruct (Z.eqb_spec k (N cs - 2)); reflexivity.
    + now rewrite zset_length.
    + intros i Hik. rewrite zget_zset by lia.
      destruct (Z.eqb_spec i k) as [-> | Hne]; auto. apply Hi. lia.
Qed.

(** The tangents read the first [N - 1] rows of the solution only. *)
Lemma tangents_rows cs cs' b b' :
  0 <= N cs -> N cs' = N cs ->
  (forall i, 0 <= i < N cs - 1 -> vget b i = vget b' i) ->
  tangents cs b = tangents cs' b'.
Proof.
  intros HN EN Hrows.
  destruct (tangents_spec K cs b HN) as (L & D0 & Dn & Di).
  destruct (tangents_spec K cs' b' ltac:(lia)) as (L' & D0' & Dn' & Di').
  rewrite EN in L', Dn', Di'.
  apply (zget_ext _ (vzero K)); [lia |].
  intros i Hi.
  destruct (Z.eq_dec i 0) as [-> | H0]; [congruence |].
  destruct (Z.eq_dec i (N cs)) as [-> | H1]; [congruence |].
  rewrite Di, Di' by lia. apply Hrows. lia.
Qed.

(** [setInnerPoints] on an object whose right-hand side has at least the
    rows of the system. *)
Lemma setInnerPoints_rows cs inPs junkX junkb :
  1 <= N cs -> N cs - 1 <= Z.of_nat (length (b cs)) ->
  N cs - 1 <= Z.of_nat (length inPs) ->
  exists X b0 cs',
    waypoints cs inPs junkX = Some X /\
    fillSystem cs X = (FillSpec.fillMatrix (N cs) (A cs), b0) /\
    length b0 = length (b cs) /\
    (forall i, 0 <= i < N cs - 1 ->
       vget b0 i = vscale (three K) (vsub (vget X (i + 2)) (vget X i))) /\
    setInnerPoints cs inPs junkX junkb = Some cs' /\
    N cs' = N cs /\ headP cs' = headP cs /\ tailP cs' = tailP cs /\
    A cs' = factorizeLU (FillSpec.fillMatrix (N cs) (A cs)) /\
    Z.of_nat (length (b cs')) = N cs * 4 /\
    forall i, 0 <= i < N cs ->
      block (b cs') i
      = pieceCoeffs X (tangents cs (solve (factorizeLU
                         (FillSpec.fillMatrix (N cs) (A cs))) b0)) i.
Proof.
  intros HN HL Hin.
  destruct (waypoints_some K cs inPs junkX HN Hin) as (X & EX & _).
  destruct (fillSystem_rows cs X HL) as (b0 & Efill & Lb0 & Hb0).
  exists X, b0. unfold setInnerPoints. rewrite EX, Efill.
  eexists; split; [reflexivity |]. split; [reflexivity |].
  split; [exact Lb0 |]. split; [exact Hb0 |].
  split; [reflexivity |]. cbn [N headP tailP A b].
  do 4 (split; [reflexivity |]).
  set (D := tangents cs _). set (b2 := resize junkb _ _).
  assert (L2 : Z.of_nat (length b2) = N cs * 4) by (apply resize_length; lia).
  destruct (storeCoeffs_spec K cs X D b2 L2) as [L3 B3].
  split; [lia | exact B3].
Qed.

(** Two factorizations of the matrix of the fit solve alike. *)
Lemma solve_same_matrix (M M' : BandedSystem.t K) n b0 :
  2 <= n -> Z.of_nat (length b0) = n - 1 ->
  allocated M -> BandedSystem.N M = n - 1 -> lowerBw M = 1 -> upperBw M = 1 ->
  allocated M' -> BandedSystem.N M' = n - 1 -> lowerBw M' = 1 -> upperBw M' = 1 ->
  solve (factorizeLU (FillSpec.fillMatrix n M')) b0
  = solve (factorizeLU (FillSpec.fillMatrix n M)) b0.
Proof.
  intros Hn Lb HA EN Ep Eq HA' EN' Ep' Eq'.
  set (T := FillSpec.fillMatrix n M). set (T' := FillSpec.fillMatrix n M').
  destruct (fillMatrix_shape K n M HA) as (SN & _ & _ & HT). fold T in SN, HT.
  destruct (fillMatrix_shape K n M' HA') as (SN' & _ & _ & HT'). fold T' in SN', HT'.
  destruct (@solve_dominated K _ _ T b0 HT) as [_ Uniq].
  { apply fillMatrix_dominated; auto. }
  { lia. }
  destruct (@solve_dominated K _ _ T' b0 HT') as [[SL SE] _].
  { apply fillMatrix_dominated; auto. }
  { lia. }
  apply Uniq. split; [exact SL |].
  intros i c Hi Hc. rewrite <- (SE i c ltac:(lia) Hc).
  unfold product. rewrite SN, SN', EN, EN'.
  apply zsum_ext. intros j Hj. unfold T, T'.
  rewrite !fillMatrix_mat by auto. reflexivity.
Qed.

(** X16: a second [setInnerPoints] on a fitted object, with other inner
    points, gives the coefficients of a fit of these points from the start:
    the band that holds the factors of the first fit is filled again, and
    the rows of the coefficients that the first fit left beyond the system
    are not read before they are written. *)
Theorem second_fit cs0 headPos tailPos n inPs inPs' junk junkX junkb junkX' junkb' h :
  1 <= n -> n - 1 <= Z.of_nat (length inPs) -> n - 1 <= Z.of_nat (length inPs') ->
  exists cs1 cs2 cs2',
    FitSpec.fit cs0 headPos tailPos n inPs junk junkX junkb h = Some cs1 /\
    setInnerPoints cs1 inPs' junkX' junkb' = Some cs2 /\
    FitSpec.fit cs0 headPos tailPos n inPs' junk junkX junkb h = Some cs2' /\
    N cs2 = N cs2' /\ headP cs2 = headP cs2' /\ tailP cs2 = tailP cs2' /\
    getCoeffs cs2 = getCoeffs cs2' /\
    getStretchEnergy cs2 = getStretchEnergy cs2' /\
    forall curve, getCurve cs2 curve = getCurve cs2' curve.
Proof.
  intros Hn Hin Hin'. unfold FitSpec.fit. rewrite setConditions_some by lia.
  set (c1 := ConfSpec.configured headPos tailPos n (resize junk (b cs0) (n - 1))).
  assert (N1 : N c1 = n) by reflexivity.
  assert (L1 : Z.of_nat (length (b c1)) = n - 1).
  { unfold c1, ConfSpec.configured. cbn [b]. apply resize_length. lia. }
  destruct (setInnerPoints_rows c1 inPs junkX junkb) as
    (X1 & b1 & cs1 & _ & _ & _ & _ & E1 & EN1 & Eh1 & Et1 & EA1 & Lb1 & _);
    [lia | lia | lia |].
  destruct (setInnerPoints_rows c1 inPs' junkX junkb) as
    (X & b0 & cs2' & EX & _ & Lb0 & Hb0 & E2' & EN2' & Eh2' & Et2' & EA2' & Lb2' & Hb2');
    [lia | lia | lia |].
  destruct (setInnerPoints_rows cs1 inPs' junkX' junkb') as
    (X' & b0' & cs2 & EX' & _ & Lb0' & Hb0' & E2 & EN2 & Eh2 & Et2 & EA2 & Lb2 & Hb2);
    [lia | lia | lia |].
  rewrite N1 in *. rewrite EN1 in *.
  assert (XX : X' = X).
  { pose proof (waypoints_agree K c1 cs1 inPs' inPs' junkX junkX' X) as W.
    rewrite W in EX'; auto; try lia. congruence. }
  subst X'.
  exists cs1, cs2, cs2'.
  split; [exact E1 |]. split; [exact E2 |]. split; [exact E2' |].
  assert (EN : N cs2 = N cs2') by lia.
  assert (Eb : b cs2 = b cs2').
  { apply block_ext with n; [lia | lia |].
    intros i Hi. rewrite Hb2, Hb2' by lia. f_equal.
    apply tangents_rows; [lia | lia |]. rewrite EN1.
    intros r Hr.
    assert (Hn2 : 2 <= n) by lia.
    destruct (configured_band K headPos tailPos n (resize junk (b cs0) (n - 1)) Hn2)
      as (HA & ENA & Ep & Eq). fold c1 in HA, ENA, Ep, Eq.
    set (T := FillSpec.fillMatrix n (A c1)) in *.
    destruct (fillMatrix_shape K n (A c1) HA) as (TN & Tp & Tq & HT). fold T in TN, Tp, Tq, HT.
    destruct (factorizeLU_shape K T HT) as (FN & Fp & Fq & HF).
    rewrite <- EA1 in FN, Fp, Fq, HF.
    set (M' := factorizeLU (FillSpec.fillMatrix n (A cs1))).
    assert (NM' : BandedSystem.N M' = n - 1).
    { unfold M'.
      destruct (fillMatrix_shape K n (A cs1) HF) as (SN & _ & _ & HS).
      destruct (factorizeLU_shape K _ HS) as (GN & _). lia. }
    assert (Split : b0' = b0 ++ skipn (Z.to_nat (n - 1)) b0').
    { rewrite <- (firstn_skipn (Z.to_nat (n - 1)) b0') at 1. f_equal.
      apply (zget_ext _ (vzero K)).
      - rewrite length_firstn. lia.
      - intros j Hj. rewrite length_firstn in Hj.
        rewrite zget_firstn by lia. rewrite Hb0, Hb0' by lia. reflexivity. }
    rewrite Split.
    rewrite (@solve_app K _ _ M' b0) by lia.
    rewrite zget_app_l by (rewrite solve_length; lia).
    unfold M'. f_equal.
    apply solve_same_matrix; auto; lia. }
  split; [exact EN |]. split; [congruence |]. split; [congruence |].
  split; [exact Eb |]. split.
  - unfold getStretchEnergy. now rewrite EN, Eb.
  - intros curve. unfold getCurve. now rewrite EN, Eb.
Qed.

Lemma destroy_same_shape (M M' : BandedSystem.t K) h :
  same_shape M M' -> allocated M -> snd (destroy M' h) = snd (destroy M h).
Proof.
  intros (EN & Ep & Eq & _ & _ & _ & d' & Hd' & L') (_ & _ & _ & d & Hd & L).
  unfold destroy. rewrite Hd, Hd'. cbn [snd]. f_equal. lia.
Qed.

(** X17: the storage that the destructor gives back.  After
    [setConditions], and after a fit that follows, the destructor leaves the
    free store as it would have left it before [setConditions]: an object
    that held no storage at the start leaves no array behind. *)
Theorem destructor_frees_storage cs0 headPos tailPos n junk h cs1 h1 :
  setConditions cs0 headPos tailPos n junk h = Some (cs1, h1) ->
  destructor cs1 h1 = destructor cs0 h /\
  forall inPs junkX junkb cs2,
    setInnerPoints cs1 inPs junkX junkb = Some cs2 ->
    destructor cs2 h1 = destructor cs0 h.
Proof.
  intros E. unfold setConditions in E.
  destruct (Z.ltb_spec (n - 1) 0) as [Hneg | Hpos]; [discriminate |].
  rewrite (surjective_pairing (create (A cs0) (n - 1) 1 1 h)) in E.
  injection E as <- <-.
  set (C := fst (create (A cs0) (n - 1) 1 1 h)).
  set (c1 := {| N := n; headP := headPos; tailP := tailPos; A := C;
                b := resize junk (b cs0) (n - 1) |}).
  assert (G : destructor c1 (snd (create (A cs0) (n - 1) 1 1 h)) = destructor cs0 h).
  { unfold destructor, c1, C. cbn [A].
    rewrite create_snd. unfold destroy at 1. rewrite create_fst. cbn [ptrData fst snd].
    rewrite repeat_length. apply heap_new_delete. }
  split; [exact G |].
  intros inPs junkX junkb cs2 E2. rewrite <- G.
  unfold setInnerPoints in E2.
  destruct (waypoints c1 inPs junkX) as [X |]; [| discriminate].
  destruct (fillSystem_rows c1 X) as (b0 & Efill & _).
  { unfold c1. cbn [N b]. rewrite resize_length by lia. lia. }
  rewrite Efill in E2. injection E2 as <-. unfold destructor. cbn [A N].
  destruct (Z.eq_dec n 1) as [-> | Hn].
  - unfold FillSpec.fillMatrix. rewrite for_lt_none by lia.
    rewrite factorizeLU_steps.
    rewrite for_le_none; [reflexivity |].
    unfold C. rewrite create_fst. cbn [BandedSystem.N]. lia.
  - assert (HC : allocated C) by (apply create_allocated; lia).
    apply destroy_same_shape; [| exact HC].
    apply same_shape_trans with (FillSpec.fillMatrix n C).
    + now apply fillMatrix_shape.
    + apply factorizeLU_shape. now apply (fillMatrix_shape K n C HC).
Qed.

End SecondFit.

(** ** The columns of a right-hand side, the layout of the coefficients,
       translations *)

Section Mapped.
Variables (S T : Type) (f : S -> T).

Lemma map_upd (n : nat) (v : S) (l : list S) : map f (upd n v l) = upd n (f v) (map f l).
Proof.
  revert n; induction l as [| x l IH]; intros [| n]; simpl; try reflexivity.
  now rewrite IH.
Qed.

Lemma map_zset (l : list S) (i : Z) (v : S) :
  map f (zset l i v) = zset (map f l) i (f v).
Proof.
  unfold zset. destruct (i <? 0); [reflexivity | apply map_upd].
Qed.

Lemma zget_map (d : S) (l : list S) (i : Z) :
  zget (f d) (map f l) i = f (zget d l i).
Proof.
  unfold zget. destruct (i <? 0); [reflexivity | apply map_nth].
Qed.

Lemma zget_map_in (d : S) (d' : T) (l : list S) (i : Z) :
  0 <= i < Z.of_nat (length l) -> zget d' (map f l) i = f (zget d l i).
Proof.
  intros H. rewrite <- zget_map. unfold zget.
  destruct (Z.ltb_spec i 0); [lia |].
  apply nth_indep. rewrite length_map. lia.
Qed.

End Mapped.

Section Columns.
Variable K : Scalar.
Add Field Kfield_columns : (F_field K).
Import BandedSystem LUSpec.
Context {R R' : Type} {RO : RowOps K R} {RO' : RowOps K R'}.
Variable phi : R -> R'.
Hypothesis phi_0 : phi row0 = row0.
Hypothesis phi_sub : forall r s, phi (row_sub r s) = row_sub (phi r) (phi s).
Hypothesis phi_scale : forall c r, phi (row_scale c r) = row_scale c (phi r).
Hypothesis phi_div : forall r c, phi (row_div r c) = row_div (phi r) c.

Lemma row_map (B : list R) i : row (map phi B) i = phi (row B i).
Proof.
  unfold row. rewrite <- phi_0. apply zget_map.
Qed.

Lemma row_axpy_map c (B : list R) i j :
  map phi (row_axpy c B i j) = row_axpy c (map phi B) i j.
Proof.
  unfold row_axpy. rewrite map_zset, phi_sub, phi_scale, !row_map. reflexivity.
Qed.

Lemma column_op_map (coef : Z -> K) j lo hi (B : list R) :
  map phi (column_op coef j lo hi B) = column_op coef j lo hi (map phi B).
Proof.
  unfold column_op.
  apply (for_le_push _ _ (map phi) (fun _ => True)); [exact I |].
  intros i b _ _. split; [exact I |].
  destruct (nonzero (coef i)); [apply row_axpy_map | reflexivity].
Qed.

Lemma divide_row_map dg j (B : list R) :
  map phi (divide_row dg j B) = divide_row dg j (map phi B).
Proof.
  destruct dg as [d |]; [| reflexivity]. cbn [divide_row].
  now rewrite map_zset, phi_div, row_map.
Qed.

Lemma up_sweep_map n w coef dg (B : list R) :
  map phi (up_sweep n w coef dg B) = up_sweep n w coef dg (map phi B).
Proof.
  unfold up_sweep.
  apply (for_le_push _ _ (map phi) (fun _ => True)); [exact I |].
  intros j b _ _. split; [exact I |]. cbv zeta.
  now rewrite column_op_map, divide_row_map.
Qed.

Lemma down_sweep_map n w coef dg (B : list R) :
  map phi (down_sweep n w coef dg B) = down_sweep n w coef dg (map phi B).
Proof.
  unfold down_sweep.
  apply (for_ge_push _ _ (map phi) (fun _ => True)); [exact I |].
  intros j b _ _. split; [exact I |]. cbv zeta.
  now rewrite column_op_map, divide_row_map.
Qed.

Lemma solve_map M (B : list R) : map phi (solve M B) = solve M (map phi B).
Proof.
  rewrite !solve_sweeps. now rewrite down_sweep_map, up_sweep_map.
Qed.

Lemma solveAdj_map M (B : list R) : map phi (solveAdj M B) = solveAdj M (map phi B).
Proof.
  rewrite !solveAdj_sweeps. now rewrite down_sweep_map, up_sweep_map.
Qed.

End Columns.

Section ColumnsOfPoints.
Variable K : Scalar.
Add Field Kfield_points : (F_field K).
Import BandedSystem.

(** X18: the two solvers work on each column of the right-hand side by
    itself: a column of the result for a two-column right-hand side is the
    result for that column alone, for every system, factorized or not. *)
Theorem solve_by_columns (M : BandedSystem.t K) (B : list (Vector2d K)) :
  map fst (solve M B) = solve M (map fst B) /\
  map snd (solve M B) = solve M (map snd B) /\
  map fst (solveAdj M B) = solveAdj M (map fst B) /\
  map snd (solveAdj M B) = solveAdj M (map snd B).
Proof.
  split; [| split; [| split]].
  - apply (@solve_map K _ _ (Vector2d_rows K) (Scalar_rows K) fst); reflexivity.
  - apply (@solve_map K _ _ (Vector2d_rows K) (Scalar_rows K) snd); reflexivity.
  - apply (@solveAdj_map K _ _ (Vector2d_rows K) (Scalar_rows K) fst); reflexivity.
  - apply (@solveAdj_map K _ _ (Vector2d_rows K) (Scalar_rows K) snd); reflexivity.
Qed.

End ColumnsOfPoints.

Section Layout.
Variable K : Scalar.
Add Field Kfield_layout : (F_field K).
Import BandedSystem CubicSpline SplineExtra.
Implicit Types cs : CubicSpline.t K.
Implicit Types X D b inPs : list (Vector2d K).
Abbreviation vget := (zget (vzero K)).

(** X19: after a fit [getCoeffs] has [4 n] rows, four for each piece; the
    row [4 i + 3] is the waypoint [i], the row [4 i + 2] is the first
    derivative of the piece [i] at [s = 0], and the piece [i] that
    [getCurve] exports has the rows [4 i .. 4 i + 3] as the columns of its
    coefficient matrix. *)
Theorem coefficient_rows cs0 headPos tailPos n inPs junk junkX junkb h curve :
  1 <= n -> n - 1 <= Z.of_nat (length inPs) ->
  exists cs,
    FitSpec.fit cs0 headPos tailPos n inPs junk junkX junkb h = Some cs /\
    Z.of_nat (length (getCoeffs cs)) = 4 * n /\
    forall i, 0 <= i < n ->
      exists p,
        nth_error (getCurve cs curve) (Z.to_nat i) = Some p /\
        coeffMat p = block (getCoeffs cs) i /\
        vget (getCoeffs cs) (4 * i + 3) = waypoint headPos tailPos n inPs i /\
        vget (getCoeffs cs) (4 * i + 2) = velocity p 0%K.
Proof.
  intros Hn Hin.
  destruct (fit_some K cs0 headPos tailPos n inPs junk junkX junkb h Hn Hin)
    as (X & cs & Efit & _ & EN & _ & X0 & Xn & Xi & Lb & Hb).
  destruct (getCurve_spec K cs curve ltac:(lia)) as [_ Hc]. rewrite EN in Hc.
  exists cs. split; [exact Efit |]. split; [unfold getCoeffs; lia |].
  intros i Hi. eexists. split; [exact (Hc i Hi) |]. split; [reflexivity |].
  unfold getCoeffs.
  assert (E3 : vget (b cs) (4 * i + 3) = col3 (block (b cs) i)).
  { unfold block. cbn [col3]. f_equal. lia. }
  assert (E2 : vget (b cs) (4 * i + 2) = col2 (block (b cs) i)).
  { unfold block. cbn [col2]. f_equal. lia. }
  split.
  - rewrite E3, Hb by lia. unfold pieceCoeffs. cbn [col3]. unfold waypoint.
    destruct (Z.eqb_spec i 0) as [-> | H0]; [exact X0 |].
    destruct (Z.eqb_spec i n) as [-> | H1]; [lia |].
    apply Xi. lia.
  - rewrite E2, Hb by lia. rewrite piece_velocity_0. reflexivity.
Qed.

(** The waypoints of a fit. *)
Lemma waypoints_at cs inPs junk X :
  1 <= N cs -> N cs - 1 <= Z.of_nat (length inPs) ->
  waypoints cs inPs junk = Some X ->
  Z.of_nat (length X) = N cs + 1 /\
  forall i, 0 <= i <= N cs -> vget X i = waypoint (headP cs) (tailP cs) (N cs) inPs i.
Proof.
  intros HN Hin EX.
  destruct (waypoints_some K cs inPs junk HN Hin) as (X' & EX' & LX & X0 & Xn & Xi).
  rewrite EX in EX'. injection EX' as <-. split; [exact LX |].
  intros i Hi. unfold waypoint.
  destruct (Z.eqb_spec i 0) as [-> | H0]; [exact X0 |].
  destruct (Z.eqb_spec i (N cs)) as [-> | H1]; [exact Xn |].
  apply Xi. lia.
Qed.

(** X20: a fit follows a translation of its waypoints: when the head, the
    tail and the inner points are moved by [v], every piece of the exported
    curve is moved by [v], at every parameter [s], and the coefficients
    [b_i], [c_i] and [d_i] and the stretch energy do not change. *)
Theorem translated_fit cs0 headPos tailPos n inPs junk junkX junkb h v curve :
  1 <= n -> n - 1 <= Z.of_nat (length inPs) ->
  exists cs cs',
    FitSpec.fit cs0 headPos tailPos n inPs junk junkX junkb h = Some cs /\
    FitSpec.fit cs0 (vadd headPos v) (vadd tailPos v) n
                (map (fun p => vadd p v) inPs) junk junkX junkb h = Some cs' /\
    getStretchEnergy cs' = getStretchEnergy cs /\
    forall i, 0 <= i < n ->
      exists p p',
        nth_error (getCurve cs curve) (Z.to_nat i) = Some p /\
        nth_error (getCurve cs' curve) (Z.to_nat i) = Some p' /\
        col0 (coeffMat p') = col0 (coeffMat p) /\
        col1 (coeffMat p') = col1 (coeffMat p) /\
        col2 (coeffMat p') = col2 (coeffMat p) /\
        forall s, position p' s = vadd (position p s) v.
Proof.
  intros Hn Hin. unfold FitSpec.fit. rewrite !setConditions_some by lia.
  set (b1 := resize junk (b cs0) (n - 1)).
  set (c1 := ConfSpec.configured headPos tailPos n b1).
  set (c1' := ConfSpec.configured (vadd headPos v) (vadd tailPos v) n b1).
  set (inPs' := map (fun p => vadd p v) inPs).
  assert (L1 : Z.of_nat (length b1) = n - 1) by (apply resize_length; lia).
  assert (Lin : length inPs' = length inPs) by apply length_map.
  destruct (setInnerPoints_rows K c1 inPs junkX junkb) as
    (X & b0 & cs & EX & _ & Lb0 & Hb0 & E & EN & _ & _ & _ & Lb & Hb);
    [cbn; lia | cbn [N b c1 ConfSpec.configured]; lia | cbn; lia |].
  destruct (setInnerPoints_rows K c1' inPs' junkX junkb) as
    (X' & b0' & cs' & EX' & _ & Lb0' & Hb0' & E' & EN' & _ & _ & _ & Lb' & Hb');
    [cbn; lia | cbn [N b c1' ConfSpec.configured]; lia | cbn; lia |].
  cbn [N A b c1 c1' ConfSpec.configured] in *.
  destruct (waypoints_at c1 inPs junkX X) as [LX HX]; [cbn; lia | cbn; lia | exact EX |].
  destruct (waypoints_at c1' inPs' junkX X') as [LX' HX']; [cbn; lia | cbn; lia | exact EX' |].
  cbn [N headP tailP c1 c1' ConfSpec.configured] in *.
  assert (XV : forall i, 0 <= i <= n -> vget X' i = vadd (vget X i) v).
  { intros i Hi. rewrite HX, HX' by lia. unfold waypoint.
    destruct (Z.eqb_spec i 0); [reflexivity |].
    destruct (Z.eqb_spec i n); [reflexivity |].
    unfold inPs'.
    apply (zget_map_in _ _ (fun p => vadd p v) (vzero K) (vzero K)). lia. }
  assert (Eb0 : b0' = b0).
  { apply (zget_ext _ (vzero K)); [lia |]. intros i Hi.
    rewrite Hb0, Hb0' by lia. rewrite !XV by lia.
    destruct (vget X (i + 2)) as [x1 x2], (vget X i) as [y1 y2], v as [v1 v2].
    unfold vscale, vsub, vadd. cbn [fst snd]. f_equal; ring. }
  subst b0'.
  set (M := factorizeLU (FillSpec.fillMatrix n _)) in *.
  assert (ED : tangents c1' (solve M b0) = tangents c1 (solve M b0)) by reflexivity.
  rewrite ED in Hb'.
  set (D := tangents c1 (solve M b0)) in *.
  assert (HB : forall i, 0 <= i < n ->
            col0 (block (b cs') i) = col0 (block (b cs) i) /\
            col1 (block (b cs') i) = col1 (block (b cs) i) /\
            col2 (block (b cs') i) = col2 (block (b cs) i) /\
            col3 (block (b cs') i) = vadd (col3 (block (b cs) i)) v).
  { intros i Hi. rewrite Hb, Hb' by lia. unfold pieceCoeffs. cbn [col0 col1 col2 col3].
    rewrite !XV by lia.
    destruct (vget X (i + 1)) as [x1 x2], (vget X i) as [y1 y2], v as [v1 v2].
    destruct (vget D (i + 1)) as [d1 d2], (vget D i) as [e1 e2].
    unfold vscale, vsub, vadd, two, three. cbn [fst snd].
    repeat split; f_equal; ring. }
  exists cs, cs'. split; [exact E |]. split; [exact E' |]. split.
  - rewrite !getStretchEnergy_sum. rewrite EN, EN'. cbn [N].
    apply zsum_ext. intros i Hi. destruct (HB i Hi) as (H0 & H1 & _).
    cbv zeta. now rewrite H0, H1.
  - intros i Hi.
    destruct (getCurve_spec K cs curve ltac:(rewrite EN; cbn; lia)) as [_ Hc].
    destruct (getCurve_spec K cs' curve ltac:(rewrite EN'; cbn; lia)) as [_ Hc'].
    rewrite EN in Hc. rewrite EN' in Hc'. cbn [N] in Hc, Hc'.
    do 2 eexists. split; [exact (Hc i Hi) |]. split; [exact (Hc' i Hi) |].
    cbn [coeffMat]. destruct (HB i Hi) as (H0 & H1 & H2 & H3).
    split; [exact H0 |]. split; [exact H1 |]. split; [exact H2 |].
    intros s. unfold position. cbn [coeffMat]. rewrite H0, H1, H2, H3.
    destruct (col0 (block (b cs) i)) as [a1 a2], (col1 (block (b cs) i)) as [b'1 b'2].
    destruct (col2 (block (b cs) i)) as [g1 g2], (col3 (block (b cs) i)) as [k1 k2].
    destruct v as [v1 v2].
    unfold vscale, vadd. cbn [fst snd]. f_equal; ring.
Qed.

(** X21: a fit reads no cell before it is written: the result, the band
    included, is the same whatever the cells that are not initialised hold,
    whatever the object held before [setConditions] and whatever the free
    store. *)
Theorem fit_ignores_prior_state cs0 cs0' headPos tailPos n inPs
        junk junkX junkb h junk' junkX' junkb' h' :
  n - 1 <= Z.of_nat (length inPs) ->
  FitSpec.fit cs0 headPos tailPos n inPs junk junkX junkb h
  = FitSpec.fit cs0' headPos tailPos n inPs junk' junkX' junkb' h'.
Proof.
  intros Hin. apply fit_agree; auto.
Qed.

End Layout.

(** ** The further theorems at concrete inputs *)

Section MoreWitnesses.
Import BandedSystem CubicSpline SplineExtra Run.

(** The object configured with 3 pieces holds the storage of its band. *)
Lemma conf3_allocated : allocated (A conf3).
Proof.
  split; [vm_compute; discriminate |]. split; [vm_compute; discriminate |].
  split; [vm_compute; discriminate |].
  exists (buf (A conf3)). split; vm_compute; reflexivity.
Defined.

(** A write to the entry [(0, 1)] of the 3-piece system, read at [(1, 0)]. *)
Lemma element_write_read_witness :
  allocated tri2 /\ in_band tri2 0 1 = true /\ in_band tri2 1 0 = true /\
  (get (put tri2 0 1 (f0 QcScalar)) 1 0
   = (if (1 =? 0) && (0 =? 1) then f0 QcScalar else get tri2 1 0) /\
   LUSpec.same_shape tri2 (put tri2 0 1 (f0 QcScalar))).
Proof.
  assert (H1 : in_band tri2 0 1 = true) by (vm_compute; reflexivity).
  assert (H2 : in_band tri2 1 0 = true) by (vm_compute; reflexivity).
  split; [exact tri2_allocated |]. split; [exact H1 |]. split; [exact H2 |].
  exact (element_write_read QcScalar tri2 0 1 (f0 QcScalar) 1 0 tri2_allocated H1 H2).
Defined.


(** [reset] on the system of the 3-piece example. *)
Lemma reset_as_created_witness :
  allocated tri2 /\
  reset tri2
  = fst (create tri2 (BandedSystem.N tri2) (lowerBw tri2) (upperBw tri2) heap3) /\
  LUSpec.same_shape tri2 (reset tri2) /\
  forall i j, get (reset tri2) i j = f0 QcScalar.
Proof.
  split; [exact tri2_allocated |].
  exact (reset_as_created QcScalar tri2 heap3 tri2_allocated).
Defined.

(** [destroy] on the system of the 3-piece example. *)
Lemma destroy_once_witness :
  0 <= 2 * (1 + 1 + 1) /\
  ptrData (fst (destroy tri2 heap3)) = None /\
  blocks (snd (destroy tri2 heap3))
    = (match ptrData tri2 with Some _ => blocks heap3 - 1 | None => blocks heap3 end) /\
  destroy (fst (destroy tri2 heap3)) heap0 = (fst (destroy tri2 heap3), heap0) /\
  snd (destroy (fst (create tri2 2 1 1 heap3)) (snd (create tri2 2 1 1 heap3)))
    = snd (destroy tri2 heap3).
Proof.
  assert (H : 0 <= 2 * (1 + 1 + 1)) by lia.
  split; [exact H |].
  exact (destroy_once QcScalar tri2 2 1 1 heap3 heap0 H).
Defined.

(** [factorizeLU] on the system of the 3-piece example. *)
Lemma factorizeLU_keeps_shape_witness :
  allocated tri2 /\
  LUSpec.same_shape tri2 (factorizeLU tri2) /\
  (BandedSystem.N tri2 = 1 -> factorizeLU tri2 = tri2).
Proof.
  split; [exact tri2_allocated |].
  exact (factorizeLU_keeps_shape QcScalar tri2 tri2_allocated).
Defined.

Lemma factorizeLU_product_witness :
  allocated tri2 /\ BandedSpec.diag_dominant tri2 = true /\
  (forall i j, 0 <= i < BandedSystem.N tri2 -> 0 <= j < BandedSystem.N tri2 ->
     mat tri2 i j
     = zsum QcScalar 0 (BandedSystem.N tri2) (fun m =>
         fmul QcScalar (LUSpec.lower (mat (factorizeLU tri2)) i m)
                       (LUSpec.upper (mat (factorizeLU tri2)) m j))) /\
  forall i, 0 <= i < BandedSystem.N tri2 -> mat (factorizeLU tri2) i i <> f0 QcScalar.
Proof.
  assert (H2 : BandedSpec.diag_dominant tri2 = true) by (vm_compute; reflexivity).
  split; [exact tri2_allocated |]. split; [exact H2 |].
  exact (factorizeLU_product QcScalar tri2 tri2_allocated H2).
Defined.

(** The solvers on the right-hand side of the 3-piece example with a
    further row. *)
Lemma solvers_leave_further_rows_witness :
  Z.of_nat (length rhs2) = BandedSystem.N tri2 /\
  solve tri2 (rhs2 ++ [pt 7 7]) = solve tri2 rhs2 ++ [pt 7 7] /\
  solveAdj tri2 (rhs2 ++ [pt 7 7]) = solveAdj tri2 rhs2 ++ [pt 7 7].
Proof.
  assert (H : Z.of_nat (length rhs2) = BandedSystem.N tri2) by (vm_compute; reflexivity).
  split; [exact H |].
  exact (solvers_leave_further_rows QcScalar tri2 rhs2 [pt 7 7] H).
Defined.

(** The waypoints of the curve of the 3-piece example. *)
Lemma curve_through_waypoints_witness :
  1 <= 3 /\ 3 - 1 <= Z.of_nat (length [pt 1 0; pt 2 0]) /\
  exists cs,
    FitSpec.fit fresh (pt 0 0) (pt 3 0) 3 [pt 1 0; pt 2 0] junk0 junk0 junk0 heap0
    = Some cs /\
    forall i, 0 <= i < 3 ->
      exists p,
        nth_error (getCurve cs []) (Z.to_nat i) = Some p /\
        position p (f0 QcScalar) = waypoint (pt 0 0) (pt 3 0) 3 [pt 1 0; pt 2 0] i /\
        position p (f1 QcScalar)
        = waypoint (pt 0 0) (pt 3 0) 3 [pt 1 0; pt 2 0] (i + 1).
Proof.
  assert (H1 : 1 <= 3) by lia.
  assert (H2 : 3 - 1 <= Z.of_nat (length [pt 1 0; pt 2 0])) by (simpl; lia).
  split; [exact H1 |]. split; [exact H2 |].
  exact (curve_through_waypoints QcScalar fresh (pt 0 0) (pt 3 0) 3 [pt 1 0; pt 2 0]
           junk0 junk0 junk0 heap0 [] H1 H2).
Defined.

(** The first derivative at the ends of the curve of the 3-piece example. *)
Lemma clamped_ends_witness :
  1 <= 3 /\ 3 - 1 <= Z.of_nat (length [pt 1 0; pt 2 0]) /\
  exists cs p0 pL,
    FitSpec.fit fresh (pt 0 0) (pt 3 0) 3 [pt 1 0; pt 2 0] junk0 junk0 junk0 heap0
    = Some cs /\
    nth_error (getCurve cs []) 0 = Some p0 /\
    nth_error (getCurve cs []) (Z.to_nat (3 - 1)) = Some pL /\
    velocity p0 (f0 QcScalar) = vzero QcScalar /\
    velocity pL (f1 QcScalar) = vzero QcScalar.
Proof.
  assert (H1 : 1 <= 3) by lia.
  assert (H2 : 3 - 1 <= Z.of_nat (length [pt 1 0; pt 2 0])) by (simpl; lia).
  split; [exact H1 |]. split; [exact H2 |].
  exact (clamped_ends QcScalar fresh (pt 0 0) (pt 3 0) 3 [pt 1 0; pt 2 0]
           junk0 junk0 junk0 heap0 [] H1 H2).
Defined.

(** The matrix that the object configured with 3 pieces is given. *)
Lemma fill_matrix_entries_witness :
  2 <= CubicSpline.N conf3 /\ allocated (A conf3) /\
  BandedSystem.N (A conf3) = CubicSpline.N conf3 - 1 /\
  lowerBw (A conf3) = 1 /\ upperBw (A conf3) = 1 /\
  Z.of_nat (length (b conf3)) = CubicSpline.N conf3 - 1 /\
  (forall i j, mat (fst (fillSystem conf3 [pt 0 0; pt 1 0; pt 2 0; pt 3 0])) i j
               = splineMatrix QcScalar (CubicSpline.N conf3) i j) /\
  LUSpec.dominant_from (CubicSpline.N conf3 - 1) 0
    (mat (fst (fillSystem conf3 [pt 0 0; pt 1 0; pt 2 0; pt 3 0]))).
Proof.
  assert (H1 : 2 <= CubicSpline.N conf3) by (vm_compute; discriminate).
  assert (H2 : BandedSystem.N (A conf3) = CubicSpline.N conf3 - 1) by reflexivity.
  assert (H3 : lowerBw (A conf3) = 1) by reflexivity.
  assert (H4 : upperBw (A conf3) = 1) by reflexivity.
  assert (H5 : Z.of_nat (length (b conf3)) = CubicSpline.N conf3 - 1) by reflexivity.
  split; [exact H1 |]. split; [exact conf3_allocated |]. split; [exact H2 |].
  split; [exact H3 |]. split; [exact H4 |]. split; [exact H5 |].
  exact (fill_matrix_entries QcScalar conf3 [pt 0 0; pt 1 0; pt 2 0; pt 3 0]
           H1 conf3_allocated H2 H3 H4 H5).
Defined.

(** The tangent equations of the 3-piece example. *)
Lemma tangent_equations_witness :
  3 <= 3 /\ 3 - 1 <= Z.of_nat (length [pt 1 0; pt 2 0]) /\
  exists cs,
    FitSpec.fit fresh (pt 0 0) (pt 3 0) 3 [pt 1 0; pt 2 0] junk0 junk0 junk0 heap0
    = Some cs /\
    forall i, 1 <= i <= 3 - 1 ->
      exists p q,
        nth_error (getCurve cs []) (Z.to_nat (i - 1)) = Some p /\
        nth_error (getCurve cs []) (Z.to_nat i) = Some q /\
        vadd (vadd (velocity p (f0 QcScalar))
                   (vscale (four QcScalar) (velocity q (f0 QcScalar))))
             (velocity q (f1 QcScalar))
        = vscale (three QcScalar)
            (vsub (waypoint (pt 0 0) (pt 3 0) 3 [pt 1 0; pt 2 0] (i + 1))
                  (waypoint (pt 0 0) (pt 3 0) 3 [pt 1 0; pt 2 0] (i - 1))).
Proof.
  assert (H1 : 3 <= 3) by lia.
  assert (H2 : 3 - 1 <= Z.of_nat (length [pt 1 0; pt 2 0])) by (simpl; lia).
  split; [exact H1 |]. split; [exact H2 |].
  exact (tangent_equations QcScalar fresh (pt 0 0) (pt 3 0) 3 [pt 1 0; pt 2 0]
           junk0 junk0 junk0 heap0 [] H1 H2).
Defined.

(** The second derivative at the junctions of the 3-piece example. *)
Lemma acceleration_continuity_witness :
  3 <= 3 /\ 3 - 1 <= Z.of_nat (length [pt 1 0; pt 2 0]) /\
  exists cs,
    FitSpec.fit fresh (pt 0 0) (pt 3 0) 3 [pt 1 0; pt 2 0] junk0 junk0 junk0 heap0
    = Some cs /\
    forall i, 1 <= i <= 3 - 1 ->
      exists p q,
        nth_error (getCurve cs []) (Z.to_nat (i - 1)) = Some p /\
        nth_error (getCurve cs []) (Z.to_nat i) = Some q /\
        acceleration p (f1 QcScalar) = acceleration q (f0 QcScalar).
Proof.
  assert (H1 : 3 <= 3) by lia.
  assert (H2 : 3 - 1 <= Z.of_nat (length [pt 1 0; pt 2 0])) by (simpl; lia).
  split; [exact H1 |]. split; [exact H2 |].
  exact (acceleration_continuity QcScalar fresh (pt 0 0) (pt 3 0) 3 [pt 1 0; pt 2 0]
           junk0 junk0 junk0 heap0 [] H1 H2).
Defined.

(** The inner point of the 2-piece example. *)
Lemma two_pieces_tangent_witness :
  1 <= Z.of_nat (length [pt 1 0]) /\
  exists cs p q,
    FitSpec.fit fresh (pt 0 0) (pt 2 0) 2 [pt 1 0] junk0 junk0 junk0 heap0 = Some cs /\
    nth_error (getCurve cs []) 0 = Some p /\
    nth_error (getCurve cs []) 1 = Some q /\
    velocity q (f0 QcScalar) = vscale (three QcScalar) (vsub (pt 2 0) (pt 0 0)) /\
    vsub (acceleration p (f1 QcScalar)) (acceleration q (f0 QcScalar))
    = vscale (fmul QcScalar (two QcScalar)
                (fmul QcScalar (three QcScalar) (three QcScalar)))
             (vsub (pt 2 0) (pt 0 0)).
Proof.
  assert (H : 1 <= Z.of_nat (length [pt 1 0])) by (simpl; lia).
  split; [exact H |].
  exact (two_pieces_tangent QcScalar fresh (pt 0 0) (pt 2 0) [pt 1 0]
           junk0 junk0 junk0 heap0 [] H).
Defined.

(** The 3-piece example fitted a second time, with other inner points. *)
Lemma second_fit_witness :
  1 <= 3 /\ 3 - 1 <= Z.of_nat (length [pt 1 0; pt 2 0]) /\
  3 - 1 <= Z.of_nat (length [pt 1 1; pt 2 5]) /\
  exists cs1 cs2 cs2',
    FitSpec.fit fresh (pt 0 0) (pt 3 0) 3 [pt 1 0; pt 2 0] junk0 junk0 junk0 heap0
    = Some cs1 /\
    setInnerPoints cs1 [pt 1 1; pt 2 5] junk0 junk0 = Some cs2 /\
    FitSpec.fit fresh (pt 0 0) (pt 3 0) 3 [pt 1 1; pt 2 5] junk0 junk0 junk0 heap0
    = Some cs2' /\
    getCoeffs cs2 = getCoeffs cs2'.
Proof.
  assert (H1 : 1 <= 3) by lia.
  assert (H2 : 3 - 1 <= Z.of_nat (length [pt 1 0; pt 2 0])) by (simpl; lia).
  assert (H3 : 3 - 1 <= Z.of_nat (length [pt 1 1; pt 2 5])) by (simpl; lia).
  split; [exact H1 |]. split; [exact H2 |]. split; [exact H3 |].
  destruct (second_fit QcScalar fresh (pt 0 0) (pt 3 0) 3 [pt 1 0; pt 2 0]
              [pt 1 1; pt 2 5] junk0 junk0 junk0 junk0 junk0 heap0 H1 H2 H3)
    as (cs1 & cs2 & cs2' & E1 & E2 & E3 & _ & _ & _ & Eb & _).
  exists cs1, cs2, cs2'. split; [exact E1 |]. split; [exact E2 |].
  split; [exact E3 | exact Eb].
Defined.

(** The destructor on the object configured with 3 pieces. *)
Lemma destructor_frees_storage_witness :
  setConditions fresh (pt 0 0) (pt 3 0) 3 junk0 heap0 = Some (conf3, heap3) /\
  destructor conf3 heap3 = destructor fresh heap0 /\
  forall inPs junkX junkb cs2,
    setInnerPoints conf3 inPs junkX junkb = Some cs2 ->
    destructor cs2 heap3 = destructor fresh heap0.
Proof.
  assert (H1 : setConditions fresh (pt 0 0) (pt 3 0) 3 junk0 heap0 = Some (conf3, heap3))
    by reflexivity.
  split; [exact H1 |].
  exact (destructor_frees_storage QcScalar fresh (pt 0 0) (pt 3 0) 3 junk0 heap0
           conf3 heap3 H1).
Defined.

(** The rows of the coefficients of the 3-piece example. *)
Lemma coefficient_rows_witness :
  1 <= 3 /\ 3 - 1 <= Z.of_nat (length [pt 1 0; pt 2 0]) /\
  exists cs,
    FitSpec.fit fresh (pt 0 0) (pt 3 0) 3 [pt 1 0; pt 2 0] junk0 junk0 junk0 heap0
    = Some cs /\
    Z.of_nat (length (getCoeffs cs)) = 4 * 3 /\
    forall i, 0 <= i < 3 ->
      exists p,
        nth_error (getCurve cs []) (Z.to_nat i) = Some p /\
        coeffMat p = block (getCoeffs cs) i /\
        zget (vzero QcScalar) (getCoeffs cs) (4 * i + 3)
        = waypoint (pt 0 0) (pt 3 0) 3 [pt 1 0; pt 2 0] i /\
        zget (vzero QcScalar) (getCoeffs cs) (4 * i + 2) = velocity p (f0 QcScalar).
Proof.
  assert (H1 : 1 <= 3) by lia.
  assert (H2 : 3 - 1 <= Z.of_nat (length [pt 1 0; pt 2 0])) by (simpl; lia).
  split; [exact H1 |]. split; [exact H2 |].
  exact (coefficient_rows QcScalar fresh (pt 0 0) (pt 3 0) 3 [pt 1 0; pt 2 0]
           junk0 junk0 junk0 heap0 [] H1 H2).
Defined.

(** The 3-piece example moved by [(5, 7)]. *)
Lemma translated_fit_witness :
  1 <= 3 /\ 3 - 1 <= Z.of_nat (length [pt 1 0; pt 2 0]) /\
  exists cs cs',
    FitSpec.fit fresh (pt 0 0) (pt 3 0) 3 [pt 1 0; pt 2 0] junk0 junk0 junk0 heap0
    = Some cs /\
    FitSpec.fit fresh (vadd (pt 0 0) (pt 5 7)) (vadd (pt 3 0) (pt 5 7)) 3
                (map (fun p => vadd p (pt 5 7)) [pt 1 0; pt 2 0])
                junk0 junk0 junk0 heap0 = Some cs' /\
    getStretchEnergy cs' = getStretchEnergy cs.
Proof.
  assert (H1 : 1 <= 3) by lia.
  assert (H2 : 3 - 1 <= Z.of_nat (length [pt 1 0; pt 2 0])) by (simpl; lia).
  split; [exact H1 |]. split; [exact H2 |].
  destruct (translated_fit QcScalar fresh (pt 0 0) (pt 3 0) 3 [pt 1 0; pt 2 0]
              junk0 junk0 junk0 heap0 (pt 5 7) [] H1 H2)
    as (cs & cs' & E & E' & En & _).
  exists cs, cs'. split; [exact E |]. split; [exact E' | exact En].
Defined.

(** The 3-piece example on a fresh object and on a configured one, with
    other values in the cells that are not initialised. *)
Lemma fit_ignores_prior_state_witness :
  3 - 1 <= Z.of_nat (length [pt 1 0; pt 2 0]) /\
  FitSpec.fit fresh (pt 0 0) (pt 3 0) 3 [pt 1 0; pt 2 0] junk0 junk0 junk0 heap0
  = FitSpec.fit conf3 (pt 0 0) (pt 3 0) 3 [pt 1 0; pt 2 0]
      (fun _ => pt 9 9) (fun _ => pt 8 8) (fun _ => pt 7 7) heap3.
Proof.
  assert (H : 3 - 1 <= Z.of_nat (length [pt 1 0; pt 2 0])) by (simpl; lia).
  split; [exact H |].
  exact (fit_ignores_prior_state QcScalar fresh conf3 (pt 0 0) (pt 3 0) 3
           [pt 1 0; pt 2 0] junk0 junk0 junk0 heap0
           (fun _ => pt 9 9) (fun _ => pt 8 8) (fun _ => pt 7 7) heap3 H).
Defined.

End MoreWitnesses.
